(** * CodepageEncoder: Unicode text to single-byte codepages

    A shallow embedding of [src/codepage-encoder.ts], in two layers.

    The first layer computes with values:
    - JavaScript strings are sequences of UTF-16 code units; [input.length]
      counts code units and [codePointAt] reads the code point that starts at
      a code unit index.
    - A JavaScript array of numbers is a list of optional integers, [None]
      standing for a hole (an index that reads [undefined]).
    - The generated tables [definitions] and [aliases] are section variables:
      finite maps keyed by codepage name (own properties only; what the
      objects inherit from [Object.prototype] is outside the model).
    - A thrown exception is the [Err] constructor of [result].

    The second layer, [Store], runs the same code over a heap of objects,
    where arrays have an identity and are updated in place. It is shown to
    return what the first layer computes, and settles what the caller of
    [getEncoding] may do with the object it gets.

    [Generator] embeds the build script that prints [definitions] and
    [aliases] from the mapping files and the registry, up to the text it
    writes; what the runtime reads from a printed entry is compared with
    the file the entry was made from. *)

From stdpp Require Import base list gmap strings pretty.
From Stdlib Require Import ZArith Lia.

Local Open Scope Z_scope.

(** ** Exceptions *)

Inductive exn : Type :=
  | TypeError   (* a property read on [undefined] *)
  | RangeError. (* maximum call stack size exceeded *)

Inductive result (A : Type) : Type :=
  | Ok (a : A)
  | Err (e : exn).
Arguments Ok {A} a.
Arguments Err {A} e.

Definition rbind {A B} (m : result A) (k : A → result B) : result B :=
  match m with
  | Ok a => k a
  | Err e => Err e
  end.

Notation "'let*' x ':=' m 'in' k" := (rbind m (fun x => k))
  (at level 10, x name, m at level 100, k at level 200, only parsing).

(** ** Strings of UTF-16 code units *)

Abbreviation jsstring := (list Z).

(** [String.prototype.codePointAt]: [undefined] past the end; a lead
    surrogate followed by a trail surrogate reads as one supplementary code
    point; any other code unit reads as itself. *)
Definition is_lead (u : Z) : bool := (0xD800 <=? u) && (u <=? 0xDBFF).
Definition is_trail (u : Z) : bool := (0xDC00 <=? u) && (u <=? 0xDFFF).

Definition surrogate_pair (first second : Z) : Z :=
  (first - 0xD800) * 0x400 + (second - 0xDC00) + 0x10000.

Definition codePointAt (s : jsstring) (c : nat) : option Z :=
  match s !! c with
  | None => None
  | Some first =>
      if is_lead first then
        match s !! S c with
        | Some second =>
            if is_trail second then Some (surrogate_pair first second)
            else Some first
        | None => Some first
        end
      else Some first
  end.

(** The code points of a string, as its iterator yields them: a well-formed
    surrogate pair is one code point, every other code unit is one. *)
Fixpoint codePoints (s : jsstring) : list Z :=
  match s with
  | [] => []
  | first :: rest =>
      match rest with
      | second :: rest' =>
          if is_lead first && is_trail second
          then surrogate_pair first second :: codePoints rest'
          else first :: codePoints rest
      | [] => [first]
      end
  end.

(** ** Arrays of numbers *)

Abbreviation Codepoints := (list (option Z)).

(** [a[k]]: holes and indices past the end both read [undefined]. *)
Definition js_get (a : Codepoints) (k : nat) : option Z := mjoin (a !! k).

(** [a[i] = v]: a negative index names an ordinary property and leaves the
    elements alone; an index past the end grows the array, leaving holes. *)
Definition js_set (a : Codepoints) (i : Z) (v : Z) : Codepoints :=
  if i <? 0 then a
  else
    let k := Z.to_nat i in
    if (k <? length a)%nat then <[k := Some v]> a
    else a ++ replicate (k - length a)%nat None ++ [Some v].

(** [a.findIndex((i) => i === x)], with [-1] for no match. Holes are
    visited and read [undefined]. *)
Fixpoint findIndex_from (a : Codepoints) (x : option Z) (k : Z) : Z :=
  match a with
  | [] => -1
  | e :: a' => if decide (e = x) then k else findIndex_from a' x (k + 1)
  end.

Definition findIndex (a : Codepoints) (x : option Z) : Z := findIndex_from a x 0.

(** Storing a number into a [Uint8Array] element. *)
Definition to_uint8 (n : Z) : Z := n mod 256.

(** ** Codepage definitions *)

(** An element of [value]: a hole, a code point, or a row of sixteen
    optional code points. *)
Inductive Slot : Type :=
  | Hole
  | Num (n : Z)
  | Row (r : list (option Z)).

Record Codepage : Type := mkCodepage {
  name : string;
  languages : option (list string);
  extends : option string;
  offset : option Z;
  value : option (list Slot);
}.

Record Encoding : Type := mkEncoding {
  definition : Codepage;
  codepoints : Codepoints;
}.

(** The two loops of [getCodepoints] that write [value] into the table. *)
Definition write_row (i : nat) (subvalue : list (option Z)) (cps : Codepoints) : Codepoints :=
  foldl (fun cps j =>
           match subvalue !! j with
           | Some (Some subsubvalue) => js_set cps (Z.of_nat (i * 16 + j)) subsubvalue
           | _ => cps
           end) cps (seq 0 16).

Definition write_sparse (value : list Slot) (cps : Codepoints) : Codepoints :=
  foldl (fun cps i =>
           match value !! i with
           | Some (Row subvalue) => write_row i subvalue cps
           | _ => cps
           end) cps (seq 0 16).

Definition write_dense (offset : Z) (value : list Slot) (cps : Codepoints) : Codepoints :=
  foldl (fun cps i =>
           match value !! i with
           | Some (Num subvalue) => js_set cps (offset + Z.of_nat i) subvalue
           | _ => cps
           end) cps (seq 0 (length value)).

Definition write_value (d : Codepage) (cps : Codepoints) : Codepoints :=
  match value d with
  | None => cps
  | Some v =>
      if decide (length v = 16%nat) then write_sparse v cps
      else write_dense (default 0 (offset d)) v cps
  end.

Definition sentinel : Z := 0xFFFD.

(** ** Fragments *)

Record Fragment : Type := mkFragment {
  codepage : string;
  bytes : list Z;
}.

(** [currentFragment]: [codepage] is [undefined] until the first character
    has been placed. *)
Record CurrentFragment : Type := mkCurrent {
  cur_codepage : option string;
  chars : list Z;
}.

Record State : Type := mkState {
  fragments : list Fragment;
  currentFragment : CurrentFragment;
}.

(** Truthiness of a [string | undefined]: [undefined] and the empty string
    are falsy. *)
Definition truthy (s : option string) : bool :=
  match s with
  | Some s => negb (String.eqb s "")
  | None => false
  end.

(** [fragments.push({codepage, bytes: new Uint8Array(chars)})], guarded by
    [if (currentFragment.codepage)]. *)
Definition flush (fragments : list Fragment) (cf : CurrentFragment) : list Fragment :=
  match cur_codepage cf with
  | Some cp =>
      if truthy (Some cp) then fragments ++ [mkFragment cp (map to_uint8 (chars cf))]
      else fragments
  | None => fragments
  end.

(** The table [getCodepoints] holds before it reads [value]: 256 holes,
    filled with the sentinel or replaced by the parent's resolved table when
    [evaluateExtends] is set. *)
Definition initial_table (getEncoding : string → result Encoding)
    (d : Codepage) (evaluateExtends : bool) : result Codepoints :=
  let cps := replicate 256 None in
  if evaluateExtends then
    match extends d with
    | None => Ok (replicate (length cps) (Some sentinel))
    | Some parent => let* e := getEncoding parent in Ok (codepoints e)
    end
  else Ok cps.

(** The second half of the loop body of [autoEncode]: close the current
    fragment if the codepage changes, then push the byte. *)
Definition place (st : State) (availableCodepage : option string) (char : Z) : State :=
  let st :=
    if decide (cur_codepage (currentFragment st) ≠ availableCodepage) then
      mkState (flush (fragments st) (currentFragment st)) (mkCurrent availableCodepage [])
    else st in
  mkState (fragments st)
    (mkCurrent (cur_codepage (currentFragment st))
               (chars (currentFragment st) ++ [char])).

Section registry.
Variable definitions : gmap string Codepage.
Variable aliases : gmap string string.

(** The name [getEncoding] settles on: the alias target if there is one,
    then ["ascii"] if the registry has no such definition. *)
Definition canonical (codepage : string) : string :=
  let codepage := default codepage (aliases !! codepage) in
  match definitions !! codepage with
  | None => "ascii"%string
  | Some _ => codepage
  end.

(** [getCodepoints(codepage, evaluateExtends)], given the [getEncoding] it
    calls for the parent. *)
Definition getCodepoints_with (getEncoding : string → result Encoding)
    (codepage : string) (evaluateExtends : bool) : result Codepoints :=
  match definitions !! codepage with
  | None => Err TypeError
  | Some d =>
      let* cps := initial_table getEncoding d evaluateExtends in
      Ok (write_value d cps)
  end.

(** [getEncoding(codepage)]. [depth] is the call stack left: the mutual
    recursion with [getCodepoints] ends in [RangeError] when it runs out. *)
Fixpoint getEncoding (depth : nat) (codepage : string) : result Encoding :=
  match depth with
  | O => Err RangeError
  | S depth' =>
      let codepage :=
        match aliases !! codepage with Some a => a | None => codepage end in
      let codepage :=
        match definitions !! codepage with None => "ascii"%string | Some _ => codepage end in
      match definitions !! codepage with
      | None => Err TypeError
      | Some d =>
          let* cps := getCodepoints_with (getEncoding depth') codepage true in
          Ok (mkEncoding d cps)
      end
  end.

Definition getCodepoints (depth : nat) : string → bool → result Codepoints :=
  getCodepoints_with (getEncoding depth).

(** [encode(input, codepage)] *)
Definition encode (depth : nat) (input : jsstring) (codepage : string) : result (list Z) :=
  let output := replicate (length input) 0 in
  let* definition := getEncoding depth codepage in
  Ok (foldl (fun output c =>
               let codepoint := codePointAt input c in
               let position := findIndex (codepoints definition) codepoint in
               if decide (position ≠ -1) then <[c := to_uint8 position]> output
               else <[c := 0x3f]> output)
            output (seq 0 (length input))).

(** The candidate loop of [autoEncode]: the first candidate whose table
    holds [codePoint], else what was there before. *)
Fixpoint scan_candidates (depth : nat) (candidates : list string)
    (codePoint : option Z) (before : option string * Z) : result (option string * Z) :=
  match candidates with
  | [] => Ok before
  | candidate :: rest =>
      let* definition := getEncoding depth candidate in
      let position := findIndex (codepoints definition) codePoint in
      if decide (position ≠ -1) then Ok (Some candidate, position)
      else scan_candidates depth rest codePoint before
  end.

(** The stickiness check of [autoEncode]: the current codepage and the
    position of [codePoint] in its table, when there is a current codepage
    and its table holds [codePoint]; else the initial [undefined] and 0. *)
Definition stick (depth : nat) (cf : CurrentFragment) (codePoint : option Z)
    : result (option string * Z) :=
  match cur_codepage cf with
  | Some current =>
      if truthy (Some current) then
        let* definition := getEncoding depth current in
        let position := findIndex (codepoints definition) codePoint in
        if decide (position ≠ -1) then Ok (Some current, position)
        else Ok (None, 0)
      else Ok (None, 0)
  | None => Ok (None, 0)
  end.

(** The first half of the loop body of [autoEncode]: which codepage and
    which byte the character at index [c] gets. *)
Definition choose (depth : nat) (input : jsstring) (candidates : list string)
    (cf : CurrentFragment) (c : nat) : result (option string * Z) :=
  let codePoint := codePointAt input c in
  let* sticky := stick depth cf codePoint in
  let* scanned :=
    if truthy (fst sticky) then Ok sticky
    else scan_candidates depth candidates codePoint sticky in
  Ok (if truthy (fst scanned) then scanned
      else (if truthy (cur_codepage cf) then cur_codepage cf else head candidates, 0x3f)).

(** One turn of the main loop of [autoEncode], at index [c]. *)
Definition autoEncode_step (depth : nat) (input : jsstring) (candidates : list string)
    (st : State) (c : nat) : result State :=
  let* chosen := choose depth input candidates (currentFragment st) c in
  Ok (place st (fst chosen) (snd chosen)).

Fixpoint autoEncode_loop (depth : nat) (input : jsstring) (candidates : list string)
    (cs : list nat) (st : State) : result State :=
  match cs with
  | [] => Ok st
  | c :: cs' =>
      let* st' := autoEncode_step depth input candidates st c in
      autoEncode_loop depth input candidates cs' st'
  end.

Definition initial : State := mkState [] (mkCurrent None []).

(** [autoEncode(input, candidates)] *)
Definition autoEncode (depth : nat) (input : jsstring) (candidates : list string)
    : result (list Fragment) :=
  let* st := autoEncode_loop depth input candidates (seq 0 (length input)) initial in
  Ok (flush (fragments st) (currentFragment st)).

End registry.

(** ** A small registry in the generated format *)

(** Modelled from the spec: [generated/definitions.ts] and
    [generated/aliases.ts] are not among the sources. The ascii payload is
    the dense identity on bytes 0 to 127 with holes above, as the generator
    writes it; the two children are made up, one in each storage shape. *)
Definition ascii_value : list Slot :=
  map (fun i => Num (Z.of_nat i)) (seq 0 128) ++ replicate 127 Hole.

Definition row_blank : list (option Z) := replicate 16 None.

Definition ascii_definition : Codepage :=
  mkCodepage "ASCII" None None None (Some ascii_value).

(** A dense child: four code points from byte 128 on. *)
Definition latin_definition : Codepage :=
  mkCodepage "Latin sample" (Some ["fr"%string]) (Some "ascii"%string) (Some 128)
    (Some (map Num [0xC7; 0xFC; 0xE9; 0xE2] ++ replicate 124 Hole)).

(** A sparse child: row 8 overrides bytes 0x81 and 0x82. *)
Definition greek_definition : Codepage :=
  mkCodepage "Greek sample" (Some ["el"%string]) (Some "latin"%string) None
    (Some (replicate 8 Hole
           ++ [Row (<[1%nat := Some 0x3B1]> (<[2%nat := Some 0x3B2]> row_blank))]
           ++ replicate 7 Hole)).

Definition sample_definitions : gmap string Codepage :=
  list_to_map
    [ ("ascii"%string, ascii_definition);
      ("latin"%string, latin_definition);
      ("greek"%string, greek_definition) ].

Definition sample_aliases : gmap string string :=
  list_to_map [ ("us-ascii"%string, "ascii"%string); ("el"%string, "greek"%string) ].

Definition sample_rank (p : string) : nat :=
  if String.eqb p "greek" then 2%nat else if String.eqb p "latin" then 1%nat else 0%nat.

Definition table_of (definitions : gmap string Codepage) (aliases : gmap string string)
    (depth : nat) (p : string) : Codepoints :=
  match getEncoding definitions aliases depth p with
  | Ok e => codepoints e
  | Err _ => []
  end.

Definition ascii_table : Codepoints :=
  Eval vm_compute in table_of sample_definitions sample_aliases 1 "ascii".

Definition latin_table : Codepoints :=
  Eval vm_compute in table_of sample_definitions sample_aliases 2 "latin".

Definition greek_table : Codepoints :=
  Eval vm_compute in table_of sample_definitions sample_aliases 3 "greek".

Definition greek_encoding : Encoding := mkEncoding greek_definition greek_table.

(** U+1F600 as its two UTF-16 code units. *)
Definition astral : jsstring := [0xD83D; 0xDE00].

(** The check behind [ranked], one definition at a time. *)
Definition ranked_check (definitions : gmap string Codepage) (aliases : gmap string string)
    (rank : string → nat) (p : string) (d : Codepage) : bool :=
  match extends d with
  | Some q => (rank (canonical definitions aliases q) <? rank p)%nat
  | None => true
  end.


(** The byte [encode] stores for a code point, given the resolved table. *)
Definition encoded_byte (cps : Codepoints) (codepoint : option Z) : Z :=
  let position := findIndex cps codepoint in
  if decide (position ≠ -1) then to_uint8 position else 0x3f.

Fixpoint no_surrogate_pair (s : jsstring) : bool :=
  match s with
  | first :: rest =>
      match rest with
      | second :: _ => negb (is_lead first && is_trail second) && no_surrogate_pair rest
      | [] => true
      end
  | [] => true
  end.

(** ** The shape of a generated registry *)

Definition valid_code_point (n : Z) : bool := (0 <=? n) && (n <=? 0x10FFFF).

Definition slot_ok (s : Slot) : bool :=
  match s with
  | Hole => true
  | Num n => valid_code_point n
  | Row r => forallb (fun o => match o with Some n => valid_code_point n | None => true end) r
  end.

(** Every number stored in [value] is a code point, and a payload that is
    not read as sixteen rows fits the table from [offset] on. *)
Definition codepage_ok (d : Codepage) : bool :=
  match value d with
  | None => true
  | Some v =>
      forallb slot_ok v
      && ((length v =? 16)%nat
          || ((0 <=? default 0 (offset d))
              && (default 0 (offset d) + Z.of_nat (length v) <=? 256)))
  end.

Definition registry_ok (definitions : gmap string Codepage) : Prop :=
  map_Forall (fun _ d => codepage_ok d = true) definitions.

(** The [extends] chains end: each parent, as [getEncoding] resolves its
    name, ranks below the child. *)
Definition ranked (definitions : gmap string Codepage) (aliases : gmap string string)
    (rank : string → nat) : Prop :=
  ∀ p d q, definitions !! p = Some d → extends d = Some q →
           (rank (canonical definitions aliases q) < rank p)%nat.

Definition entry_ok (x : option Z) : Prop :=
  ∃ n, x = Some n ∧ (valid_code_point n = true ∨ n = sentinel).

Definition returns {A} (r : result A) : Prop := ∃ a, r = Ok a.

(** The bytes held by a list of fragments. *)
Definition total_bytes (fs : list Fragment) : nat :=
  sum_list_with (fun f => length (bytes f)) fs.

(** ** What [value] supplies at a table index, read off its shape *)

Definition sparse_entry (v : list Slot) (k : nat) : option Z :=
  if decide (k < 256)%nat then
    match v !! (k / 16)%nat with
    | Some (Row r) => mjoin (r !! (k mod 16)%nat)
    | _ => None
    end
  else None.

Definition dense_entry (off : Z) (v : list Slot) (k : nat) : option Z :=
  let i := Z.of_nat k - off in
  if decide (0 ≤ i) then
    match v !! Z.to_nat i with
    | Some (Num n) => Some n
    | _ => None
    end
  else None.

Definition override_at (d : Codepage) (k : nat) : option Z :=
  match value d with
  | None => None
  | Some v =>
      if decide (length v = 16%nat) then sparse_entry v k
      else dense_entry (default 0 (offset d)) v k
  end.

(** ** What a run of [autoEncode] keeps between turns *)

(** A current codepage named by the empty string can only have come from
    the head of the candidate list. *)
Definition empty_name_from_head (candidates : list string) (st : State) : Prop :=
  cur_codepage (currentFragment st) = Some ""%string → head candidates = Some ""%string.

(** Characters wait only in a fragment that will be pushed, and the
    current codepage is one of the candidates. *)
Definition kept (candidates : list string) (st : State) : Prop :=
  (truthy (cur_codepage (currentFragment st)) = true ∨ chars (currentFragment st) = [])
  ∧ ∀ s, cur_codepage (currentFragment st) = Some s → s ∈ candidates.

Definition placed (st : State) : nat :=
  (total_bytes (fragments st) + length (chars (currentFragment st)))%nat.

(** ** The same code over a store of objects

    [getEncoding] hands out object references. Here the registry lives in
    a heap of typed cells, [structuredClone], [new Array] and the object
    literal allocate, and [codepoints[i] = v] updates the array in place. *)

Module Store.

Abbreviation loc := positive.

(** An element of a [value] array: a row is a reference to another array. *)
Inductive slotref : Type :=
  | SHole
  | SNum (n : Z)
  | SRow (l : loc).

(** The fields of a definition object. *)
Record object : Type := mkObject {
  o_name : string;
  o_languages : option loc;
  o_extends : option string;
  o_offset : option Z;
  o_value : option loc;
}.

Inductive cell : Type :=
  | CDefinition (o : object)                 (* an entry of [definitions] *)
  | CEncoding (o : object) (codepoints : loc) (* what [getEncoding] returns *)
  | CStrings (a : list string)               (* a [languages] array *)
  | CSlots (a : list slotref)                (* a [value] array *)
  | CNumbers (a : list (option Z))           (* a row or a codepoints array *)
  | CDefinitions (m : gmap string loc)       (* the [definitions] object *)
  | CAliases (m : gmap string string).       (* the [aliases] object *)

Abbreviation heap := (gmap loc cell).

(** Computations that read and update the heap and may throw. *)
Definition M (A : Type) : Type := heap → result (A * heap).

Definition ret {A} (a : A) : M A := fun h => Ok (a, h).

Definition bind {A B} (m : M A) (k : A → M B) : M B :=
  fun h =>
    match m h with
    | Ok (a, h') => k a h'
    | Err e => Err e
    end.

Definition throw {A} (e : exn) : M A := fun _ => Err e.

Notation "'let!' x ':=' m 'in' k" := (bind m (fun x => k))
  (at level 10, x name, m at level 100, k at level 200, only parsing).

Definition alloc (c : cell) : M loc :=
  fun h => let l := fresh (dom h) in Ok (l, <[l := c]> h).

Definition read (l : loc) : M cell :=
  fun h =>
    match h !! l with
    | Some c => Ok (c, h)
    | None => Err TypeError
    end.

Definition write (l : loc) (c : cell) : M unit :=
  fun h => Ok (tt, <[l := c]> h).

Definition read_definition (l : loc) : M object :=
  let! c := read l in
  match c with CDefinition o => ret o | _ => throw TypeError end.

Definition read_encoding (l : loc) : M (object * loc) :=
  let! c := read l in
  match c with CEncoding o cps => ret (o, cps) | _ => throw TypeError end.

Definition read_strings (l : loc) : M (list string) :=
  let! c := read l in
  match c with CStrings a => ret a | _ => throw TypeError end.

Definition read_slots (l : loc) : M (list slotref) :=
  let! c := read l in
  match c with CSlots a => ret a | _ => throw TypeError end.

Definition read_numbers (l : loc) : M (list (option Z)) :=
  let! c := read l in
  match c with CNumbers a => ret a | _ => throw TypeError end.

Definition read_definitions (l : loc) : M (gmap string loc) :=
  let! c := read l in
  match c with CDefinitions m => ret m | _ => throw TypeError end.

Definition read_aliases (l : loc) : M (gmap string string) :=
  let! c := read l in
  match c with CAliases m => ret m | _ => throw TypeError end.

Fixpoint for_each {A} (f : A → M unit) (xs : list A) : M unit :=
  match xs with
  | [] => ret tt
  | x :: xs' => let! _ := f x in for_each f xs'
  end.

Fixpoint map_each {A B} (f : A → M B) (xs : list A) : M (list B) :=
  match xs with
  | [] => ret []
  | x :: xs' => let! y := f x in let! ys := map_each f xs' in ret (y :: ys)
  end.

(** [structuredClone(definition)]: a deep copy, array by array. *)
Definition clone_strings (l : loc) : M loc :=
  let! a := read_strings l in alloc (CStrings a).

Definition clone_numbers (l : loc) : M loc :=
  let! a := read_numbers l in alloc (CNumbers a).

Definition clone_slot (s : slotref) : M slotref :=
  match s with
  | SRow l => let! l' := clone_numbers l in ret (SRow l')
  | _ => ret s
  end.

Definition clone_slots (l : loc) : M loc :=
  let! a := read_slots l in
  let! a' := map_each clone_slot a in
  alloc (CSlots a').

Definition clone_field (f : loc → M loc) (o : option loc) : M (option loc) :=
  match o with
  | Some l => let! l' := f l in ret (Some l')
  | None => ret None
  end.

Definition structuredClone (l : loc) : M loc :=
  let! o := read_definition l in
  let! ls := clone_field clone_strings (o_languages o) in
  let! lv := clone_field clone_slots (o_value o) in
  alloc (CDefinition (mkObject (o_name o) ls (o_extends o) (o_offset o) lv)).

(** [codepoints[i] = v] *)
Definition set_element (cps : loc) (i v : Z) : M unit :=
  let! a := read_numbers cps in
  write cps (CNumbers (js_set a i v)).

Definition write_row (cps : loc) (i : nat) (subvalue : loc) : M unit :=
  for_each (fun j =>
              let! sub := read_numbers subvalue in
              match sub !! j with
              | Some (Some subsubvalue) => set_element cps (Z.of_nat (i * 16 + j)) subsubvalue
              | _ => ret tt
              end) (seq 0 16).

Definition write_sparse (cps value : loc) : M unit :=
  for_each (fun i =>
              let! v := read_slots value in
              match v !! i with
              | Some (SRow subvalue) => write_row cps i subvalue
              | _ => ret tt
              end) (seq 0 16).

Definition write_dense (cps : loc) (offset : Z) (value : loc) (len : nat) : M unit :=
  for_each (fun i =>
              let! v := read_slots value in
              match v !! i with
              | Some (SNum subvalue) => set_element cps (offset + Z.of_nat i) subvalue
              | _ => ret tt
              end) (seq 0 len).

Definition write_value (cps : loc) (d : object) : M unit :=
  match o_value d with
  | None => ret tt
  | Some value =>
      let! v := read_slots value in
      if decide (length v = 16%nat) then write_sparse cps value
      else write_dense cps (default 0 (o_offset d)) value (length v)
  end.

(** The array [getCodepoints] goes on to fill: the fresh one, or the one
    the parent's [getEncoding] returned. *)
Definition initial_table (getEncoding : string → M loc) (d : object)
    (evaluateExtends : bool) : M loc :=
  let! cps := alloc (CNumbers (replicate 256 None)) in
  if evaluateExtends then
    match o_extends d with
    | None =>
        let! a := read_numbers cps in
        let! _ := write cps (CNumbers (replicate (length a) (Some sentinel))) in
        ret cps
    | Some parent =>
        let! e := getEncoding parent in
        let! r := read_encoding e in
        ret (snd r)
    end
  else ret cps.

Section program.
(** Where the module-level constants [definitions] and [aliases] point. *)
Variable definitions : loc.
Variable aliases : loc.

Definition getCodepoints_with (getEncoding : string → M loc)
    (codepage : string) (evaluateExtends : bool) : M loc :=
  let! defs := read_definitions definitions in
  match defs !! codepage with
  | None => throw TypeError
  | Some ld =>
      let! d := read_definition ld in
      let! cps := initial_table getEncoding d evaluateExtends in
      let! _ := write_value cps d in
      ret cps
  end.

Fixpoint getEncoding (depth : nat) (codepage : string) : M loc :=
  match depth with
  | O => throw RangeError
  | S depth' =>
      let! als := read_aliases aliases in
      let codepage :=
        match als !! codepage with Some a => a | None => codepage end in
      let! defs := read_definitions definitions in
      let codepage :=
        match defs !! codepage with None => "ascii"%string | Some _ => codepage end in
      match defs !! codepage with
      | None => throw TypeError
      | Some definition =>
          let! clone := structuredClone definition in
          let! cps := getCodepoints_with (getEncoding depth') codepage true in
          let! o := read_definition clone in
          alloc (CEncoding o cps)
      end
  end.

Definition getCodepoints (depth : nat) : string → bool → M loc :=
  getCodepoints_with (getEncoding depth).

(** [definition.codepoints.findIndex((i) => i === x)] *)
Definition find_position (definition : loc) (x : option Z) : M Z :=
  let! r := read_encoding definition in
  let! a := read_numbers (snd r) in
  ret (findIndex a x).

(** The [Uint8Array] and the fragments under construction are local to a
    call and are kept as values. *)
Fixpoint encode_loop (definition : loc) (input : jsstring) (cs : list nat)
    (output : list Z) : M (list Z) :=
  match cs with
  | [] => ret output
  | c :: cs' =>
      let codepoint := codePointAt input c in
      let! position := find_position definition codepoint in
      if decide (position ≠ -1)
      then encode_loop definition input cs' (<[c := to_uint8 position]> output)
      else encode_loop definition input cs' (<[c := 0x3f]> output)
  end.

Definition encode (depth : nat) (input : jsstring) (codepage : string) : M (list Z) :=
  let output := replicate (length input) 0 in
  let! definition := getEncoding depth codepage in
  encode_loop definition input (seq 0 (length input)) output.

Fixpoint scan_candidates (depth : nat) (candidates : list string)
    (codePoint : option Z) (before : option string * Z) : M (option string * Z) :=
  match candidates with
  | [] => ret before
  | candidate :: rest =>
      let! definition := getEncoding depth candidate in
      let! position := find_position definition codePoint in
      if decide (position ≠ -1) then ret (Some candidate, position)
      else scan_candidates depth rest codePoint before
  end.

Definition stick (depth : nat) (cf : CurrentFragment) (codePoint : option Z)
    : M (option string * Z) :=
  match cur_codepage cf with
  | Some current =>
      if truthy (Some current) then
        let! definition := getEncoding depth current in
        let! position := find_position definition codePoint in
        if decide (position ≠ -1) then ret (Some current, position)
        else ret (None, 0)
      else ret (None, 0)
  | None => ret (None, 0)
  end.

Definition choose (depth : nat) (input : jsstring) (candidates : list string)
    (cf : CurrentFragment) (c : nat) : M (option string * Z) :=
  let codePoint := codePointAt input c in
  let! sticky := stick depth cf codePoint in
  let! scanned :=
    if truthy (fst sticky) then ret sticky
    else scan_candidates depth candidates codePoint sticky in
  ret (if truthy (fst scanned) then scanned
       else (if truthy (cur_codepage cf) then cur_codepage cf else head candidates, 0x3f)).

Definition autoEncode_step (depth : nat) (input : jsstring) (candidates : list string)
    (st : State) (c : nat) : M State :=
  let! chosen := choose depth input candidates (currentFragment st) c in
  ret (place st (fst chosen) (snd chosen)).

Fixpoint autoEncode_loop (depth : nat) (input : jsstring) (candidates : list string)
    (cs : list nat) (st : State) : M State :=
  match cs with
  | [] => ret st
  | c :: cs' =>
      let! st' := autoEncode_step depth input candidates st c in
      autoEncode_loop depth input candidates cs' st'
  end.

Definition autoEncode (depth : nat) (input : jsstring) (candidates : list string)
    : M (list Fragment) :=
  let! st := autoEncode_loop depth input candidates (seq 0 (length input)) initial in
  ret (flush (fragments st) (currentFragment st)).

(** *** Reading the store back as values *)

Definition abs_slot (h : heap) (s : slotref) : option Slot :=
  match s with
  | SHole => Some Hole
  | SNum n => Some (Num n)
  | SRow l =>
      match h !! l with
      | Some (CNumbers r) => Some (Row r)
      | _ => None
      end
  end.

Definition abs_slots (h : heap) (l : loc) : option (list Slot) :=
  match h !! l with
  | Some (CSlots a) => mapM (abs_slot h) a
  | _ => None
  end.

Definition abs_strings (h : heap) (l : loc) : option (list string) :=
  match h !! l with
  | Some (CStrings a) => Some a
  | _ => None
  end.

Definition abs_field {A} (f : loc → option A) (o : option loc) : option (option A) :=
  match o with
  | None => Some None
  | Some l => match f l with Some a => Some (Some a) | None => None end
  end.

Definition abs_object (h : heap) (o : object) : option Codepage :=
  match abs_field (abs_strings h) (o_languages o), abs_field (abs_slots h) (o_value o) with
  | Some ls, Some v => Some (mkCodepage (o_name o) ls (o_extends o) (o_offset o) v)
  | _, _ => None
  end.

Definition abs_encoding (h : heap) (l : loc) : option Encoding :=
  match h !! l with
  | Some (CEncoding o cps) =>
      match abs_object h o, h !! cps with
      | Some d, Some (CNumbers a) => Some (mkEncoding d a)
      | _, _ => None
      end
  | _ => None
  end.

(** The heap holds the registry [defs], [als]. *)
Definition models (h : heap) (defs : gmap string Codepage) (als : gmap string string) : Prop :=
  h !! aliases = Some (CAliases als)
  ∧ ∃ m, h !! definitions = Some (CDefinitions m)
         ∧ ∀ p, match m !! p with
                | Some l => ∃ o d, h !! l = Some (CDefinition o)
                                   ∧ abs_object h o = Some d ∧ defs !! p = Some d
                | None => defs !! p = None
                end.

(** What a caller observes of a returned reference, or of a thrown error. *)
Definition observe (r : result (loc * heap)) : result Encoding :=
  match r with
  | Ok (l, h) => match abs_encoding h l with Some e => Ok e | None => Err TypeError end
  | Err e => Err e
  end.

Definition value_of {A} (r : result (A * heap)) : result A :=
  match r with
  | Ok (a, _) => Ok a
  | Err e => Err e
  end.

End program.

Definition rows (a : list slotref) : list loc :=
  omap (fun s => match s with SRow l => Some l | _ => None end) a.

Definition object_locs (h : heap) (o : object) : list loc :=
  option_list (o_languages o)
  ++ match o_value o with
     | Some lv => lv :: match h !! lv with Some (CSlots a) => rows a | _ => [] end
     | None => []
     end.

(** Every cell reachable from a returned encoding object. *)
Definition footprint (h : heap) (l : loc) : list loc :=
  l :: match h !! l with
       | Some (CEncoding o cps) => cps :: object_locs h o
       | _ => []
       end.

(** What holds of a reference [getEncoding] returned, started in [h]: the
    old cells are untouched, the object reads back as [e], and every cell
    reachable from it is new. *)
Definition returned (h : heap) (l : loc) (h' : heap) (e : Encoding) : Prop :=
  h ⊆ h'
  ∧ abs_encoding h' l = Some e
  ∧ ∀ x, x ∈ footprint h' l → h !! x = None.

(** What holds of a value a call returned, started in [h]: it is the
    value-level result, and the old cells are untouched. *)
Definition same {A} (h : heap) (a : A) (h' : heap) (b : A) : Prop :=
  a = b ∧ h ⊆ h'.

(** The heap side agrees with a value-level result: it throws the same
    error, or returns with [Q] relating the two results. *)
Definition agrees {A B} (m : M A) (h : heap) (p : result B)
    (Q : A → heap → B → Prop) : Prop :=
  match p with
  | Ok b => ∃ a h', m h = Ok (a, h') ∧ Q a h' b
  | Err e => m h = Err e
  end.

Definition post {A} (m : M A) (h : heap) (Q : A → heap → Prop) : Prop :=
  ∃ a h', m h = Ok (a, h') ∧ Q a h'.

End Store.

(** The sample registry laid out in a heap: cell 1 is [definitions],
    cell 2 is [aliases]. *)
Definition sample_heap : Store.heap :=
  list_to_map
    [ (1%positive, Store.CDefinitions
                     (list_to_map [ ("ascii"%string, 3%positive);
                                    ("latin"%string, 4%positive);
                                    ("greek"%string, 5%positive) ]));
      (2%positive, Store.CAliases sample_aliases);
      (3%positive, Store.CDefinition
                     (Store.mkObject "ASCII" None None None (Some 6%positive)));
      (4%positive, Store.CDefinition
                     (Store.mkObject "Latin sample" (Some 7%positive) (Some "ascii"%string)
                        (Some 128) (Some 8%positive)));
      (5%positive, Store.CDefinition
                     (Store.mkObject "Greek sample" (Some 9%positive) (Some "latin"%string)
                        None (Some 10%positive)));
      (6%positive, Store.CSlots
                     (map (fun i => Store.SNum (Z.of_nat i)) (seq 0 128)
                      ++ replicate 127 Store.SHole));
      (7%positive, Store.CStrings ["fr"%string]);
      (8%positive, Store.CSlots
                     (map Store.SNum [0xC7; 0xFC; 0xE9; 0xE2] ++ replicate 124 Store.SHole));
      (9%positive, Store.CStrings ["el"%string]);
      (10%positive, Store.CSlots
                      (replicate 8 Store.SHole ++ [Store.SRow 11%positive]
                       ++ replicate 7 Store.SHole));
      (11%positive, Store.CNumbers
                      (<[1%nat := Some 0x3B1]> (<[2%nat := Some 0x3B2]> row_blank))) ].

Definition sample_returned : Store.loc * Store.heap :=
  Eval vm_compute in
    match Store.getEncoding 1 2 3 "el" sample_heap with
    | Ok r => r
    | Err _ => (1%positive, ∅)
    end.

(** ** The other lookups of [CodepageEncoder] *)

(** An element of what [getTestStrings] returns. *)
Record TestString : Type := mkTestString {
  language : string;
  string' : string;
}.

Section lookups.
Variable definitions : gmap string Codepage.
Variable aliases : gmap string string.
(** The sample strings of [src/strings.ts], which is not among the sources:
    language and text, in the order [Object.entries] lists them. *)
Variable strings : list (string * string).


(** [supports(codepage)] *)
Definition supports (codepage : string) : bool :=
  let codepage :=
    match aliases !! codepage with Some a => a | None => codepage end in
  match definitions !! codepage with
  | None => false
  | Some _ => true
  end.

(** [getTestStrings(codepage)] *)
Definition getTestStrings (codepage : string) : list TestString :=
  let codepage :=
    match aliases !! codepage with Some a => a | None => codepage end in
  match definitions !! codepage with
  | Some d =>
      match languages d with
      | Some ls =>
          map (fun entry => mkTestString (fst entry) (snd entry))
              (filter (fun entry => fst entry ∈ ls) strings)
      | None => []
      end
  | None => []
  end.

End lookups.

(** The seam of two strings does not make a surrogate pair. *)
Definition seam_ok (s1 s2 : jsstring) : Prop :=
  ∀ u w, last s1 = Some u → head s2 = Some w → is_lead u && is_trail w = false.

(** ** What the fragments of [autoEncode] look like *)

Definition is_byte (b : Z) : Prop := 0 ≤ b < 256.

Definition fragment_ok (candidates : list string) (f : Fragment) : Prop :=
  codepage f ∈ candidates ∧ codepage f ≠ ""%string
  ∧ bytes f ≠ [] ∧ Forall is_byte (bytes f).

Fixpoint adjacent_differ (fs : list Fragment) : Prop :=
  match fs with
  | f :: rest =>
      match rest with
      | g :: _ => codepage f ≠ codepage g ∧ adjacent_differ rest
      | [] => True
      end
  | [] => True
  end.

(** The fragments cut the input into consecutive slices of code unit
    indices, from [start] on: each fragment holds, for every index of its
    slice, the byte [encode] stores for the code point read there under the
    table [tbl] gives for the fragment's codepage; and a fragment that
    follows one on codepage [prev] starts at an index whose code point the
    table of [prev] does not hold. *)
Fixpoint slices (tbl : string → Codepoints) (input : jsstring) (start : nat)
    (prev : option string) (fs : list Fragment) : Prop :=
  match fs with
  | [] => True
  | f :: rest =>
      (∀ q, prev = Some q → findIndex (tbl q) (codePointAt input start) = -1)
      ∧ bytes f = map (fun c => encoded_byte (tbl (codepage f)) (codePointAt input c))
                      (seq start (length (bytes f)))
      ∧ slices tbl input (start + length (bytes f)) (Some (codepage f)) rest
  end.

(** What a run has after [n] characters, for candidates that resolve and a
    first candidate with a non-empty name. *)
Record run_ok (definitions : gmap string Codepage) (aliases : gmap string string)
    (depth : nat) (input : jsstring) (candidates : list string)
    (n : nat) (st : State) : Prop := mkRunOk {
  run_fragments : Forall (fragment_ok candidates) (fragments st);
  run_adjacent : adjacent_differ (fragments st);
  run_slices : slices (table_of definitions aliases depth) input 0 None (fragments st);
  run_start : n = 0%nat → st = initial;
  run_current : (0 < n)%nat →
    ∃ p e,
      cur_codepage (currentFragment st) = Some p
      ∧ p ≠ ""%string ∧ p ∈ candidates
      ∧ getEncoding definitions aliases depth p = Ok e
      ∧ chars (currentFragment st) ≠ []
      ∧ map to_uint8 (chars (currentFragment st))
        = map (fun c => encoded_byte (codepoints e) (codePointAt input c))
              (seq (total_bytes (fragments st)) (length (chars (currentFragment st))))
      ∧ (total_bytes (fragments st) + length (chars (currentFragment st)))%nat = n
      ∧ ∀ g, last (fragments st) = Some g →
             codepage g ≠ p
             ∧ findIndex (table_of definitions aliases depth (codepage g))
                 (codePointAt input (total_bytes (fragments st))) = -1;
}.

(** ** The table generator

    The build step that writes [generated/definitions.ts]: it reads one
    mapping file per codepage and the registry [data/encodings.js], and
    picks a storage shape for each table. The file system and the line
    parser are outside the model: a mapping file is the list of its parsed
    rows. *)

Module Generator.

(** What an array element can read as. *)
Inductive jsval : Type :=
  | JUndefined
  | JNull
  | JNumber (n : Z).

Global Instance jsval_eq_dec : EqDecision jsval.
Proof. solve_decision. Defined.

Abbreviation table := (list jsval).

(** [a[i]]: holes and indices past the end read [undefined]. *)
Definition get_at (a : table) (i : nat) : jsval := default JUndefined (a !! i).

(** [a[i] = v] *)
Definition set_at (a : table) (i : nat) (v : jsval) : table :=
  if (i <? length a)%nat then <[i := v]> a
  else a ++ replicate (i - length a)%nat JUndefined ++ [v].

(** [typeof v !== "undefined"], [typeof v === "number"], and the loose
    [a != b]: [undefined] and [null] are loosely equal to each other and to
    nothing else. *)
Definition defined (v : jsval) : bool :=
  match v with JUndefined => false | _ => true end.

Definition is_number (v : jsval) : bool :=
  match v with JNumber _ => true | _ => false end.

Definition loose_ne (a b : jsval) : bool :=
  match a, b with
  | JNumber x, JNumber y => negb (x =? y)
  | JNumber _, _ => true
  | _, JNumber _ => true
  | _, _ => false
  end.

(** An entry of the registry [data/encodings.js], which is not among the
    sources: the fields the generator reads. *)
Record Registered : Type := mkRegistered {
  e_name : string;
  e_languages : option (list string);
  e_extends : option string;
  e_aliases : option (list string);
}.

(** The payload [getDefinition] settles on: the diff rows, or a table. *)
Inductive payload : Type :=
  | VDiffs (diffs : list (option table))
  | VDense (a : table).

(** What [getDefinition] returns: the registry entry, [offset], and
    [value], which is [undefined] when [getEncoding] returned nothing. *)
Record Entry : Type := mkEntry {
  d_encoding : Registered;
  d_offset : Z;
  d_value : option payload;
}.

(** The state of the loop of [getDefinition]. *)
Record Scan : Type := mkScan {
  minimum : nat;
  maximum : nat;
  diffs : list (option table);
}.

(** [result[i]] is defined and differs from [base[i]]. *)
Definition differs (result base : table) (i : nat) : bool :=
  defined (get_at result i) && loose_ne (get_at result i) (get_at base i).

(** [diffs[row][col] = v], on a fresh [new Array(17)] if the row is not
    there yet. *)
Definition set_diff (diffs : list (option table)) (row col : nat) (v : jsval)
    : list (option table) :=
  let r := match diffs !! row with
           | Some (Some r) => r
           | _ => replicate 17 JUndefined
           end in
  <[row := Some (set_at r col v)]> diffs.

Definition scan_step (result base : table) (s : Scan) (i : nat) : Scan :=
  let s :=
    if defined (get_at result i) && loose_ne (get_at result i) JNull
    then mkScan (minimum s) (Nat.max (maximum s) i) (diffs s)
    else s in
  if differs result base i then
    mkScan (Nat.min (minimum s) i) (maximum s)
           (set_diff (diffs s) (Nat.shiftr i 4) (i mod 16) (get_at result i))
  else s.

(** The loop of [getDefinition], for [i] below [n]. *)
Definition scan (n : nat) (result base : table) : Scan :=
  foldl (scan_step result base) (mkScan 256 0 (replicate 17 None)) (seq 0 n).

(** The length of [JSON.stringify] of an array: brackets, commas, decimal
    numbers, and [null] for what is not a number. *)
Definition json_val (v : jsval) : nat :=
  match v with
  | JNumber n => String.length (pretty n)
  | _ => 4%nat
  end.

Definition json_array (lens : list nat) : nat :=
  (2 + sum_list lens + pred (length lens))%nat.

Definition json_table (a : table) : nat := json_array (map json_val a).

Definition json_diffs (d : list (option table)) : nat :=
  json_array (map (fun r => match r with Some r => json_table r | None => 4%nat end) d).

(** The dense payload from byte [offset] on. *)
Definition dense_from (result : table) (offset : nat) : table :=
  foldl (fun value i =>
           if is_number (get_at result i) then set_at value (i - offset) (get_at result i)
           else value)
        (replicate (length result - offset) JUndefined)
        (seq offset (length result - offset)).

(** What [getDefinition] does after the loop, for a codepage that extends
    another. Its [offset] is local to the block; [value] is all that
    leaves it. *)
Definition dense_start (s : Scan) : nat :=
  let offset := 0%nat in
  if (128 <=? minimum s)%nat then 128%nat else offset.

Definition diffs_shorter (result : table) (s : Scan) : bool :=
  let diffString := json_diffs (diffs s) in
  let resultString := json_table (drop (dense_start s) result) in
  (diffString <? resultString)%nat.

Definition payload_from (result : table) (s : Scan) : payload :=
  let offset := dense_start s in
  if diffs_shorter result s then VDiffs (diffs s)
  else if (0 <? offset)%nat then VDense (dense_from result offset)
  else VDense result.

(** [new Map(rows)]: a later row for the same byte wins. *)
Definition map_of (rows : list (Z * Z)) : gmap Z Z :=
  foldl (fun m r => <[fst r := snd r]> m) ∅ rows.

Section generator.
Variable encodings : gmap string Registered.
(** The mapping files, each as its parsed rows: byte and code point, with
    0xFFFD where the second field is not a number. A file that is missing
    or empty has no entry. *)
Variable files : gmap string (list (Z * Z)).

Definition getCodepoints (codepage : string) : table :=
  let codepoints := replicate 256 JUndefined in
  match files !! codepage with
  | Some rows =>
      let data := map_of rows in
      foldl (fun codepoints i =>
               match data !! Z.of_nat i with
               | Some v => set_at codepoints i (JNumber v)
               | None => codepoints
               end) codepoints (seq 0 256)
  | None => codepoints
  end.

(** The loop of [getEncoding] over the parent's table. *)
Definition overlay (base codepoints : table) : table :=
  foldl (fun base i =>
           if decide (get_at codepoints i ≠ JNull) then set_at base i (get_at codepoints i)
           else base) base (seq 0 256).

Fixpoint getEncoding (depth : nat) (codepage : string) : result (option table) :=
  match depth with
  | O => Err RangeError
  | S depth' =>
      match encodings !! codepage with
      | None => Ok None
      | Some encoding =>
          if truthy (e_extends encoding) then
            let* base := getEncoding depth' (default ""%string (e_extends encoding)) in
            let codepoints := getCodepoints codepage in
            match base with
            | Some base => Ok (Some (overlay base codepoints))
            | None =>
                (* [base[i] = ...] on [undefined], at the first [i] that
                   passes the test *)
                if decide (Forall (fun i => get_at codepoints i = JNull) (seq 0 256))
                then Ok None
                else Err TypeError
            end
          else Ok (Some (getCodepoints codepage))
      end
  end.

(** [getDefinition(codepage)]. The [offset] it returns is the one declared
    before the [if]; the [let offset] inside the block is another variable,
    the one of [dense_start]. *)
Definition getDefinition (depth : nat) (codepage : string) : result (option Entry) :=
  match encodings !! codepage with
  | None => Ok None
  | Some encoding =>
      let* result := getEncoding depth codepage in
      let offset := 0 in
      if truthy (e_extends encoding) then
        let* base := getEncoding depth (default ""%string (e_extends encoding)) in
        match result with
        | None => Err TypeError
        | Some result =>
            (* [base[i]] is read only where [result[i]] is defined *)
            let* base :=
              match base with
              | Some base => Ok base
              | None =>
                  if existsb (fun i => defined (get_at result i)) (seq 0 256)
                  then Err TypeError
                  else Ok []
              end in
            let value := payload_from result (scan 256 result base) in
            Ok (Some (mkEntry encoding offset (Some value)))
        end
      else Ok (Some (mkEntry encoding 0 (VDense <$> result)))
  end.

End generator.

(** *** What the runtime loads

    [generateDefinitions] prints [JSON.stringify(value)] with every [null]
    removed, and the runtime reads the text back as an array literal: what
    was [null] is a hole, and a hole in last place leaves only a trailing
    comma, which adds no element. *)
Definition elide {A} (is_hole : A → bool) (l : list A) : list A :=
  match last l with
  | Some x => if is_hole x then removelast l else l
  | None => l
  end.

Definition as_number (v : jsval) : option Z :=
  match v with JNumber n => Some n | _ => None end.

Definition written_row (a : table) : list (option Z) :=
  elide (fun o => match o with None => true | Some _ => false end) (map as_number a).

Definition is_hole (s : Slot) : bool :=
  match s with Hole => true | _ => false end.

Definition written (v : payload) : list Slot :=
  match v with
  | VDense a =>
      elide is_hole (map (fun x => match as_number x with Some n => Num n | None => Hole end) a)
  | VDiffs d =>
      elide is_hole (map (fun r => match r with Some r => Row (written_row r) | None => Hole end) d)
  end.

(** The ascii payload [generateDefinitions] prints whatever the file says. *)
Definition ascii_payload : payload :=
  VDense (map (fun i => JNumber (Z.of_nat i)) (seq 0 128) ++ replicate 128 JUndefined).

(** The entry of [definitions.ts] printed for [codepage]; nothing is
    printed if [value] is [undefined], where [replaceAll] throws. *)
Definition emitted (codepage : string) (d : Entry) : option Codepage :=
  let value := if decide (codepage = "ascii"%string) then Some ascii_payload
               else d_value d in
  match value with
  | Some value =>
      Some (mkCodepage
              (e_name (d_encoding d))
              (e_languages (d_encoding d))
              (if truthy (e_extends (d_encoding d)) then e_extends (d_encoding d) else None)
              (if decide (d_offset d = 0) then None else Some (d_offset d))
              (Some (written value)))
  | None => None
  end.

(** [generateAliases()], up to the text: the pairs it collects, in the
    order it prints them. [entries] is the registry as [for ... in] walks
    it. *)
Definition generateAliases (entries : list (string * Registered)) : list (string * string) :=
  foldl (fun aliases entry =>
           match e_aliases (snd entry) with
           | Some names =>
               foldl (fun aliases alias => aliases ++ [(alias, fst entry)]) aliases names
           | None => aliases
           end) [] entries.

(** The object the printed pairs denote: a later pair for the same alias
    replaces the earlier one. *)
Definition loaded (pairs : list (string * string)) : gmap string string :=
  foldl (fun m pair => <[fst pair := snd pair]> m) ∅ pairs.

(** The element the diff rows hold for byte [i]. *)
Definition diff_entry (d : list (option table)) (i : nat) : jsval :=
  match d !! (i / 16)%nat with
  | Some (Some r) => get_at r (i mod 16)
  | _ => JUndefined
  end.

(** What the rows of a mapping file say about byte [i]. *)
Definition file_entry (files : gmap string (list (Z * Z))) (codepage : string) (i : nat)
    : option Z :=
  files !! codepage ≫= (fun rows => map_of rows !! Z.of_nat i).

End Generator.

(** The shape the loop of [getDefinition] keeps: seventeen rows, the last
    never written; each row that exists has seventeen elements, the last
    never written. *)
Definition diffs_shape (d : list (option Generator.table)) : Prop :=
  length d = 17%nat
  ∧ d !! 16%nat = Some None
  ∧ ∀ r row, d !! r = Some (Some row) →
             length row = 17%nat ∧ row !! 16%nat = Some Generator.JUndefined.

(** ** A sample for the generator

    ["ascii"] and ["greekish"] extend nothing; the other three extend
    ["ascii"] and leave [getDefinition] by its three ways: ["upper"] lists
    all 256 bytes and differs from ascii only above 127, ["few"] has two
    rows, ["shifted"] differs at every byte. *)
Definition ascii_registered : Generator.Registered :=
  Generator.mkRegistered "ASCII" None None (Some ["us-ascii"%string]).

Definition greekish_registered : Generator.Registered :=
  Generator.mkRegistered "Greekish" (Some ["el"%string]) None None.

Definition upper_registered : Generator.Registered :=
  Generator.mkRegistered "Upper" None (Some "ascii"%string) None.

Definition few_registered : Generator.Registered :=
  Generator.mkRegistered "Few" None (Some "ascii"%string) None.

Definition shifted_registered : Generator.Registered :=
  Generator.mkRegistered "Shifted" None (Some "ascii"%string) None.

Definition sample_encodings : gmap string Generator.Registered :=
  {[ "ascii"%string := ascii_registered;
     "greekish"%string := greekish_registered;
     "upper"%string := upper_registered;
     "few"%string := few_registered;
     "shifted"%string := shifted_registered ]}.

Definition ascii_rows : list (Z * Z) :=
  map (fun i => (Z.of_nat i, Z.of_nat i)) (seq 0 128).

Definition sample_files : gmap string (list (Z * Z)) :=
  {[ "ascii"%string := ascii_rows;
     "greekish"%string := [(0x41, 0x391); (0x42, 0x392); (0x41, 0x3B1)];
     "upper"%string := ascii_rows ++ map (fun k => (128 + Z.of_nat k, 0x100 + Z.of_nat k)) (seq 0 128);
     "few"%string := [(0x80, 0x20AC); (0x41, 0x391)];
     "shifted"%string := map (fun i => (Z.of_nat i, 0x400 + Z.of_nat i)) (seq 0 256) ]}.

(** ** More samples for the runtime *)

(** Sample strings, as [Object.entries] would list them. *)
Definition sample_strings : list (string * string) :=
  [ ("en", "The quick brown fox"); ("el", "Xespaste"); ("fr", "Voix ambigue") ]%string.

(** Two definitions that extend each other. *)
Definition looping_definitions : gmap string Codepage :=
  list_to_map
    [ ("ping"%string, mkCodepage "Ping" None (Some "pong"%string) None None);
      ("pong"%string, mkCodepage "Pong" None (Some "ping"%string) None None) ].

Definition latin_encoding : Encoding := mkEncoding latin_definition latin_table.

Definition ascii_encoding : Encoding := mkEncoding ascii_definition ascii_table.

(** The sample registry in the order it is walked. *)
Definition sample_entries : list (string * Generator.Registered) :=
  [ ("ascii"%string, ascii_registered);
    ("greekish"%string, greekish_registered);
    ("upper"%string, upper_registered) ].

(** ** Arrays: reading after writing *)

Lemma js_get_lookup (a : Codepoints) (k : nat) (n : Z) :
  js_get a k = Some n ↔ a !! k = Some (Some n).
Proof.
  unfold js_get. destruct (a !! k) as [[m|]|]; simpl; split; congruence.
Qed.

Lemma js_get_set (a : Codepoints) (i v : Z) (k : nat) :
  js_get (js_set a i v) k = if decide (i = Z.of_nat k) then Some v else js_get a k.
Proof.
  unfold js_set, js_get.
  destruct (Z.ltb_spec i 0) as [Hneg|Hpos].
  { case_decide; [lia | done]. }
  destruct (Nat.ltb_spec (Z.to_nat i) (length a)) as [Hin|Hout].
  - case_decide as Hk.
    + subst i. rewrite Nat2Z.id in *. by rewrite list_lookup_insert_eq.
    + rewrite list_lookup_insert_ne; [done | lia].
  - case_decide as Hk.
    + subst i. rewrite Nat2Z.id in *.
      rewrite lookup_app_r by lia.
      rewrite lookup_app_r by (rewrite length_replicate; lia).
      rewrite length_replicate. by rewrite Nat.sub_diag.
    + destruct (decide (k < length a)%nat) as [Hlt|Hge].
      * by rewrite lookup_app_l.
      * rewrite lookup_app_r by lia.
        rewrite (lookup_ge_None_2 a k) by lia. simpl.
        destruct (decide (k - length a < Z.to_nat i - length a)%nat) as [Hgap|Hpast].
        -- rewrite lookup_app_l by (rewrite length_replicate; lia).
           by rewrite lookup_replicate_2.
        -- rewrite lookup_app_r by (rewrite length_replicate; lia).
           rewrite length_replicate.
           rewrite lookup_ge_None_2; [done | simpl; lia].
Qed.

Lemma js_set_length (a : Codepoints) (i v : Z) :
  i < Z.of_nat (length a) → length (js_set a i v) = length a.
Proof.
  intros Hi. unfold js_set.
  destruct (Z.ltb_spec i 0); [done |].
  destruct (Nat.ltb_spec (Z.to_nat i) (length a)); [by rewrite length_insert | lia].
Qed.

(** ** The write loops, index by index *)

Lemma write_dense_upto (off : Z) (v : list Slot) (cps : Codepoints) (n k : nat) :
  js_get (foldl (fun cps i =>
                   match v !! i with
                   | Some (Num subvalue) => js_set cps (off + Z.of_nat i) subvalue
                   | _ => cps
                   end) cps (seq 0 n)) k
  = match (if decide (Z.of_nat k - off < Z.of_nat n) then dense_entry off v k else None) with
    | Some x => Some x
    | None => js_get cps k
    end.
Proof.
  induction n as [|n IH].
  - simpl. case_decide; [|done]. unfold dense_entry. case_decide; [lia | done].
  - rewrite seq_S, foldl_app. simpl.
    assert (Hstep : ∀ a : Codepoints,
      js_get (match v !! n with
              | Some (Num subvalue) => js_set a (off + Z.of_nat n) subvalue
              | _ => a
              end) k
      = match (if decide (Z.of_nat k - off = Z.of_nat n) then dense_entry off v k else None) with
        | Some x => Some x
        | None => js_get a k
        end).
    { intros a. unfold dense_entry.
      destruct (decide (Z.of_nat k - off = Z.of_nat n)) as [Heq|Hne].
      - rewrite decide_True by lia.
        replace (Z.to_nat (Z.of_nat k - off)) with n by lia.
        destruct (v !! n) as [[|x|r]|]; try done.
        rewrite js_get_set. by rewrite decide_True by lia.
      - destruct (v !! n) as [[|x|r]|]; try done.
        rewrite js_get_set. by rewrite decide_False by lia. }
    rewrite Hstep, IH.
    destruct (decide (Z.of_nat k - off = Z.of_nat n)) as [Heq|Hne].
    + rewrite (decide_True (P := Z.of_nat k - off < Z.of_nat (S n))) by lia.
      rewrite (decide_False (P := Z.of_nat k - off < Z.of_nat n)) by lia.
      done.
    + destruct (decide (Z.of_nat k - off < Z.of_nat n)).
      * by rewrite (decide_True (P := Z.of_nat k - off < Z.of_nat (S n))) by lia.
      * by rewrite (decide_False (P := Z.of_nat k - off < Z.of_nat (S n))) by lia.
Qed.

Lemma dense_entry_range (off : Z) (v : list Slot) (k : nat) (x : Z) :
  dense_entry off v k = Some x →
  0 ≤ Z.of_nat k - off < Z.of_nat (length v).
Proof.
  unfold dense_entry. case_decide; [|done].
  destruct (v !! Z.to_nat (Z.of_nat k - off)) as [s|] eqn:E; [|done].
  apply lookup_lt_Some in E. lia.
Qed.

Lemma write_dense_get (off : Z) (v : list Slot) (cps : Codepoints) (k : nat) :
  js_get (write_dense off v cps) k
  = match dense_entry off v k with Some x => Some x | None => js_get cps k end.
Proof.
  unfold write_dense. rewrite write_dense_upto.
  case_decide as Hk; [done |].
  destruct (dense_entry off v k) as [x|] eqn:E; [|done].
  apply dense_entry_range in E. lia.
Qed.

Lemma write_row_upto (i : nat) (sub : list (option Z)) (cps : Codepoints) (m k : nat) :
  js_get (foldl (fun cps j =>
                   match sub !! j with
                   | Some (Some subsubvalue) => js_set cps (Z.of_nat (i * 16 + j)) subsubvalue
                   | _ => cps
                   end) cps (seq 0 m)) k
  = match (if decide (i * 16 ≤ k < i * 16 + m)%nat then mjoin (sub !! (k - i * 16)%nat) else None) with
    | Some x => Some x
    | None => js_get cps k
    end.
Proof.
  induction m as [|m IH].
  - simpl. by rewrite decide_False by lia.
  - rewrite seq_S, foldl_app. simpl.
    destruct (decide (k = i * 16 + m)%nat) as [Heq|Hne].
    + rewrite (decide_True (P := (i * 16 ≤ k < i * 16 + S m)%nat)) by lia.
      replace (k - i * 16)%nat with m by lia.
      destruct (sub !! m) as [[x|]|]; simpl.
      * rewrite js_get_set. by rewrite decide_True by lia.
      * rewrite IH. by rewrite decide_False by lia.
      * rewrite IH. by rewrite decide_False by lia.
    + assert (Hskip : ∀ a : Codepoints,
        js_get (match sub !! m with
                | Some (Some subsubvalue) => js_set a (Z.of_nat (i * 16 + m)) subsubvalue
                | _ => a
                end) k = js_get a k).
      { intros a. destruct (sub !! m) as [[x|]|]; try done.
        rewrite js_get_set. by rewrite decide_False by lia. }
      rewrite Hskip, IH.
      destruct (decide (i * 16 ≤ k < i * 16 + m)%nat).
      * by rewrite (decide_True (P := (i * 16 ≤ k < i * 16 + S m)%nat)) by lia.
      * by rewrite (decide_False (P := (i * 16 ≤ k < i * 16 + S m)%nat)) by lia.
Qed.

Lemma write_row_get (i : nat) (sub : list (option Z)) (cps : Codepoints) (k : nat) :
  js_get (write_row i sub cps) k
  = match (if decide (k / 16 = i)%nat then mjoin (sub !! (k mod 16)%nat) else None) with
    | Some x => Some x
    | None => js_get cps k
    end.
Proof.
  unfold write_row. rewrite write_row_upto.
  pose proof (Nat.div_mod_eq k 16) as Hdm.
  pose proof (Nat.mod_upper_bound k 16 ltac:(lia)) as Hm.
  destruct (decide (k / 16 = i)%nat) as [Hi|Hi].
  - rewrite decide_True by lia.
    by replace (k - i * 16)%nat with (k mod 16)%nat by lia.
  - by rewrite decide_False by lia.
Qed.

Lemma write_sparse_upto (v : list Slot) (cps : Codepoints) (n k : nat) :
  js_get (foldl (fun cps i =>
                   match v !! i with
                   | Some (Row subvalue) => write_row i subvalue cps
                   | _ => cps
                   end) cps (seq 0 n)) k
  = match (if decide (k / 16 < n)%nat then
             match v !! (k / 16)%nat with
             | Some (Row r) => mjoin (r !! (k mod 16)%nat)
             | _ => None
             end
           else None) with
    | Some x => Some x
    | None => js_get cps k
    end.
Proof.
  induction n as [|n IH].
  - cbn [seq foldl]. by rewrite decide_False by lia.
  - rewrite seq_S, foldl_app. cbn [foldl Nat.add].
    destruct (decide (k / 16 = n)%nat) as [Heq|Hne].
    + rewrite (decide_True (P := (k / 16 < S n)%nat)) by lia.
      rewrite Heq.
      destruct (v !! n) as [[|x|r]|].
      * rewrite IH. by rewrite decide_False by lia.
      * rewrite IH. by rewrite decide_False by lia.
      * rewrite write_row_get. rewrite decide_True by done.
        destruct (mjoin (r !! (k mod 16)%nat)); [done |].
        rewrite IH. by rewrite decide_False by lia.
      * rewrite IH. by rewrite decide_False by lia.
    + assert (Hskip : ∀ a : Codepoints,
        js_get (match v !! n with
                | Some (Row subvalue) => write_row n subvalue a
                | _ => a
                end) k = js_get a k).
      { intros a. destruct (v !! n) as [[|x|r]|]; try done.
        rewrite write_row_get. by rewrite decide_False by done. }
      rewrite Hskip, IH.
      destruct (decide (k / 16 < n)%nat).
      * by rewrite (decide_True (P := (k / 16 < S n)%nat)) by lia.
      * by rewrite (decide_False (P := (k / 16 < S n)%nat)) by lia.
Qed.

Lemma write_sparse_get (v : list Slot) (cps : Codepoints) (k : nat) :
  js_get (write_sparse v cps) k
  = match sparse_entry v k with Some x => Some x | None => js_get cps k end.
Proof.
  unfold write_sparse, sparse_entry. rewrite write_sparse_upto.
  pose proof (Nat.div_mod_eq k 16) as Hdm.
  pose proof (Nat.mod_upper_bound k 16 ltac:(lia)) as Hm.
  destruct (decide (k < 256)%nat).
  - by rewrite decide_True by lia.
  - by rewrite decide_False by lia.
Qed.

(** Reading the table after [value] has been written over it. *)
Lemma write_value_by_shape (d : Codepage) (base : Codepoints) (k : nat) :
  js_get (write_value d base) k
  = match override_at d k with
    | Some cp => Some cp
    | None => js_get base k
    end.
Proof.
  unfold write_value, override_at.
  destruct (value d) as [v|]; [|done].
  case_decide.
  - apply write_sparse_get.
  - apply write_dense_get.
Qed.

(** ** [findIndex] *)

Lemma findIndex_from_none (a : Codepoints) (x : option Z) (k : Z) :
  0 ≤ k → findIndex_from a x k = -1 → x ∉ a.
Proof.
  revert k. induction a as [|e a IH]; intros k Hk H.
  - apply not_elem_of_nil.
  - simpl in H. case_decide as He; [lia |].
    apply not_elem_of_cons. split; [congruence |].
    apply (IH (k + 1)); [lia | done].
Qed.

Lemma findIndex_from_some (a : Codepoints) (x : option Z) (k p : Z) :
  findIndex_from a x k = p → p ≠ -1 ∨ x ∈ a →
  k ≤ p < k + Z.of_nat (length a)
  ∧ a !! Z.to_nat (p - k) = Some x
  ∧ ∀ j, (j < Z.to_nat (p - k))%nat → a !! j ≠ Some x.
Proof.
  revert k. induction a as [|e a IH]; intros k H Hp.
  - simpl in H. destruct Hp as [Hp|Hp]; [lia | by apply elem_of_nil in Hp].
  - simpl in H. case_decide as He.
    + subst p e. replace (k - k) with 0 by lia. simpl.
      repeat split; try done; lia.
    + destruct (IH (k + 1) H) as (Hr & Hl & Hleast).
      { destruct Hp as [Hp|Hp]; [by left | right].
        apply elem_of_cons in Hp as [Hp|Hp]; [congruence | done]. }
      simpl length. repeat split; try lia.
      * replace (Z.to_nat (p - k)) with (S (Z.to_nat (p - (k + 1)))) by lia. done.
      * intros [|j] Hj; simpl; [congruence |].
        apply Hleast. lia.
Qed.

Lemma findIndex_absent (a : Codepoints) (x : option Z) :
  findIndex a x = -1 ↔ x ∉ a.
Proof.
  split.
  - apply findIndex_from_none. lia.
  - intros Hx. destruct (decide (findIndex a x = -1)) as [|Hp]; [done |].
    destruct (findIndex_from_some a x 0 _ eq_refl (or_introl Hp)) as (_ & Hl & _).
    exfalso. apply Hx. by apply list_elem_of_lookup_2 in Hl.
Qed.

Lemma findIndex_first (a : Codepoints) (x : option Z) (p : Z) :
  findIndex a x = p → p ≠ -1 →
  0 ≤ p < Z.of_nat (length a)
  ∧ a !! Z.to_nat p = Some x
  ∧ ∀ j, (j < Z.to_nat p)%nat → a !! j ≠ Some x.
Proof.
  intros H Hp.
  destruct (findIndex_from_some a x 0 p H (or_introl Hp)) as (Hr & Hl & Hleast).
  replace (p - 0) with p in * by lia. repeat split; [lia | lia | done | done].
Qed.

(** ** Code points and code units *)

Lemma codePointAt_cons (first : Z) (rest : jsstring) (c : nat) :
  codePointAt (first :: rest) (S c) = codePointAt rest c.
Proof. reflexivity. Qed.

Lemma codePointAt_Some (s : jsstring) (c : nat) :
  (c < length s)%nat ↔ is_Some (codePointAt s c).
Proof.
  unfold codePointAt. split.
  - intros Hc. destruct (lookup_lt_is_Some_2 s c Hc) as [u ->].
    destruct (is_lead u); [|by eexists].
    destruct (s !! S c) as [w|]; [|by eexists].
    destruct (is_trail w); by eexists.
  - intros [cp H]. destruct (s !! c) as [u|] eqn:E; [|done].
    by apply lookup_lt_Some in E.
Qed.

Lemma codePoints_at_aux (n : nat) (s : jsstring) (cp : Z) :
  (length s ≤ n)%nat → cp ∈ codePoints s → ∃ c, codePointAt s c = Some cp.
Proof.
  revert s. induction n as [|n IH]; intros s Hn Hcp.
  - destruct s; [by apply elem_of_nil in Hcp | simpl in Hn; lia].
  - destruct s as [|first rest]; [by apply elem_of_nil in Hcp |].
    simpl in Hn. cbn [codePoints] in Hcp.
    destruct rest as [|second rest'].
    + apply list_elem_of_singleton in Hcp as ->. exists 0%nat.
      unfold codePointAt. simpl. by destruct (is_lead first).
    + destruct (is_lead first && is_trail second) eqn:Hpair.
      * apply andb_prop in Hpair as [Hl Ht].
        apply elem_of_cons in Hcp as [-> | Hcp].
        -- exists 0%nat. unfold codePointAt. simpl. by rewrite Hl, Ht.
        -- destruct (IH rest' ltac:(simpl in Hn; lia) Hcp) as [c Hc].
           exists (S (S c)). by rewrite !codePointAt_cons.
      * apply elem_of_cons in Hcp as [-> | Hcp].
        -- exists 0%nat. unfold codePointAt. simpl.
           destruct (is_lead first); [|done]. simpl in Hpair. by rewrite Hpair.
        -- destruct (IH (second :: rest') ltac:(lia) Hcp) as [c Hc].
           exists (S c). by rewrite codePointAt_cons.
Qed.

(** Every code point the string's iterator yields is the one [codePointAt]
    reads at some code unit index. *)
Lemma codePoints_at (s : jsstring) (cp : Z) :
  cp ∈ codePoints s → ∃ c, codePointAt s c = Some cp.
Proof. by apply (codePoints_at_aux (length s)). Qed.

Lemma no_surrogate_pair_codePoints (s : jsstring) :
  no_surrogate_pair s = true → codePoints s = s.
Proof.
  induction s as [|first rest IH]; [done |].
  cbn [no_surrogate_pair codePoints].
  destruct rest as [|second rest']; [done |].
  intros H. apply andb_prop in H as [Hp Hrest].
  apply negb_true_iff in Hp. rewrite Hp. f_equal. by apply IH.
Qed.

(** ** [encode] *)

Lemma encode_loop (cps : Codepoints) (input : jsstring) (output : list Z) (n : nat) :
  (n ≤ length output)%nat →
  let r := foldl (fun output c =>
                    let codepoint := codePointAt input c in
                    let position := findIndex cps codepoint in
                    if decide (position ≠ -1) then <[c := to_uint8 position]> output
                    else <[c := 0x3f]> output)
                 output (seq 0 n) in
  length r = length output
  ∧ ∀ c, r !! c = if decide (c < n)%nat then Some (encoded_byte cps (codePointAt input c))
                  else output !! c.
Proof.
  intros Hn. cbn zeta. induction n as [|n IH].
  - cbn [seq foldl]. split; [done |]. intros c. by rewrite decide_False by lia.
  - destruct (IH ltac:(lia)) as [Hlen Hget]. clear IH.
    rewrite seq_S, foldl_app. cbn [foldl Nat.add].
    set (r := foldl _ output (seq 0 n)) in *.
    assert (Hstep :
      (if decide (findIndex cps (codePointAt input n) ≠ -1)
       then <[n := to_uint8 (findIndex cps (codePointAt input n))]> r
       else <[n := 0x3f]> r)
      = <[n := encoded_byte cps (codePointAt input n)]> r).
    { unfold encoded_byte. by case_decide. }
    rewrite Hstep. split; [by rewrite length_insert |].
    intros c. destruct (decide (c = n)) as [->|Hc].
    + rewrite list_lookup_insert_eq by lia. by rewrite decide_True by lia.
    + rewrite list_lookup_insert_ne by done. rewrite Hget.
      destruct (decide (c < n)%nat).
      * by rewrite (decide_True (P := (c < S n)%nat)) by lia.
      * by rewrite (decide_False (P := (c < S n)%nat)) by lia.
Qed.

Section encode_facts.
Variable definitions : gmap string Codepage.
Variable aliases : gmap string string.

Lemma encode_ok (depth : nat) (input : jsstring) (codepage : string) (e : Encoding) :
  getEncoding definitions aliases depth codepage = Ok e →
  ∃ output,
    encode definitions aliases depth input codepage = Ok output
    ∧ length output = length input
    ∧ ∀ c, (c < length input)%nat →
           output !! c = Some (encoded_byte (codepoints e) (codePointAt input c)).
Proof.
  intros He. unfold encode. rewrite He. simpl.
  eexists. split; [reflexivity |].
  destruct (encode_loop (codepoints e) input (replicate (length input) 0) (length input))
    as [Hlen Hget]; [by rewrite length_replicate |].
  cbn zeta in *. split.
  - by rewrite Hlen, length_replicate.
  - intros c Hc. rewrite Hget. by rewrite decide_True by done.
Qed.

(** C1 (amended). Whenever the codepage resolves, [encode] returns one
    byte per UTF-16 code unit of the input: the output is as long as
    [input.length]. That is the number of code points exactly when no
    surrogate pair occurs in the input. *)
Theorem encode_length (depth : nat) (input : jsstring) (codepage : string) (e : Encoding) :
  getEncoding definitions aliases depth codepage = Ok e →
  ∃ output,
    encode definitions aliases depth input codepage = Ok output
    ∧ length output = length input
    ∧ (no_surrogate_pair input = true → length output = length (codePoints input)).
Proof.
  intros He. destruct (encode_ok depth input codepage e He) as (output & Hout & Hlen & _).
  exists output. split; [done |]. split; [done |].
  intros Hns. by rewrite no_surrogate_pair_codePoints.
Qed.

(** C3. For a codepage that resolves to a table of at most 256 entries,
    and for the code point [cp] read at any index [c] of the input (every
    code point of the input is read at some index), the byte [encode]
    stores at [c] is the lowest index [b] with [table[b] = cp]; when no
    index holds [cp] the byte is 0x3F. *)
Theorem encode_lowest_index (depth : nat) (input : jsstring) (codepage : string)
    (e : Encoding) (c : nat) (cp : Z) :
  getEncoding definitions aliases depth codepage = Ok e →
  (length (codepoints e) ≤ 256)%nat →
  codePointAt input c = Some cp →
  ∃ output,
    encode definitions aliases depth input codepage = Ok output
    ∧ ((∃ b : nat,
          output !! c = Some (Z.of_nat b)
          ∧ codepoints e !! b = Some (Some cp)
          ∧ ∀ b' : nat, (b' < b)%nat → codepoints e !! b' ≠ Some (Some cp))
       ∨ (output !! c = Some 0x3f
          ∧ ∀ b : nat, codepoints e !! b ≠ Some (Some cp))).
Proof.
  intros He Hlen Hcp.
  destruct (encode_ok depth input codepage e He) as (output & Hout & _ & Hget).
  exists output. split; [done |].
  rewrite Hget by (apply codePointAt_Some; by eexists).
  rewrite Hcp. unfold encoded_byte.
  case_decide as Hp.
  - left. destruct (findIndex_first _ _ _ eq_refl Hp) as (Hr & Hl & Hleast).
    exists (Z.to_nat (findIndex (codepoints e) (Some cp))).
    split; [|split; [done | done]].
    unfold to_uint8. rewrite Z.mod_small by lia. f_equal. lia.
  - right. split; [done |].
    assert (Habs : findIndex (codepoints e) (Some cp) = -1) by lia.
    apply findIndex_absent in Habs. intros b Hb. apply Habs.
    by apply list_elem_of_lookup_2 in Hb.
Qed.

End encode_facts.

(** ** Resolving a codepage *)

Lemma override_at_valid (d : Codepage) (k : nat) (n : Z) :
  codepage_ok d = true → override_at d k = Some n → valid_code_point n = true.
Proof.
  unfold codepage_ok, override_at. destruct (value d) as [v|]; [|done].
  intros Hok. apply andb_prop in Hok as [Hall _].
  rewrite forallb_forall in Hall.
  case_decide.
  - unfold sparse_entry. case_decide; [|done].
    destruct (v !! (k / 16)%nat) as [[|x|r]|] eqn:Er; try done.
    intros Hn. destruct (r !! (k mod 16)%nat) as [[m|]|] eqn:Em; simplify_eq/=.
    apply list_elem_of_lookup_2, list_elem_of_In, Hall in Er. simpl in Er.
    rewrite forallb_forall in Er.
    apply list_elem_of_lookup_2, list_elem_of_In, Er in Em. done.
  - unfold dense_entry. case_decide; [|done].
    destruct (v !! Z.to_nat (Z.of_nat k - default 0 (offset d))) as [[|x|r]|] eqn:Ex; try done.
    intros [= <-].
    apply list_elem_of_lookup_2, list_elem_of_In, Hall in Ex. done.
Qed.

Lemma foldl_length_preserved {A} (f : Codepoints → A → Codepoints) (l : list A) (n : nat) :
  (∀ cps x, x ∈ l → length cps = n → length (f cps x) = n) →
  ∀ cps, length cps = n → length (foldl f cps l) = n.
Proof.
  induction l as [|x l IH]; intros Hf cps Hlen; [done |].
  simpl. apply IH.
  - intros cps' y Hy. apply Hf. by right.
  - apply Hf; [by left | done].
Qed.

Lemma write_value_length (d : Codepage) (base : Codepoints) :
  codepage_ok d = true → length base = 256%nat → length (write_value d base) = 256%nat.
Proof.
  unfold codepage_ok, write_value. destruct (value d) as [v|]; [|done].
  intros Hok Hlen. apply andb_prop in Hok as [_ Hfit].
  case_decide as H16.
  - unfold write_sparse. apply foldl_length_preserved; [|done].
    intros cps i Hi Hcps. apply elem_of_seq in Hi.
    destruct (v !! i) as [[|x|r]|]; try done.
    unfold write_row. apply foldl_length_preserved; [|done].
    intros cps' j Hj Hcps'. apply elem_of_seq in Hj.
    destruct (r !! j) as [[x|]|]; try done.
    rewrite js_set_length; [done | lia].
  - apply orb_prop in Hfit as [Hfit|Hfit]; [by apply Nat.eqb_eq in Hfit |].
    apply andb_prop in Hfit as [Hlo Hhi].
    apply Z.leb_le in Hlo, Hhi.
    unfold write_dense. apply foldl_length_preserved; [|done].
    intros cps i Hi Hcps. apply elem_of_seq in Hi.
    destruct (v !! i) as [[|x|r]|]; try done.
    rewrite js_set_length; [done | lia].
Qed.

Lemma write_value_entries (d : Codepage) (base : Codepoints) :
  codepage_ok d = true → length base = 256%nat → Forall entry_ok base →
  Forall entry_ok (write_value d base).
Proof.
  intros Hok Hlen Hbase. apply Forall_lookup. intros k x Hx.
  pose proof (write_value_by_shape d base k) as Hget.
  unfold js_get in Hget. rewrite Hx in Hget. simpl in Hget.
  destruct (override_at d k) as [n|] eqn:Ho.
  - exists n. split; [done |]. left. by apply (override_at_valid d k).
  - apply lookup_lt_Some in Hx. rewrite write_value_length in Hx by done.
    destruct (lookup_lt_is_Some_2 base k ltac:(lia)) as [y Hy].
    rewrite Hy in Hget. simpl in Hget. subst x.
    by apply (Forall_lookup_1 _ _ _ _ Hbase Hy).
Qed.

Lemma initial_table_root (getEncoding : string → result Encoding) (d : Codepage) :
  extends d = None →
  initial_table getEncoding d true = Ok (replicate 256 (Some sentinel)).
Proof. intros H. unfold initial_table. rewrite H. by rewrite length_replicate. Qed.

Lemma initial_table_child (getEncoding : string → result Encoding) (d : Codepage) (q : string) :
  extends d = Some q →
  initial_table getEncoding d true = let* e := getEncoding q in Ok (codepoints e).
Proof. intros H. unfold initial_table. by rewrite H. Qed.

Section resolve_facts.
Variable definitions : gmap string Codepage.
Variable aliases : gmap string string.

Lemma getEncoding_unfold (depth : nat) (p : string) :
  getEncoding definitions aliases (S depth) p
  = match definitions !! canonical definitions aliases p with
    | None => Err TypeError
    | Some d =>
        let* cps := getCodepoints definitions aliases depth
                      (canonical definitions aliases p) true in
        Ok (mkEncoding d cps)
    end.
Proof. reflexivity. Qed.

Lemma getCodepoints_unfold (depth : nat) (p : string) (ev : bool) :
  getCodepoints definitions aliases depth p ev
  = match definitions !! p with
    | None => Err TypeError
    | Some d =>
        let* cps := initial_table (getEncoding definitions aliases depth) d ev in
        Ok (write_value d cps)
    end.
Proof. reflexivity. Qed.

Lemma getEncoding_mono (depth depth' : nat) (p : string) (e : Encoding) :
  (depth ≤ depth')%nat →
  getEncoding definitions aliases depth p = Ok e →
  getEncoding definitions aliases depth' p = Ok e.
Proof.
  revert depth' p e. induction depth as [|depth IH]; intros depth' p e Hle He; [done |].
  destruct depth' as [|depth']; [lia |].
  rewrite getEncoding_unfold in *.
  destruct (definitions !! canonical definitions aliases p) as [d|]; [|done].
  rewrite getCodepoints_unfold in *.
  destruct (definitions !! canonical definitions aliases p) as [d'|]; [|done].
  unfold initial_table in *.
  destruct (extends d') as [q|]; [|done].
  destruct (getEncoding definitions aliases depth q) as [eq|] eqn:Eq; [|done].
  by rewrite (IH depth' q eq ltac:(lia) Eq).
Qed.

Lemma getEncoding_definition (depth : nat) (p : string) (e : Encoding) :
  getEncoding definitions aliases depth p = Ok e →
  definitions !! canonical definitions aliases p = Some (definition e).
Proof.
  destruct depth as [|depth]; [done |]. rewrite getEncoding_unfold.
  destruct (definitions !! canonical definitions aliases p) as [d|]; [|done].
  destruct (getCodepoints _ _ _ _ _); [|done]. by intros [= <-].
Qed.

Lemma canonical_defined (p : string) :
  is_Some (definitions !! "ascii"%string) →
  is_Some (definitions !! canonical definitions aliases p).
Proof.
  intros Hascii. unfold canonical.
  destruct (definitions !! default p (aliases !! p)) eqn:E; [by rewrite E | done].
Qed.

(** With the ascii definition present and the [extends] chains ranked,
    [getEncoding] returns for every name once the stack allows the rank. *)
Lemma getEncoding_total (rank : string → nat) (depth : nat) (p : string) :
  ranked definitions aliases rank →
  is_Some (definitions !! "ascii"%string) →
  (rank (canonical definitions aliases p) < depth)%nat →
  ∃ e, getEncoding definitions aliases depth p = Ok e.
Proof.
  intros Hrank Hascii. revert p. induction depth as [|depth IH]; intros p Hp; [lia |].
  rewrite getEncoding_unfold, getCodepoints_unfold.
  destruct (canonical_defined p Hascii) as [d Hd]. rewrite Hd.
  unfold initial_table. destruct (extends d) as [q|] eqn:Hq.
  - destruct (IH q) as [eq Heq].
    { pose proof (Hrank _ _ _ Hd Hq). lia. }
    rewrite Heq. by eexists.
  - by eexists.
Qed.

Lemma getEncoding_table_ok (depth : nat) (p : string) (e : Encoding) :
  registry_ok definitions →
  getEncoding definitions aliases depth p = Ok e →
  length (codepoints e) = 256%nat ∧ Forall entry_ok (codepoints e).
Proof.
  intros Hreg. revert p e. induction depth as [|depth IH]; intros p e He; [done |].
  rewrite getEncoding_unfold, getCodepoints_unfold in He.
  destruct (definitions !! canonical definitions aliases p) as [d|] eqn:Hd; [|done].
  pose proof (Hreg _ _ Hd) as Hok. simpl in Hok.
  destruct (initial_table (getEncoding definitions aliases depth) d true)
    as [base|] eqn:Hbase; [|done].
  simpl in He. injection He as <-. simpl.
  assert (Hb : length base = 256%nat ∧ Forall entry_ok base).
  { destruct (extends d) as [q|] eqn:Hq.
    - rewrite (initial_table_child _ _ q Hq) in Hbase.
      destruct (getEncoding definitions aliases depth q) as [eq|] eqn:Eq; [|done].
      simpl in Hbase. injection Hbase as <-. by apply (IH q).
    - rewrite (initial_table_root _ _ Hq) in Hbase.
      assert (base = replicate 256 (Some sentinel)) as -> by congruence.
      rewrite length_replicate. split; [done |].
      apply Forall_replicate. exists sentinel. split; [done | by right]. }
  destruct Hb as [Hlen Hall]. split.
  - by apply write_value_length.
  - by apply write_value_entries.
Qed.

(** C8. In a registry of the generated shape whose [extends] chains end
    and which holds the ascii definition, every name resolves, and its
    resolved table has exactly 256 entries, each a code point or the
    sentinel 0xFFFD; a definition without [extends] is its [value]
    written over 256 sentinels. *)
Theorem resolved_table_shape (rank : string → nat) (p : string) :
  registry_ok definitions →
  ranked definitions aliases rank →
  is_Some (definitions !! "ascii"%string) →
  ∃ e,
    getEncoding definitions aliases (S (rank (canonical definitions aliases p))) p = Ok e
    ∧ length (codepoints e) = 256%nat
    ∧ Forall entry_ok (codepoints e)
    ∧ (extends (definition e) = None →
       codepoints e = write_value (definition e) (replicate 256 (Some sentinel))).
Proof.
  intros Hreg Hrank Hascii.
  destruct (getEncoding_total rank (S (rank (canonical definitions aliases p))) p
              Hrank Hascii ltac:(lia)) as [e He].
  exists e. split; [done |].
  destruct (getEncoding_table_ok _ _ _ Hreg He) as [Hlen Hall].
  split; [done |]. split; [done |].
  intros Hext. rewrite getEncoding_unfold, getCodepoints_unfold in He.
  destruct (definitions !! canonical definitions aliases p) as [d|]; [|done].
  destruct (initial_table _ d true) as [base|] eqn:Hbase; [|done].
  simpl in He. assert (e = mkEncoding d (write_value d base)) as -> by congruence.
  simpl in Hext. rewrite (initial_table_root _ _ Hext) in Hbase.
  cbn [codepoints definition]. f_equal. congruence.
Qed.

(** C5. What [getCodepoints] returns is the table it started from with
    [value] written over it by shape alone. A payload of exactly sixteen
    top-level slots is read as rows: the numeric sub-slot [j] of a present
    row [i] is what index [i*16+j] reads. Any other payload is read as a
    run: the numeric entry [k] is what index [offset+k] reads. Every
    other index reads what the starting table had. *)
Theorem getCodepoints_by_shape (depth : nat) (p : string) (ev : bool)
    (d : Codepage) (t : Codepoints) :
  definitions !! p = Some d →
  getCodepoints definitions aliases depth p ev = Ok t →
  ∃ base,
    initial_table (getEncoding definitions aliases depth) d ev = Ok base
    ∧ ∀ k,
        js_get t k
        = match value d with
          | None => js_get base k
          | Some v =>
              match (if decide (length v = 16%nat) then sparse_entry v k
                     else dense_entry (default 0 (offset d)) v k) with
              | Some cp => Some cp
              | None => js_get base k
              end
          end.
Proof.
  intros Hd Ht. rewrite getCodepoints_unfold, Hd in Ht.
  destruct (initial_table _ d ev) as [base|]; [|done].
  simpl in Ht. injection Ht as <-.
  exists base. split; [done |]. intros k.
  rewrite write_value_by_shape. unfold override_at.
  by destruct (value d).
Qed.

(** C4. When the definition of a codepage has [extends = q], its resolved
    table reads, at every byte index where its own [value] supplies
    nothing, what the resolved table of [q] reads there; where [value]
    supplies a code point, the table reads that code point. *)
Theorem inherits_from_parent (depth : nat) (p q : string) (d : Codepage) (e : Encoding) :
  definitions !! canonical definitions aliases p = Some d →
  extends d = Some q →
  getEncoding definitions aliases depth p = Ok e →
  ∃ parent,
    getEncoding definitions aliases depth q = Ok parent
    ∧ definition e = d
    ∧ ∀ i, (i < 256)%nat →
           js_get (codepoints e) i
           = match override_at d i with
             | Some cp => Some cp
             | None => js_get (codepoints parent) i
             end.
Proof.
  intros Hd Hq He. destruct depth as [|depth]; [done |].
  pose proof He as He'.
  rewrite getEncoding_unfold, getCodepoints_unfold, Hd in He.
  unfold initial_table in He. rewrite Hq in He.
  destruct (getEncoding definitions aliases depth q) as [parent|] eqn:Hp; [|done].
  simpl in He. injection He as <-.
  exists parent. split; [by apply (getEncoding_mono depth (S depth)); [lia |] |].
  split; [done |]. intros i _. simpl. apply write_value_by_shape.
Qed.

(** C9. A name whose alias target is not in the registry resolves as
    ["ascii"]: [getEncoding] returns the ascii definition with the ascii
    table and raises nothing, and [encode] encodes against that table. *)
Theorem unknown_falls_back_to_ascii (depth : nat) (p : string) (a : Codepage)
    (cps : Codepoints) :
  definitions !! default p (aliases !! p) = None →
  definitions !! "ascii"%string = Some a →
  getCodepoints definitions aliases depth "ascii" true = Ok cps →
  canonical definitions aliases p = "ascii"%string
  ∧ getEncoding definitions aliases (S depth) p = Ok (mkEncoding a cps)
  ∧ ∀ input, ∃ output,
      encode definitions aliases (S depth) input p = Ok output
      ∧ length output = length input
      ∧ ∀ c, (c < length input)%nat →
             output !! c = Some (encoded_byte cps (codePointAt input c)).
Proof.
  intros Hunknown Hascii Hcps.
  assert (Hcanon : canonical definitions aliases p = "ascii"%string).
  { unfold canonical. by rewrite Hunknown. }
  assert (Hget : getEncoding definitions aliases (S depth) p = Ok (mkEncoding a cps)).
  { by rewrite getEncoding_unfold, Hcanon, Hascii, Hcps. }
  split; [done |]. split; [done |].
  intros input. by apply (encode_ok definitions aliases (S depth) input p _ Hget).
Qed.

End resolve_facts.

(** ** [autoEncode] *)

Lemma total_bytes_app (fs gs : list Fragment) :
  total_bytes (fs ++ gs) = (total_bytes fs + total_bytes gs)%nat.
Proof. apply sum_list_with_app. Qed.

Lemma truthy_Some (s : string) : truthy (Some s) = true ↔ s ≠ ""%string.
Proof.
  simpl. rewrite negb_true_iff. split.
  - intros H ->. by rewrite String.eqb_refl in H.
  - intros H. by apply String.eqb_neq.
Qed.

Lemma truthy_is_Some (o : option string) : truthy o = true → ∃ s, o = Some s ∧ s ≠ ""%string.
Proof. destruct o as [s|]; [|done]. intros H. exists s. by rewrite <- truthy_Some. Qed.

Lemma flush_total (fs : list Fragment) (cf : CurrentFragment) :
  truthy (cur_codepage cf) = true ∨ chars cf = [] →
  total_bytes (flush fs cf) = (total_bytes fs + length (chars cf))%nat.
Proof.
  unfold flush. intros H. destruct (cur_codepage cf) as [cp|].
  - destruct (truthy (Some cp)) eqn:Ht.
    + rewrite total_bytes_app. unfold total_bytes at 2. simpl.
      rewrite length_map. lia.
    + destruct H as [H|H]; [done |]. rewrite H. simpl. lia.
  - destruct H as [H|H]; [done |]. rewrite H. simpl. lia.
Qed.

Lemma place_codepage (st : State) (a : option string) (ch : Z) :
  cur_codepage (currentFragment (place st a ch)) = a.
Proof.
  unfold place. case_decide as H; [done |].
  simpl. destruct (decide (cur_codepage (currentFragment st) = a)); [done | contradiction].
Qed.

Lemma place_same (st : State) (ch : Z) :
  place st (cur_codepage (currentFragment st)) ch
  = mkState (fragments st)
      (mkCurrent (cur_codepage (currentFragment st)) (chars (currentFragment st) ++ [ch])).
Proof. unfold place. by rewrite decide_False by (intros H; by apply H). Qed.

Lemma place_total (st : State) (a : option string) (ch : Z) :
  truthy (cur_codepage (currentFragment st)) = true ∨ chars (currentFragment st) = [] →
  (total_bytes (fragments (place st a ch)) + length (chars (currentFragment (place st a ch)))
   = S (total_bytes (fragments st) + length (chars (currentFragment st))))%nat.
Proof.
  intros H. unfold place. case_decide.
  - simpl. rewrite flush_total by done. lia.
  - simpl. rewrite length_app. simpl. lia.
Qed.

Section autoEncode_facts.
Variable definitions : gmap string Codepage.
Variable aliases : gmap string string.
Variable depth : nat.
Variable input : jsstring.

Lemma autoEncode_loop_app (candidates : list string) (cs cs' : list nat) (st : State) :
  autoEncode_loop definitions aliases depth input candidates (cs ++ cs') st
  = let* st' := autoEncode_loop definitions aliases depth input candidates cs st in
    autoEncode_loop definitions aliases depth input candidates cs' st'.
Proof.
  revert st. induction cs as [|c cs IH]; intros st; [done |].
  simpl. destruct (autoEncode_step _ _ _ _ _ _ _) as [st'|]; [|done].
  simpl. apply IH.
Qed.

Lemma stick_cases (cf : CurrentFragment) (codePoint : option Z) (r : option string * Z) :
  stick definitions aliases depth cf codePoint = Ok r →
  r = (None, 0)
  ∨ ∃ current e,
      cur_codepage cf = Some current ∧ current ≠ ""%string
      ∧ getEncoding definitions aliases depth current = Ok e
      ∧ findIndex (codepoints e) codePoint ≠ -1
      ∧ r = (Some current, findIndex (codepoints e) codePoint).
Proof.
  unfold stick. destruct (cur_codepage cf) as [current|]; [|intros [= <-]; by left].
  destruct (truthy (Some current)) eqn:Ht; [|intros [= <-]; by left].
  destruct (getEncoding _ _ _ current) as [e|] eqn:He; [|done]. simpl.
  case_decide; [|intros [= <-]; by left].
  intros [= <-]. right. exists current, e. by rewrite <- truthy_Some.
Qed.

Lemma scan_candidates_origin (candidates : list string) (codePoint : option Z)
    (before r : option string * Z) :
  scan_candidates definitions aliases depth candidates codePoint before = Ok r →
  r = before ∨ ∃ c, fst r = Some c ∧ c ∈ candidates.
Proof.
  induction candidates as [|cand rest IH]; simpl.
  - intros [= <-]. by left.
  - destruct (getEncoding _ _ _ cand) as [e|]; [|done]. simpl.
    case_decide.
    + intros [= <-]. right. exists cand. split; [done | by left].
    + intros Hr. destruct (IH Hr) as [->|(c & Hc & Hin)]; [by left |].
      right. exists c. split; [done | by right].
Qed.

Lemma scan_candidates_returns (candidates : list string) (codePoint : option Z)
    (before : option string * Z) :
  Forall (fun p => returns (getEncoding definitions aliases depth p)) candidates →
  returns (scan_candidates definitions aliases depth candidates codePoint before).
Proof.
  induction 1 as [|cand rest [e He] _ IH]; simpl.
  - by eexists.
  - rewrite He. simpl. case_decide; [by eexists | done].
Qed.

(** What [choose] can come to: the current codepage kept with the byte
    its table gives; a candidate with a truthy name; or the fallback. *)
Lemma choose_cases (candidates : list string) (cf : CurrentFragment) (c : nat)
    (a : option string) (ch : Z) :
  choose definitions aliases depth input candidates cf c = Ok (a, ch) →
  (∃ current e,
      cur_codepage cf = Some current ∧ current ≠ ""%string
      ∧ getEncoding definitions aliases depth current = Ok e
      ∧ findIndex (codepoints e) (codePointAt input c) ≠ -1
      ∧ a = Some current ∧ ch = findIndex (codepoints e) (codePointAt input c))
  ∨ (∃ cand, a = Some cand ∧ cand ≠ ""%string ∧ cand ∈ candidates)
  ∨ (a = (if truthy (cur_codepage cf) then cur_codepage cf else head candidates)
     ∧ ch = 0x3f).
Proof.
  unfold choose.
  destruct (stick _ _ _ cf _) as [sticky|] eqn:Hs; [|done]. simpl.
  apply stick_cases in Hs as [->|(current & e & Hcur & Hne & He & Hp & ->)].
  - simpl.
    destruct (scan_candidates _ _ _ _ _ _) as [r|] eqn:Hscan; [|done]. simpl.
    destruct (truthy (fst r)) eqn:Hr.
    + intros [= ->]. right. left.
      apply scan_candidates_origin in Hscan as [Hb|(x & Hx & Hin)].
      { injection Hb as -> ->. done. }
      simpl in *. exists x. rewrite Hx in Hr. by rewrite truthy_Some in Hr.
    + intros [= <- <-]. by right; right.
  - cbn [fst]. rewrite (proj2 (truthy_Some current) Hne). cbn [rbind fst].
    rewrite (proj2 (truthy_Some current) Hne).
    intros [= <- <-]. left. by exists current, e.
Qed.

Lemma choose_returns (candidates : list string) (cf : CurrentFragment) (c : nat) :
  (∀ current, cur_codepage cf = Some current →
              returns (getEncoding definitions aliases depth current)) →
  Forall (fun p => returns (getEncoding definitions aliases depth p)) candidates →
  returns (choose definitions aliases depth input candidates cf c).
Proof.
  intros Hcur Hcands. unfold choose.
  assert (Hs : returns (stick definitions aliases depth cf (codePointAt input c))).
  { unfold stick. destruct (cur_codepage cf) as [current|]; [|by eexists].
    destruct (truthy (Some current)); [|by eexists].
    destruct (Hcur current eq_refl) as [e ->]. simpl. case_decide; by eexists. }
  destruct Hs as [sticky ->]. simpl.
  destruct (truthy (fst sticky)); simpl; [by eexists |].
  destruct (scan_candidates_returns candidates (codePointAt input c) sticky Hcands)
    as [r ->].
  simpl. by eexists.
Qed.

(** *** No candidates *)

Lemma step_no_candidates (st : State) (c : nat) :
  cur_codepage (currentFragment st) = None →
  autoEncode_step definitions aliases depth input [] st c
  = Ok (mkState (fragments st) (mkCurrent None (chars (currentFragment st) ++ [0x3f]))).
Proof.
  intros Hcur. unfold autoEncode_step, choose, stick. rewrite Hcur. simpl.
  rewrite <- Hcur at 1. rewrite place_same. by rewrite Hcur.
Qed.

Lemma loop_no_candidates (cs : list nat) (st : State) :
  cur_codepage (currentFragment st) = None →
  ∃ chs, autoEncode_loop definitions aliases depth input [] cs st
         = Ok (mkState (fragments st) (mkCurrent None chs)).
Proof.
  revert st. induction cs as [|c cs IH]; intros st Hcur.
  - exists (chars (currentFragment st)). simpl.
    destruct st as [fs [cp chs]]. simpl in *. by subst.
  - simpl. rewrite step_no_candidates by done. simpl.
    destruct (IH (mkState (fragments st)
                    (mkCurrent None (chars (currentFragment st) ++ [0x3f]))) eq_refl)
      as [chs Hchs].
    by exists chs.
Qed.

(** C2 (amended). With an empty candidate list [autoEncode] raises
    nothing: for every input it returns the empty list of fragments. *)
Theorem autoEncode_no_candidates :
  autoEncode definitions aliases depth input [] = Ok [].
Proof.
  unfold autoEncode.
  destruct (loop_no_candidates (seq 0 (length input)) initial eq_refl) as [chs ->].
  reflexivity.
Qed.

(** *** Stickiness *)

Lemma step_empty_name (candidates : list string) (st st' : State) (c : nat) :
  empty_name_from_head candidates st →
  autoEncode_step definitions aliases depth input candidates st c = Ok st' →
  empty_name_from_head candidates st'.
Proof.
  unfold empty_name_from_head, autoEncode_step. intros Hinv Hstep.
  destruct (choose _ _ _ _ _ _ _) as [[a ch]|] eqn:Hch; [|done].
  simpl in Hstep. injection Hstep as <-. rewrite place_codepage. intros ->.
  apply choose_cases in Hch
    as [(current & e & _ & Hne & _ & _ & Ha & _)|[(cand & Ha & Hne & _)|[Ha _]]].
  - congruence.
  - congruence.
  - destruct (truthy (cur_codepage (currentFragment st))) eqn:Ht; [|done].
    rewrite <- Ha in Ht. done.
Qed.

Lemma loop_empty_name (candidates : list string) (cs : list nat) (st st' : State) :
  empty_name_from_head candidates st →
  autoEncode_loop definitions aliases depth input candidates cs st = Ok st' →
  empty_name_from_head candidates st'.
Proof.
  revert st. induction cs as [|c cs IH]; intros st Hinv; simpl.
  - by intros [= <-].
  - destruct (autoEncode_step _ _ _ _ _ _ _) as [st1|] eqn:Hstep; [|done]. simpl.
    apply IH. by apply (step_empty_name candidates st st1 c).
Qed.

Lemma step_sticky (candidates : list string) (st : State) (c : nat)
    (current : string) (e : Encoding) :
  empty_name_from_head candidates st →
  cur_codepage (currentFragment st) = Some current →
  getEncoding definitions aliases depth current = Ok e →
  findIndex (codepoints e) (codePointAt input c) ≠ -1 →
  autoEncode_step definitions aliases depth input candidates st c
  = Ok (mkState (fragments st)
          (mkCurrent (Some current)
             (chars (currentFragment st)
              ++ [if decide (current = ""%string) then 0x3f
                  else findIndex (codepoints e) (codePointAt input c)]))).
Proof.
  intros Hinv Hcur He Hp. unfold autoEncode_step, choose, stick. rewrite Hcur.
  case_decide as Hname.
  - subst current. pose proof (Hinv Hcur) as Hhead.
    destruct candidates as [|cand rest]; [done |]. injection Hhead as ->.
    cbn [truthy String.eqb negb rbind fst scan_candidates]. rewrite He.
    cbn [rbind]. rewrite decide_True by done.
    cbn [truthy String.eqb negb rbind fst snd head].
    rewrite <- Hcur at 1. rewrite place_same. by rewrite Hcur.
  - rewrite (proj2 (truthy_Some current) Hname). rewrite He. cbn [rbind].
    rewrite decide_True by done. cbn [rbind fst].
    rewrite (proj2 (truthy_Some current) Hname). cbn [rbind fst snd].
    rewrite (proj2 (truthy_Some current) Hname). cbn [fst snd].
    rewrite <- Hcur at 1. rewrite place_same. by rewrite Hcur.
Qed.

(** C6. In a run of [autoEncode], when the fragment being filled has a
    codepage after [c] characters and the table of that codepage holds the
    code point read at index [c], the next turn keeps the codepage: no
    fragment is closed, none is opened, and the character goes into the
    current fragment, as the position its table gives whenever the
    codepage name is non-empty. Earlier candidates are not consulted. *)
Theorem autoEncode_sticky (candidates : list string) (c : nat) (st : State)
    (current : string) (e : Encoding) :
  autoEncode_loop definitions aliases depth input candidates (seq 0 c) initial = Ok st →
  cur_codepage (currentFragment st) = Some current →
  getEncoding definitions aliases depth current = Ok e →
  findIndex (codepoints e) (codePointAt input c) ≠ -1 →
  ∃ byte,
    autoEncode_loop definitions aliases depth input candidates (seq 0 (S c)) initial
    = Ok (mkState (fragments st)
            (mkCurrent (Some current) (chars (currentFragment st) ++ [byte])))
    ∧ (current ≠ ""%string → byte = findIndex (codepoints e) (codePointAt input c)).
Proof.
  intros Hrun Hcur He Hp.
  assert (Hinv : empty_name_from_head candidates st).
  { apply (loop_empty_name candidates (seq 0 c) initial st); [done | done]. }
  eexists. split.
  - rewrite seq_S, autoEncode_loop_app, Hrun. cbn [rbind autoEncode_loop Nat.add].
    rewrite (step_sticky candidates st c current e Hinv Hcur He Hp). reflexivity.
  - intros Hne. by rewrite decide_False by done.
Qed.

(** *** Every character lands in a fragment *)

Lemma step_kept (candidates : list string) (st : State) (c : nat) :
  truthy (head candidates) = true →
  Forall (fun p => returns (getEncoding definitions aliases depth p)) candidates →
  kept candidates st →
  ∃ st',
    autoEncode_step definitions aliases depth input candidates st c = Ok st'
    ∧ truthy (cur_codepage (currentFragment st')) = true
    ∧ kept candidates st'
    ∧ placed st' = S (placed st).
Proof.
  intros Hhead Hcands [Hwait Hin]. unfold autoEncode_step.
  destruct (choose_returns candidates (currentFragment st) c) as [[a ch] Hch].
  { intros current Hcur. rewrite Forall_forall in Hcands.
    apply Hcands, Hin, Hcur. }
  { done. }
  rewrite Hch. cbn [rbind fst snd]. eexists. split; [reflexivity |].
  assert (Ha : truthy a = true ∧ ∀ s, a = Some s → s ∈ candidates).
  { apply choose_cases in Hch
      as [(current & e & Hcur & Hne & _ & _ & -> & _)|[(cand & -> & Hne & Hc)|[-> _]]].
    - split; [by apply truthy_Some |]. intros s [= <-]. by apply Hin.
    - split; [by apply truthy_Some |]. by intros s [= <-].
    - destruct (truthy (cur_codepage (currentFragment st))) eqn:Ht.
      + split; [done | apply Hin].
      + split; [done |]. intros s Hs. by apply head_Some_elem_of. }
  destruct Ha as [Hta Hina].
  rewrite place_codepage. split; [done |]. split.
  - split; [left; by rewrite place_codepage | by rewrite place_codepage].
  - unfold placed. by apply place_total.
Qed.

Lemma loop_kept (candidates : list string) (cs : list nat) (st : State) :
  truthy (head candidates) = true →
  Forall (fun p => returns (getEncoding definitions aliases depth p)) candidates →
  kept candidates st →
  ∃ st',
    autoEncode_loop definitions aliases depth input candidates cs st = Ok st'
    ∧ kept candidates st'
    ∧ placed st' = (placed st + length cs)%nat.
Proof.
  intros Hhead Hcands. revert st. induction cs as [|c cs IH]; intros st Hkept.
  - exists st. simpl. split; [done |]. split; [done | lia].
  - destruct (step_kept candidates st c Hhead Hcands Hkept) as (st1 & Hstep & _ & Hk1 & Hp1).
    destruct (IH st1 Hk1) as (st' & Hloop & Hk' & Hp').
    exists st'. simpl. rewrite Hstep. simpl. rewrite Hloop.
    split; [done |]. split; [done | lia].
Qed.

(** C7 (amended). When the first candidate has a non-empty name and every
    candidate resolves, [autoEncode] returns fragments whose byte lengths
    add up to the number of UTF-16 code units of the input
    ([input.length]), which is the number of code points when the input
    holds no surrogate pair. *)
Theorem autoEncode_total_length (candidates : list string) :
  truthy (head candidates) = true →
  Forall (fun p => returns (getEncoding definitions aliases depth p)) candidates →
  ∃ frags,
    autoEncode definitions aliases depth input candidates = Ok frags
    ∧ total_bytes frags = length input
    ∧ (no_surrogate_pair input = true → total_bytes frags = length (codePoints input)).
Proof.
  intros Hhead Hcands. unfold autoEncode.
  destruct (loop_kept candidates (seq 0 (length input)) initial Hhead Hcands)
    as (st & Hloop & [Hwait _] & Hplaced).
  { split; [by right | done]. }
  rewrite Hloop. cbn [rbind]. eexists. split; [reflexivity |].
  assert (Hlen : total_bytes (flush (fragments st) (currentFragment st)) = length input).
  { rewrite flush_total by done. unfold placed in Hplaced. simpl in Hplaced.
    rewrite length_seq in Hplaced. done. }
  split; [done |].
  intros Hns. by rewrite no_surrogate_pair_codePoints.
Qed.

End autoEncode_facts.

(** ** The sample registry *)

Lemma ranked_from_check (definitions : gmap string Codepage) (aliases : gmap string string)
    (rank : string → nat) :
  map_Forall (fun p d => ranked_check definitions aliases rank p d = true) definitions →
  ranked definitions aliases rank.
Proof.
  intros Hall p d q Hd Hq. specialize (Hall p d Hd). simpl in Hall.
  unfold ranked_check in Hall. rewrite Hq in Hall. by apply Nat.ltb_lt.
Qed.

(** ** The theorems at work on the sample registry *)

Lemma encode_length_witness :
  ∃ output,
    encode sample_definitions sample_aliases 3 [0x41; 0x3B1; 0xE9] "el" = Ok output
    ∧ length output = 3%nat
    ∧ (no_surrogate_pair [0x41; 0x3B1; 0xE9] = true
       → length output = length (codePoints [0x41; 0x3B1; 0xE9])).
Proof.
  apply (encode_length sample_definitions sample_aliases 3 [0x41; 0x3B1; 0xE9] "el"
           greek_encoding).
  vm_compute. reflexivity.
Defined.

(** C1, as stated, fails: U+1F600 is one code point and [encode] returns
    two bytes for it. *)
Lemma encode_length_counterexample :
  ∃ output,
    encode sample_definitions sample_aliases 1 astral "ascii" = Ok output
    ∧ length (codePoints astral) = 1%nat
    ∧ length output = 2%nat
    ∧ length output ≠ length (codePoints astral).
Proof. exists [0x3f; 0x3f]. repeat split; vm_compute; congruence. Qed.

(** C2, as stated, fails: with no candidates [autoEncode] returns. *)
Lemma autoEncode_no_candidates_counterexample :
  autoEncode sample_definitions sample_aliases 1 [0x41] [] = Ok []
  ∧ ¬ ∃ e, autoEncode sample_definitions sample_aliases 1 [0x41] [] = Err e.
Proof. split; [vm_compute; reflexivity |]. intros [e He]. vm_compute in He. discriminate. Qed.

Lemma encode_lowest_index_witness :
  ∃ output,
    encode sample_definitions sample_aliases 3 [0x41; 0x3B1; 0xE9] "el" = Ok output
    ∧ ((∃ b : nat,
          output !! 1%nat = Some (Z.of_nat b)
          ∧ greek_table !! b = Some (Some 0x3B1)
          ∧ ∀ b' : nat, (b' < b)%nat → greek_table !! b' ≠ Some (Some 0x3B1))
       ∨ (output !! 1%nat = Some 0x3f
          ∧ ∀ b : nat, greek_table !! b ≠ Some (Some 0x3B1))).
Proof.
  apply (encode_lowest_index sample_definitions sample_aliases 3 [0x41; 0x3B1; 0xE9] "el"
           greek_encoding 1 0x3B1).
  - vm_compute. reflexivity.
  - vm_compute. lia.
  - vm_compute. reflexivity.
Defined.

Lemma inherits_from_parent_witness :
  ∃ parent,
    getEncoding sample_definitions sample_aliases 3 "latin" = Ok parent
    ∧ definition greek_encoding = greek_definition
    ∧ ∀ i, (i < 256)%nat →
           js_get (codepoints greek_encoding) i
           = match override_at greek_definition i with
             | Some cp => Some cp
             | None => js_get (codepoints parent) i
             end.
Proof.
  apply (inherits_from_parent sample_definitions sample_aliases 3 "el" "latin").
  - vm_compute. reflexivity.
  - reflexivity.
  - vm_compute. reflexivity.
Defined.

Lemma getCodepoints_by_shape_witness :
  ∃ base,
    initial_table (getEncoding sample_definitions sample_aliases 2) latin_definition true
    = Ok base
    ∧ ∀ k,
        js_get latin_table k
        = match value latin_definition with
          | None => js_get base k
          | Some v =>
              match (if decide (length v = 16%nat) then sparse_entry v k
                     else dense_entry (default 0 (offset latin_definition)) v k) with
              | Some cp => Some cp
              | None => js_get base k
              end
          end.
Proof.
  apply (getCodepoints_by_shape sample_definitions sample_aliases 2 "latin" true).
  - vm_compute. reflexivity.
  - vm_compute. reflexivity.
Defined.

Lemma autoEncode_sticky_witness :
  ∃ byte,
    autoEncode_loop sample_definitions sample_aliases 3 [0x3B1; 0x41] ["latin"; "greek"]%string
      (seq 0 2) initial
    = Ok (mkState [] (mkCurrent (Some "greek"%string) ([129] ++ [byte])))
    ∧ ("greek"%string ≠ ""%string → byte = findIndex greek_table (Some 0x41)).
Proof.
  apply (autoEncode_sticky sample_definitions sample_aliases 3 [0x3B1; 0x41]
           ["latin"; "greek"]%string 1
           (mkState [] (mkCurrent (Some "greek"%string) [129])) "greek" greek_encoding).
  - vm_compute. reflexivity.
  - reflexivity.
  - vm_compute. reflexivity.
  - vm_compute. discriminate.
Defined.

Lemma autoEncode_total_length_witness :
  ∃ frags,
    autoEncode sample_definitions sample_aliases 3 [0x41; 0x3B1; 0xE9] ["latin"; "greek"]%string
    = Ok frags
    ∧ total_bytes frags = 3%nat
    ∧ (no_surrogate_pair [0x41; 0x3B1; 0xE9] = true
       → total_bytes frags = length (codePoints [0x41; 0x3B1; 0xE9])).
Proof.
  apply (autoEncode_total_length sample_definitions sample_aliases 3 [0x41; 0x3B1; 0xE9]
           ["latin"; "greek"]%string).
  - reflexivity.
  - repeat constructor; eexists; vm_compute; reflexivity.
Defined.

(** C7, as stated, fails: U+1F600 is one code point and the fragments hold
    two bytes for it. *)
Lemma autoEncode_total_length_counterexample :
  ∃ frags,
    autoEncode sample_definitions sample_aliases 1 astral ["ascii"]%string = Ok frags
    ∧ length (codePoints astral) = 1%nat
    ∧ total_bytes frags = 2%nat
    ∧ total_bytes frags ≠ length (codePoints astral).
Proof. exists [mkFragment "ascii" [0x3f; 0x3f]]. repeat split; vm_compute; congruence. Qed.

(** A candidate named by the empty string is dropped with its bytes. *)
Lemma autoEncode_empty_name_dropped :
  autoEncode sample_definitions sample_aliases 1 [0x41; 0x42] [""]%string = Ok [].
Proof. vm_compute. reflexivity. Qed.

Lemma resolved_table_shape_witness :
  ∃ e,
    getEncoding sample_definitions sample_aliases 3 "el" = Ok e
    ∧ length (codepoints e) = 256%nat
    ∧ Forall entry_ok (codepoints e)
    ∧ (extends (definition e) = None →
       codepoints e = write_value (definition e) (replicate 256 (Some sentinel))).
Proof.
  apply (resolved_table_shape sample_definitions sample_aliases sample_rank "el").
  - apply (bool_decide_unpack _). vm_compute. exact I.
  - apply ranked_from_check. apply (bool_decide_unpack _). vm_compute. exact I.
  - eexists. vm_compute. reflexivity.
Defined.

Lemma unknown_falls_back_to_ascii_witness :
  canonical sample_definitions sample_aliases "cp437" = "ascii"%string
  ∧ getEncoding sample_definitions sample_aliases 1 "cp437"
    = Ok (mkEncoding ascii_definition ascii_table)
  ∧ ∀ input, ∃ output,
      encode sample_definitions sample_aliases 1 input "cp437" = Ok output
      ∧ length output = length input
      ∧ ∀ c, (c < length input)%nat →
             output !! c = Some (encoded_byte ascii_table (codePointAt input c)).
Proof.
  apply (unknown_falls_back_to_ascii sample_definitions sample_aliases 0 "cp437").
  - vm_compute. reflexivity.
  - vm_compute. reflexivity.
  - vm_compute. reflexivity.
Defined.

(** ** The store *)

Lemma store_bind_ok {A B} (m : Store.M A) (k : A → Store.M B) (h h' : Store.heap) (a : A) :
  m h = Ok (a, h') → Store.bind m k h = k a h'.
Proof. intros H. unfold Store.bind. by rewrite H. Qed.

Lemma store_bind_err {A B} (m : Store.M A) (k : A → Store.M B) (h : Store.heap) (e : exn) :
  m h = Err e → Store.bind m k h = Err e.
Proof. intros H. unfold Store.bind. by rewrite H. Qed.

Lemma agrees_same_run {A B} (m m' : Store.M A) (h h' : Store.heap) (p : result B)
    (Q : A → Store.heap → B → Prop) :
  m h = m' h' → Store.agrees m' h' p Q → Store.agrees m h p Q.
Proof. intros Heq. unfold Store.agrees. by rewrite Heq. Qed.

Lemma agrees_bind {A A' B B'} (m : Store.M A) (k : A → Store.M A') (h : Store.heap)
    (p : result B) (kp : B → result B')
    (Q : A → Store.heap → B → Prop) (R : A' → Store.heap → B' → Prop) :
  Store.agrees m h p Q →
  (∀ a h' b, Q a h' b → Store.agrees (k a) h' (kp b) R) →
  Store.agrees (Store.bind m k) h (rbind p kp) R.
Proof.
  intros Hm Hk. destruct p as [b|e]; cbn [rbind Store.agrees] in *.
  - destruct Hm as (a & h' & Hrun & HQ).
    apply (agrees_same_run _ (k a) h h'); [by apply store_bind_ok |].
    by apply (Hk a h' b).
  - by apply store_bind_err.
Qed.

Lemma agrees_post {A A' B'} (m : Store.M A) (k : A → Store.M A') (h : Store.heap)
    (p : result B') (Q : A → Store.heap → Prop) (R : A' → Store.heap → B' → Prop) :
  Store.post m h Q →
  (∀ a h', Q a h' → Store.agrees (k a) h' p R) →
  Store.agrees (Store.bind m k) h p R.
Proof.
  intros (a & h' & Hrun & HQ) Hk.
  apply (agrees_same_run _ (k a) h h'); [by apply store_bind_ok |].
  by apply Hk.
Qed.

Lemma agrees_ret {A B} (a : A) (b : B) (h : Store.heap) (Q : A → Store.heap → B → Prop) :
  Q a h b → Store.agrees (Store.ret a) h (Ok b) Q.
Proof. intros HQ. by exists a, h. Qed.

Lemma agrees_weaken {A B} (m : Store.M A) (h : Store.heap) (p : result B)
    (Q Q' : A → Store.heap → B → Prop) :
  Store.agrees m h p Q → (∀ a h' b, Q a h' b → Q' a h' b) → Store.agrees m h p Q'.
Proof.
  intros Hm HQ. destruct p as [b|e]; simpl in *; [|done].
  destruct Hm as (a & h' & Hrun & Ha). exists a, h'. split; [done | by apply HQ].
Qed.

Lemma post_bind {A B} (m : Store.M A) (k : A → Store.M B) (h : Store.heap)
    (Q : A → Store.heap → Prop) (R : B → Store.heap → Prop) :
  Store.post m h Q →
  (∀ a h', Q a h' → Store.post (k a) h' R) →
  Store.post (Store.bind m k) h R.
Proof.
  intros (a & h' & Hrun & HQ) Hk. unfold Store.post.
  rewrite (store_bind_ok _ _ _ _ _ Hrun). by apply Hk.
Qed.

Lemma post_ret {A} (a : A) (h : Store.heap) (Q : A → Store.heap → Prop) :
  Q a h → Store.post (Store.ret a) h Q.
Proof. intros HQ. by exists a, h. Qed.

Lemma post_weaken {A} (m : Store.M A) (h : Store.heap) (Q Q' : A → Store.heap → Prop) :
  Store.post m h Q → (∀ a h', Q a h' → Q' a h') → Store.post m h Q'.
Proof. intros (a & h' & Hrun & Ha) HQ. exists a, h'. split; [done | by apply HQ]. Qed.

Lemma post_alloc (c : Store.cell) (h : Store.heap) :
  Store.post (Store.alloc c) h (fun l h' => h !! l = None ∧ h' = <[l := c]> h).
Proof.
  exists (fresh (dom h)), (<[fresh (dom h) := c]> h). split; [done |].
  split; [|done]. apply not_elem_of_dom, is_fresh.
Qed.

Lemma store_fresh_subseteq (h : Store.heap) (l : Store.loc) (c : Store.cell) :
  h !! l = None → h ⊆ <[l := c]> h.
Proof. intros H. by apply insert_subseteq. Qed.

Lemma store_lookup_weaken_None (h h' : Store.heap) (l : Store.loc) :
  h ⊆ h' → h' !! l = None → h !! l = None.
Proof.
  intros Hsub Hl. destruct (h !! l) as [c|] eqn:E; [|done].
  apply (lookup_weaken _ _ _ _ E) in Hsub. congruence.
Qed.

Lemma read_definition_ok (h : Store.heap) (l : Store.loc) (o : Store.object) :
  h !! l = Some (Store.CDefinition o) → Store.read_definition l h = Ok (o, h).
Proof. intros H. unfold Store.read_definition, Store.bind, Store.read. by rewrite H. Qed.

Lemma read_encoding_ok (h : Store.heap) (l cps : Store.loc) (o : Store.object) :
  h !! l = Some (Store.CEncoding o cps) → Store.read_encoding l h = Ok ((o, cps), h).
Proof. intros H. unfold Store.read_encoding, Store.bind, Store.read. by rewrite H. Qed.

Lemma read_strings_ok (h : Store.heap) (l : Store.loc) (a : list string) :
  h !! l = Some (Store.CStrings a) → Store.read_strings l h = Ok (a, h).
Proof. intros H. unfold Store.read_strings, Store.bind, Store.read. by rewrite H. Qed.

Lemma read_slots_ok (h : Store.heap) (l : Store.loc) (a : list Store.slotref) :
  h !! l = Some (Store.CSlots a) → Store.read_slots l h = Ok (a, h).
Proof. intros H. unfold Store.read_slots, Store.bind, Store.read. by rewrite H. Qed.

Lemma read_numbers_ok (h : Store.heap) (l : Store.loc) (a : list (option Z)) :
  h !! l = Some (Store.CNumbers a) → Store.read_numbers l h = Ok (a, h).
Proof. intros H. unfold Store.read_numbers, Store.bind, Store.read. by rewrite H. Qed.

Lemma read_definitions_ok (h : Store.heap) (l : Store.loc) (m : gmap string Store.loc) :
  h !! l = Some (Store.CDefinitions m) → Store.read_definitions l h = Ok (m, h).
Proof. intros H. unfold Store.read_definitions, Store.bind, Store.read. by rewrite H. Qed.

Lemma read_aliases_ok (h : Store.heap) (l : Store.loc) (m : gmap string string) :
  h !! l = Some (Store.CAliases m) → Store.read_aliases l h = Ok (m, h).
Proof. intros H. unfold Store.read_aliases, Store.bind, Store.read. by rewrite H. Qed.

(** *** Reading back is stable under growth of the heap *)

Lemma abs_slot_mono (h h' : Store.heap) (s : Store.slotref) (x : Slot) :
  h ⊆ h' → Store.abs_slot h s = Some x → Store.abs_slot h' s = Some x.
Proof.
  intros Hsub. destruct s as [|n|l]; simpl; try done.
  destruct (h !! l) as [c|] eqn:E; [|done].
  by rewrite (lookup_weaken _ _ _ _ E Hsub).
Qed.

Lemma abs_slots_list_mono (h h' : Store.heap) (a : list Store.slotref) (xs : list Slot) :
  h ⊆ h' → mapM (Store.abs_slot h) a = Some xs → mapM (Store.abs_slot h') a = Some xs.
Proof.
  intros Hsub. rewrite !mapM_Some. intros H.
  eapply Forall2_impl; [exact H |]. intros s x. by apply abs_slot_mono.
Qed.

Lemma abs_slots_mono (h h' : Store.heap) (l : Store.loc) (xs : list Slot) :
  h ⊆ h' → Store.abs_slots h l = Some xs → Store.abs_slots h' l = Some xs.
Proof.
  intros Hsub. unfold Store.abs_slots.
  destruct (h !! l) as [c|] eqn:E; [|done].
  rewrite (lookup_weaken _ _ _ _ E Hsub). destruct c; try done.
  by apply abs_slots_list_mono.
Qed.

Lemma abs_strings_mono (h h' : Store.heap) (l : Store.loc) (a : list string) :
  h ⊆ h' → Store.abs_strings h l = Some a → Store.abs_strings h' l = Some a.
Proof.
  intros Hsub. unfold Store.abs_strings.
  destruct (h !! l) as [c|] eqn:E; [|done].
  by rewrite (lookup_weaken _ _ _ _ E Hsub).
Qed.

Lemma abs_object_mono (h h' : Store.heap) (o : Store.object) (d : Codepage) :
  h ⊆ h' → Store.abs_object h o = Some d → Store.abs_object h' o = Some d.
Proof.
  intros Hsub. unfold Store.abs_object, Store.abs_field.
  destruct (Store.o_languages o) as [ll|].
  - destruct (Store.abs_strings h ll) as [a|] eqn:Ea; [|done].
    rewrite (abs_strings_mono h h' ll a Hsub Ea).
    destruct (Store.o_value o) as [lv|]; [|done].
    destruct (Store.abs_slots h lv) as [xs|] eqn:Ev; [|done].
    by rewrite (abs_slots_mono h h' lv xs Hsub Ev).
  - destruct (Store.o_value o) as [lv|]; [|done].
    destruct (Store.abs_slots h lv) as [xs|] eqn:Ev; [|done].
    by rewrite (abs_slots_mono h h' lv xs Hsub Ev).
Qed.

Lemma abs_encoding_mono (h h' : Store.heap) (l : Store.loc) (e : Encoding) :
  h ⊆ h' → Store.abs_encoding h l = Some e → Store.abs_encoding h' l = Some e.
Proof.
  intros Hsub. unfold Store.abs_encoding.
  destruct (h !! l) as [c|] eqn:E; [|done].
  rewrite (lookup_weaken _ _ _ _ E Hsub). destruct c as [|o cps| | | | |]; try done.
  destruct (Store.abs_object h o) as [d|] eqn:Ed; [|done].
  rewrite (abs_object_mono h h' o d Hsub Ed).
  destruct (h !! cps) as [c|] eqn:Ec; [|done].
  by rewrite (lookup_weaken _ _ _ _ Ec Hsub).
Qed.

Lemma models_mono (ldefs lals : Store.loc) (h h' : Store.heap)
    (defs : gmap string Codepage) (als : gmap string string) :
  h ⊆ h' → Store.models ldefs lals h defs als → Store.models ldefs lals h' defs als.
Proof.
  intros Hsub (Hals & m & Hm & Hdefs). split.
  - by apply (lookup_weaken _ _ _ _ Hals).
  - exists m. split; [by apply (lookup_weaken _ _ _ _ Hm) |].
    intros p. specialize (Hdefs p). destruct (m !! p) as [l|]; [|done].
    destruct Hdefs as (o & d & Hl & Ho & Hd). exists o, d.
    split; [by apply (lookup_weaken _ _ _ _ Hl) |].
    split; [by apply (abs_object_mono h h') | done].
Qed.

(** *** [structuredClone] *)

Lemma clone_numbers_spec (h : Store.heap) (l : Store.loc) (a : list (option Z)) :
  h !! l = Some (Store.CNumbers a) →
  Store.post (Store.clone_numbers l) h
    (fun l' h' => h !! l' = None ∧ h' = <[l' := Store.CNumbers a]> h).
Proof.
  intros Hl. unfold Store.clone_numbers.
  apply (post_bind _ _ _ (fun a' h' => a' = a ∧ h' = h)).
  - exists a, h. split; [by apply read_numbers_ok | done].
  - intros a' h' [-> ->]. apply post_alloc.
Qed.

Lemma clone_strings_spec (h : Store.heap) (l : Store.loc) (a : list string) :
  h !! l = Some (Store.CStrings a) →
  Store.post (Store.clone_strings l) h
    (fun l' h' => h !! l' = None ∧ h' = <[l' := Store.CStrings a]> h).
Proof.
  intros Hl. unfold Store.clone_strings.
  apply (post_bind _ _ _ (fun a' h' => a' = a ∧ h' = h)).
  - exists a, h. split; [by apply read_strings_ok | done].
  - intros a' h' [-> ->]. apply post_alloc.
Qed.

Lemma clone_slot_spec (h : Store.heap) (s : Store.slotref) (x : Slot) :
  Store.abs_slot h s = Some x →
  Store.post (Store.clone_slot s) h
    (fun s' h' => h ⊆ h' ∧ Store.abs_slot h' s' = Some x
                  ∧ ∀ l, s' = Store.SRow l → h !! l = None).
Proof.
  destruct s as [|n|l]; simpl.
  - intros Hx. apply post_ret. done.
  - intros Hx. apply post_ret. done.
  - destruct (h !! l) as [[| | | |r| |]|] eqn:Hl; try done. intros [= <-].
    apply (post_bind _ _ _ _ _ (clone_numbers_spec h l r Hl)).
    intros l' h' [Hfresh ->]. apply post_ret.
    split; [by apply store_fresh_subseteq |]. split.
    + simpl. by rewrite lookup_insert_eq.
    + by intros ? [= <-].
Qed.

Lemma map_each_clone_spec (h : Store.heap) (a : list Store.slotref) (xs : list Slot) :
  mapM (Store.abs_slot h) a = Some xs →
  Store.post (Store.map_each Store.clone_slot a) h
    (fun a' h' => h ⊆ h' ∧ mapM (Store.abs_slot h') a' = Some xs
                  ∧ ∀ l, l ∈ Store.rows a' → h !! l = None).
Proof.
  rewrite mapM_Some. intros Hall. revert h Hall.
  induction a as [|s a IH] in xs |- *; intros h Hall.
  - apply Forall2_nil_inv_l in Hall as ->. apply post_ret.
    split; [done |]. split; [done |]. intros l Hl. by apply elem_of_nil in Hl.
  - apply Forall2_cons_inv_l in Hall as (x & xs' & Hx & Hall & ->).
    cbn [Store.map_each].
    apply (post_bind _ _ _ _ _ (clone_slot_spec h s x Hx)).
    intros s' h1 (Hsub1 & Hs' & Hfresh1).
    assert (Hall1 : Forall2 (fun s x => Store.abs_slot h1 s = Some x) a xs').
    { eapply Forall2_impl; [exact Hall |]. intros ? ?. by apply abs_slot_mono. }
    apply (post_bind _ _ _ _ _ (IH xs' h1 Hall1)).
    intros a' h2 (Hsub2 & Ha' & Hfresh2). apply post_ret.
    split; [by transitivity h1 |]. split.
    + apply mapM_Some. constructor.
      * by apply (abs_slot_mono h1 h2).
      * by apply mapM_Some.
    + intros l Hl. unfold Store.rows in Hl. cbn [omap list_omap] in Hl.
      destruct s' as [|n|l']; simpl in Hl.
      * apply (store_lookup_weaken_None h h1 l Hsub1). by apply Hfresh2.
      * apply (store_lookup_weaken_None h h1 l Hsub1). by apply Hfresh2.
      * apply elem_of_cons in Hl as [->|Hl]; [by apply Hfresh1 |].
        apply (store_lookup_weaken_None h h1 l Hsub1). by apply Hfresh2.
Qed.

Lemma clone_slots_spec (h : Store.heap) (l : Store.loc) (xs : list Slot) :
  Store.abs_slots h l = Some xs →
  Store.post (Store.clone_slots l) h
    (fun l' h' => h ⊆ h' ∧ h !! l' = None
                  ∧ ∃ a', h' !! l' = Some (Store.CSlots a')
                          ∧ mapM (Store.abs_slot h') a' = Some xs
                          ∧ ∀ x, x ∈ Store.rows a' → h !! x = None).
Proof.
  unfold Store.abs_slots, Store.clone_slots.
  destruct (h !! l) as [[| | |a| | |]|] eqn:Hl; try done. intros Hxs.
  apply (post_bind _ _ _ (fun a0 h' => a0 = a ∧ h' = h)).
  { exists a, h. split; [by apply read_slots_ok | done]. }
  intros ? ? [-> ->].
  apply (post_bind _ _ _ _ _ (map_each_clone_spec h a xs Hxs)).
  intros a' h1 (Hsub1 & Ha' & Hfresh1).
  apply (post_weaken _ _ _ _ (post_alloc _ h1)).
  intros l' h2 [Hl' ->].
  assert (Hsub2 : h1 ⊆ <[l' := Store.CSlots a']> h1) by by apply store_fresh_subseteq.
  split; [by transitivity h1 |].
  split; [by apply (store_lookup_weaken_None h h1) |].
  exists a'. split; [by rewrite lookup_insert_eq |].
  split; [by apply (abs_slots_list_mono h1) | done].
Qed.

Lemma structuredClone_spec (h : Store.heap) (l : Store.loc) (o : Store.object) (d : Codepage) :
  h !! l = Some (Store.CDefinition o) →
  Store.abs_object h o = Some d →
  Store.post (Store.structuredClone l) h
    (fun l' h' => h ⊆ h' ∧ h !! l' = None
                  ∧ ∃ o', h' !! l' = Some (Store.CDefinition o')
                          ∧ Store.abs_object h' o' = Some d
                          ∧ ∀ x, x ∈ Store.object_locs h' o' → h !! x = None).
Proof.
  intros Hl Hd. unfold Store.structuredClone.
  apply (post_bind _ _ _ (fun o0 h' => o0 = o ∧ h' = h)).
  { exists o, h. split; [by apply read_definition_ok | done]. }
  intros ? ? [-> ->].
  unfold Store.abs_object in Hd.
  destruct (Store.abs_field (Store.abs_strings h) (Store.o_languages o)) as [ls|] eqn:Hls;
    [|done].
  destruct (Store.abs_field (Store.abs_slots h) (Store.o_value o)) as [v|] eqn:Hv; [|done].
  injection Hd as <-.
  (* the languages array *)
  apply (post_bind _ _ _
           (fun ll h1 => h ⊆ h1
                         ∧ Store.abs_field (Store.abs_strings h1) ll = Some ls
                         ∧ ∀ x, ll = Some x → h !! x = None)).
  { unfold Store.clone_field, Store.abs_field in *.
    destruct (Store.o_languages o) as [ll|].
    - unfold Store.abs_strings in Hls.
      destruct (h !! ll) as [[| |a| | | |]|] eqn:Hll; try done. injection Hls as <-.
      apply (post_bind _ _ _ _ _ (clone_strings_spec h ll a Hll)).
      intros l1 h1 [Hfresh ->]. apply post_ret.
      split; [by apply store_fresh_subseteq |]. split.
      + unfold Store.abs_strings. by rewrite lookup_insert_eq.
      + by intros ? [= <-].
    - injection Hls as <-. apply post_ret. done. }
  intros ll h1 (Hsub1 & Hll & Hfresh1).
  (* the value array and its rows *)
  apply (post_bind _ _ _
           (fun lv h2 => h1 ⊆ h2
                         ∧ Store.abs_field (Store.abs_slots h2) lv = Some v
                         ∧ ∀ x, x ∈ match lv with
                                    | Some lv' =>
                                        lv' :: match h2 !! lv' with
                                               | Some (Store.CSlots a) => Store.rows a
                                               | _ => []
                                               end
                                    | None => []
                                    end → h1 !! x = None)).
  { unfold Store.clone_field, Store.abs_field in *.
    destruct (Store.o_value o) as [lv|].
    - destruct (Store.abs_slots h lv) as [xs|] eqn:Hxs; [|done]. injection Hv as <-.
      apply (post_bind _ _ _ _ _
               (clone_slots_spec h1 lv xs (abs_slots_mono h h1 lv xs Hsub1 Hxs))).
      intros lv' h2 (Hsub2 & Hfresh2 & a' & Hlv' & Ha' & Hrows). apply post_ret.
      split; [done |]. split.
      + unfold Store.abs_slots. by rewrite Hlv', Ha'.
      + intros x Hx. rewrite Hlv' in Hx.
        apply elem_of_cons in Hx as [->|Hx]; [done | by apply Hrows].
    - injection Hv as <-. apply post_ret. split; [done |]. split; [done |].
      intros x Hx. by apply elem_of_nil in Hx. }
  intros lv h2 (Hsub2 & Hlv & Hfresh2).
  apply (post_weaken _ _ _ _ (post_alloc _ h2)).
  intros l' h3 [Hl' Hh3].
  assert (Hsub3 : h2 ⊆ h3) by (subst h3; by apply store_fresh_subseteq).
  assert (Hsub13 : h1 ⊆ h3) by by transitivity h2.
  split; [by transitivity h1 |].
  split.
  { apply (store_lookup_weaken_None h h1 l' Hsub1).
    by apply (store_lookup_weaken_None h1 h2 l' Hsub2). }
  eexists. split; [subst h3; by rewrite lookup_insert_eq |]. split.
  - unfold Store.abs_object. cbn [Store.o_languages Store.o_value Store.o_name
                                   Store.o_extends Store.o_offset].
    assert (Hll3 : Store.abs_field (Store.abs_strings h3) ll = Some ls).
    { unfold Store.abs_field in *. destruct ll as [x|]; [|done].
      destruct (Store.abs_strings h1 x) as [a|] eqn:Ea; [|done].
      by rewrite (abs_strings_mono h1 h3 x a Hsub13 Ea). }
    assert (Hlv3 : Store.abs_field (Store.abs_slots h3) lv = Some v).
    { unfold Store.abs_field in *. destruct lv as [x|]; [|done].
      destruct (Store.abs_slots h2 x) as [a|] eqn:Ea; [|done].
      by rewrite (abs_slots_mono h2 h3 x a Hsub3 Ea). }
    by rewrite Hll3, Hlv3.
  - intros x Hx. unfold Store.object_locs in Hx.
    cbn [Store.o_languages Store.o_value] in Hx.
    apply elem_of_app in Hx as [Hx|Hx].
    + destruct ll as [y|]; simpl in Hx; [|by apply elem_of_nil in Hx].
      apply list_elem_of_singleton in Hx as ->. by apply Hfresh1.
    + apply (store_lookup_weaken_None h h1 x Hsub1). apply Hfresh2.
      destruct lv as [y|]; [|done].
      apply elem_of_cons in Hx as [->|Hx]; [by left | right].
      subst h3. destruct (decide (l' = y)) as [->|Hne].
      * rewrite lookup_insert_eq in Hx. by apply elem_of_nil in Hx.
      * by rewrite lookup_insert_ne in Hx by done.
Qed.

(** *** The write loops on an array that nothing else refers to *)

Lemma for_each_on_array {A} (f : A → Store.M unit) (g : Codepoints → A → Codepoints)
    (xs : list A) (hh : Store.heap) (cps : Store.loc) :
  (∀ x a, x ∈ xs →
     f x (<[cps := Store.CNumbers a]> hh) = Ok (tt, <[cps := Store.CNumbers (g a x)]> hh)) →
  ∀ a, Store.for_each f xs (<[cps := Store.CNumbers a]> hh)
       = Ok (tt, <[cps := Store.CNumbers (foldl g a xs)]> hh).
Proof.
  induction xs as [|x xs IH]; intros Hf a; [done |].
  cbn [Store.for_each foldl].
  rewrite (store_bind_ok _ _ _ _ _ (Hf x a ltac:(by left))).
  apply IH. intros y b Hy. apply Hf. by right.
Qed.

Lemma set_element_on_array (hh : Store.heap) (cps : Store.loc) (a : Codepoints) (i v : Z) :
  Store.set_element cps i v (<[cps := Store.CNumbers a]> hh)
  = Ok (tt, <[cps := Store.CNumbers (js_set a i v)]> hh).
Proof.
  unfold Store.set_element.
  rewrite (store_bind_ok _ _ _ _ _ (read_numbers_ok _ cps a (lookup_insert_eq _ _ _))).
  unfold Store.write. by rewrite insert_insert_eq.
Qed.

Lemma write_row_on_array (hh : Store.heap) (cps lr : Store.loc) (i : nat)
    (r : list (option Z)) :
  hh !! lr = Some (Store.CNumbers r) → lr ≠ cps →
  ∀ a, Store.write_row cps i lr (<[cps := Store.CNumbers a]> hh)
       = Ok (tt, <[cps := Store.CNumbers (write_row i r a)]> hh).
Proof.
  intros Hlr Hne. unfold Store.write_row, write_row.
  apply for_each_on_array. intros j a _.
  assert (Hread : (<[cps := Store.CNumbers a]> hh) !! lr = Some (Store.CNumbers r))
    by by rewrite lookup_insert_ne.
  rewrite (store_bind_ok _ _ _ _ _ (read_numbers_ok _ lr r Hread)).
  destruct (r !! j) as [[n|]|]; [apply set_element_on_array | done | done].
Qed.

Lemma abs_slots_lookup (hh : Store.heap) (v : list Store.slotref) (vs : list Slot) (i : nat) :
  mapM (Store.abs_slot hh) v = Some vs →
  match v !! i with
  | Some Store.SHole => vs !! i = Some Hole
  | Some (Store.SNum n) => vs !! i = Some (Num n)
  | Some (Store.SRow l) => ∃ r, hh !! l = Some (Store.CNumbers r) ∧ vs !! i = Some (Row r)
  | None => vs !! i = None
  end.
Proof.
  rewrite mapM_Some. intros Hall.
  destruct (v !! i) as [s|] eqn:Hs.
  - destruct (Forall2_lookup_l _ _ _ _ _ Hall Hs) as (x & Hx & Habs).
    destruct s as [|n|l]; simpl in Habs.
    + congruence.
    + congruence.
    + destruct (hh !! l) as [[| | | |r| |]|]; try done. exists r. split; congruence.
  - apply lookup_ge_None. apply lookup_ge_None in Hs.
    by rewrite <- (Forall2_length _ _ _ Hall).
Qed.

Lemma rows_lookup (v : list Store.slotref) (i : nat) (l : Store.loc) :
  v !! i = Some (Store.SRow l) → l ∈ Store.rows v.
Proof.
  intros H. unfold Store.rows. apply list_elem_of_omap.
  exists (Store.SRow l). split; [by apply list_elem_of_lookup_2 in H | done].
Qed.

Lemma write_sparse_on_array (hh : Store.heap) (cps lv : Store.loc)
    (v : list Store.slotref) (vs : list Slot) :
  hh !! lv = Some (Store.CSlots v) → lv ≠ cps →
  (∀ l, l ∈ Store.rows v → l ≠ cps) →
  mapM (Store.abs_slot hh) v = Some vs →
  ∀ a, Store.write_sparse cps lv (<[cps := Store.CNumbers a]> hh)
       = Ok (tt, <[cps := Store.CNumbers (write_sparse vs a)]> hh).
Proof.
  intros Hlv Hne Hrows Hvs. unfold Store.write_sparse, write_sparse.
  apply for_each_on_array. intros i a _.
  assert (Hread : (<[cps := Store.CNumbers a]> hh) !! lv = Some (Store.CSlots v))
    by by rewrite lookup_insert_ne.
  rewrite (store_bind_ok _ _ _ _ _ (read_slots_ok _ lv v Hread)).
  pose proof (abs_slots_lookup hh v vs i Hvs) as Hi.
  destruct (v !! i) as [[|n|l]|] eqn:Hvi.
  - by rewrite Hi.
  - by rewrite Hi.
  - destruct Hi as (r & Hl & ->).
    apply write_row_on_array; [done |]. apply Hrows. by apply (rows_lookup v i).
  - by rewrite Hi.
Qed.

Lemma write_dense_on_array (hh : Store.heap) (cps lv : Store.loc) (off : Z)
    (v : list Store.slotref) (vs : list Slot) :
  hh !! lv = Some (Store.CSlots v) → lv ≠ cps →
  mapM (Store.abs_slot hh) v = Some vs →
  ∀ a, Store.write_dense cps off lv (length v) (<[cps := Store.CNumbers a]> hh)
       = Ok (tt, <[cps := Store.CNumbers (write_dense off vs a)]> hh).
Proof.
  intros Hlv Hne Hvs. unfold Store.write_dense, write_dense.
  assert (Hlen : length vs = length v).
  { apply mapM_Some in Hvs. by rewrite (Forall2_length _ _ _ Hvs). }
  rewrite Hlen.
  apply for_each_on_array. intros i a _.
  assert (Hread : (<[cps := Store.CNumbers a]> hh) !! lv = Some (Store.CSlots v))
    by by rewrite lookup_insert_ne.
  rewrite (store_bind_ok _ _ _ _ _ (read_slots_ok _ lv v Hread)).
  pose proof (abs_slots_lookup hh v vs i Hvs) as Hi.
  destruct (v !! i) as [[|n|l]|] eqn:Hvi.
  - by rewrite Hi.
  - rewrite Hi. apply set_element_on_array.
  - destruct Hi as (r & Hl & ->). done.
  - by rewrite Hi.
Qed.

Lemma write_value_on_array (hh : Store.heap) (cps : Store.loc) (o : Store.object)
    (d : Codepage) :
  Store.abs_object hh o = Some d →
  (∀ x, x ∈ Store.object_locs hh o → x ≠ cps) →
  ∀ a, Store.write_value cps o (<[cps := Store.CNumbers a]> hh)
       = Ok (tt, <[cps := Store.CNumbers (write_value d a)]> hh).
Proof.
  intros Hd Hlocs a. unfold Store.abs_object in Hd.
  destruct (Store.abs_field (Store.abs_strings hh) (Store.o_languages o)) as [ls|]; [|done].
  destruct (Store.abs_field (Store.abs_slots hh) (Store.o_value o)) as [v|] eqn:Hv; [|done].
  injection Hd as <-. unfold Store.write_value, write_value. cbn [value offset].
  unfold Store.abs_field in Hv. unfold Store.object_locs in Hlocs.
  destruct (Store.o_value o) as [lv|].
  - unfold Store.abs_slots in Hv.
    destruct (hh !! lv) as [[| | |sl| | |]|] eqn:Hlv; try done.
    destruct (mapM (Store.abs_slot hh) sl) as [vs|] eqn:Hvs; [|done].
    injection Hv as <-.
    assert (Hne : lv ≠ cps).
    { apply Hlocs. apply elem_of_app. right. by left. }
    assert (Hrows : ∀ l, l ∈ Store.rows sl → l ≠ cps).
    { intros l Hl. apply Hlocs. apply elem_of_app. right. by right. }
    assert (Hread : (<[cps := Store.CNumbers a]> hh) !! lv = Some (Store.CSlots sl))
      by by rewrite lookup_insert_ne.
    rewrite (store_bind_ok _ _ _ _ _ (read_slots_ok _ lv sl Hread)).
    assert (Hlen : length vs = length sl).
    { apply mapM_Some in Hvs. by rewrite (Forall2_length _ _ _ Hvs). }
    rewrite Hlen. case_decide.
    + by apply (write_sparse_on_array hh cps lv sl vs).
    + by apply (write_dense_on_array hh cps lv _ sl vs).
  - by injection Hv as <-.
Qed.

Lemma object_locs_allocated (h : Store.heap) (o : Store.object) (d : Codepage) (x : Store.loc) :
  Store.abs_object h o = Some d → x ∈ Store.object_locs h o → is_Some (h !! x).
Proof.
  unfold Store.abs_object, Store.object_locs, Store.abs_field. intros Hd Hx.
  apply elem_of_app in Hx as [Hx|Hx].
  - destruct (Store.o_languages o) as [ll|]; simpl in Hx; [|by apply elem_of_nil in Hx].
    apply list_elem_of_singleton in Hx as ->.
    unfold Store.abs_strings in Hd. destruct (h !! ll); [by eexists | done].
  - destruct (Store.o_languages o) as [ll|].
    + destruct (Store.abs_strings h ll); [|done].
      destruct (Store.o_value o) as [lv|]; [|by apply elem_of_nil in Hx].
      unfold Store.abs_slots in Hd.
      destruct (h !! lv) as [[| | |sl| | |]|] eqn:Hlv; try done.
      apply elem_of_cons in Hx as [->|Hx]; [by eexists |].
      destruct (mapM (Store.abs_slot h) sl) as [vs|] eqn:Hvs; [|done].
      unfold Store.rows in Hx. apply list_elem_of_omap in Hx as (s & Hs & Hsx).
      destruct s as [|n|lr]; try done. injection Hsx as ->.
      apply list_elem_of_lookup_1 in Hs as [i Hi].
      pose proof (abs_slots_lookup h sl vs i Hvs) as Hget. rewrite Hi in Hget.
      destruct Hget as (r & Hr & _). by eexists.
    + destruct (Store.o_value o) as [lv|]; [|by apply elem_of_nil in Hx].
      unfold Store.abs_slots in Hd.
      destruct (h !! lv) as [[| | |sl| | |]|] eqn:Hlv; try done.
      apply elem_of_cons in Hx as [->|Hx]; [by eexists |].
      destruct (mapM (Store.abs_slot h) sl) as [vs|] eqn:Hvs; [|done].
      unfold Store.rows in Hx. apply list_elem_of_omap in Hx as (s & Hs & Hsx).
      destruct s as [|n|lr]; try done. injection Hsx as ->.
      apply list_elem_of_lookup_1 in Hs as [i Hi].
      pose proof (abs_slots_lookup h sl vs i Hvs) as Hget. rewrite Hi in Hget.
      destruct Hget as (r & Hr & _). by eexists.
Qed.

Lemma object_locs_mono (h h' : Store.heap) (o : Store.object) (d : Codepage) :
  h ⊆ h' → Store.abs_object h o = Some d → Store.object_locs h' o = Store.object_locs h o.
Proof.
  intros Hsub Hd. unfold Store.object_locs. f_equal.
  destruct (Store.o_value o) as [lv|] eqn:Hv; [|done]. f_equal.
  unfold Store.abs_object, Store.abs_field in Hd. rewrite Hv in Hd.
  destruct (match Store.o_languages o with Some l => _ | None => _ end); [|done].
  unfold Store.abs_slots in Hd.
  destruct (h !! lv) as [c|] eqn:Hlv; [|done].
  by rewrite (lookup_weaken _ _ _ _ Hlv Hsub).
Qed.

(** *** [getCodepoints] and [getEncoding] on the store *)

Ltac store_run H :=
  apply (agrees_same_run _ _ _ _ _ _ (store_bind_ok _ _ _ _ _ H)).

Section store_resolve.
Variable ldefs lals : Store.loc.
Variable defs : gmap string Codepage.
Variable als : gmap string string.

Lemma models_lookup (h : Store.heap) (m : gmap string Store.loc) (p : string) :
  Store.models ldefs lals h defs als →
  h !! ldefs = Some (Store.CDefinitions m) →
  match m !! p with
  | Some l => ∃ o d, h !! l = Some (Store.CDefinition o)
                     ∧ Store.abs_object h o = Some d ∧ defs !! p = Some d
  | None => defs !! p = None
  end.
Proof.
  intros (_ & m' & Hm' & Hdefs) Hm. assert (m' = m) as -> by congruence. apply Hdefs.
Qed.

Lemma initial_table_agrees (getEncoding_h : string → Store.M Store.loc)
    (getEncoding_v : string → result Encoding)
    (h : Store.heap) (o : Store.object) (d : Codepage) (ev : bool) :
  (∀ q h1, Store.models ldefs lals h1 defs als →
     Store.agrees (getEncoding_h q) h1 (getEncoding_v q) (Store.returned h1)) →
  Store.models ldefs lals h defs als →
  Store.abs_object h o = Some d →
  Store.agrees (Store.initial_table getEncoding_h o ev) h (initial_table getEncoding_v d ev)
    (fun cps h' base => h ⊆ h' ∧ h' !! cps = Some (Store.CNumbers base) ∧ h !! cps = None).
Proof.
  intros IH Hmodels Hd.
  assert (Hext : extends d = Store.o_extends o).
  { unfold Store.abs_object in Hd.
    destruct (Store.abs_field _ (Store.o_languages o)); [|done].
    destruct (Store.abs_field _ (Store.o_value o)); [|done]. by injection Hd as <-. }
  unfold Store.initial_table, initial_table. rewrite Hext.
  apply (agrees_post _ _ _ _ _ _ (post_alloc _ h)).
  intros l0 h1 [Hfresh ->].
  assert (Hsub1 : h ⊆ <[l0 := Store.CNumbers (replicate 256 None)]> h)
    by by apply store_fresh_subseteq.
  destruct ev.
  - destruct (Store.o_extends o) as [parent|].
    + apply (agrees_bind _ _ _ _ _ (Store.returned (<[l0 := Store.CNumbers (replicate 256 None)]> h))).
      { apply IH. by apply (models_mono _ _ h). }
      intros le h2 e (Hsub2 & Habs & Hfp).
      unfold Store.abs_encoding in Habs.
      destruct (h2 !! le) as [[|o' cps| | | | |]|] eqn:Hle; try done.
      destruct (Store.abs_object h2 o') as [d'|]; [|done].
      destruct (h2 !! cps) as [[| | | |a| |]|] eqn:Hcps; try done.
      injection Habs as <-.
      store_run (read_encoding_ok h2 le cps o' Hle).
      apply agrees_ret. cbn [snd codepoints].
      split; [by transitivity (<[l0 := Store.CNumbers (replicate 256 None)]> h) |].
      split; [done |].
      apply (store_lookup_weaken_None _ _ cps Hsub1). apply Hfp.
      unfold Store.footprint. rewrite Hle. right. by left.
    + store_run (read_numbers_ok (<[l0 := Store.CNumbers (replicate 256 None)]> h) l0
                   (replicate 256 None) (lookup_insert_eq _ _ _)).
      unfold Store.bind, Store.write. apply agrees_ret.
      rewrite insert_insert_eq.
      split; [by apply store_fresh_subseteq |].
      split; [by rewrite lookup_insert_eq | done].
  - apply agrees_ret. split; [done |]. split; [by rewrite lookup_insert_eq | done].
Qed.

Lemma getCodepoints_with_agrees (getEncoding_h : string → Store.M Store.loc)
    (getEncoding_v : string → result Encoding)
    (h : Store.heap) (p : string) (ev : bool) :
  (∀ q h1, Store.models ldefs lals h1 defs als →
     Store.agrees (getEncoding_h q) h1 (getEncoding_v q) (Store.returned h1)) →
  Store.models ldefs lals h defs als →
  Store.agrees (Store.getCodepoints_with ldefs getEncoding_h p ev) h
    (getCodepoints_with defs getEncoding_v p ev)
    (fun cps h' t => h ⊆ h' ∧ h' !! cps = Some (Store.CNumbers t) ∧ h !! cps = None).
Proof.
  intros IH Hmodels. unfold Store.getCodepoints_with, getCodepoints_with.
  pose proof Hmodels as (_ & m & Hm & _).
  store_run (read_definitions_ok h ldefs m Hm).
  pose proof (models_lookup h m p Hmodels Hm) as Hp.
  destruct (m !! p) as [ld|].
  - destruct Hp as (o & d & Hld & Ho & ->).
    store_run (read_definition_ok h ld o Hld).
    apply (agrees_bind _ _ _ _ _ _ _ (initial_table_agrees _ _ h o d ev IH Hmodels Ho)).
    intros cps h1 base (Hsub1 & Hcps & Hfresh).
    assert (Hwrite : Store.write_value cps o h1
                     = Ok (tt, <[cps := Store.CNumbers (write_value d base)]> h1)).
    { rewrite <- (insert_id h1 cps _ Hcps) at 1.
      apply write_value_on_array; [by apply (abs_object_mono h h1) |].
      intros x Hx ->. rewrite (object_locs_mono h h1 o d Hsub1 Ho) in Hx.
      destruct (object_locs_allocated h o d cps Ho Hx) as [c Hc]. congruence. }
    store_run Hwrite.
    apply agrees_ret. split; [by apply insert_subseteq_r |].
    split; [by rewrite lookup_insert_eq | done].
  - rewrite Hp. done.
Qed.

Lemma getEncoding_agrees (depth : nat) (p : string) (h : Store.heap) :
  Store.models ldefs lals h defs als →
  Store.agrees (Store.getEncoding ldefs lals depth p) h (getEncoding defs als depth p)
    (Store.returned h).
Proof.
  revert p h. induction depth as [|depth IH]; intros p h Hmodels; [done |].
  rewrite getEncoding_unfold. cbn [Store.getEncoding].
  pose proof Hmodels as (Hals & m & Hm & _).
  store_run (read_aliases_ok h lals als Hals).
  store_run (read_definitions_ok h ldefs m Hm).
  assert (Hcanon :
    match m !! match als !! p with Some a => a | None => p end with
    | None => "ascii"%string
    | Some _ => match als !! p with Some a => a | None => p end
    end = canonical defs als p).
  { unfold canonical.
    replace (default p (als !! p)) with (match als !! p with Some a => a | None => p end)
      by by destruct (als !! p).
    pose proof (models_lookup h m (match als !! p with Some a => a | None => p end)
                  Hmodels Hm) as Hp.
    destruct (m !! _) as [ld|].
    - destruct Hp as (o & d & _ & _ & ->). done.
    - by rewrite Hp. }
  rewrite Hcanon.
  pose proof (models_lookup h m (canonical defs als p) Hmodels Hm) as Hp.
  destruct (m !! canonical defs als p) as [ld|]; [|by rewrite Hp].
  destruct Hp as (o & d & Hld & Ho & ->).
  apply (agrees_post _ _ _ _ _ _ (structuredClone_spec h ld o d Hld Ho)).
  intros clone h1 (Hsub1 & Hclone & o' & Hclone1 & Ho' & Hlocs).
  apply (agrees_bind _ _ _ _ _
           (fun cps h' t => h1 ⊆ h' ∧ h' !! cps = Some (Store.CNumbers t) ∧ h1 !! cps = None)).
  { apply getCodepoints_with_agrees; [|by apply (models_mono _ _ h)].
    intros q h' Hq. by apply IH. }
  intros cps h2 t (Hsub2 & Hcps & Hfresh).
  store_run (read_definition_ok h2 clone o' (lookup_weaken _ _ _ _ Hclone1 Hsub2)).
  destruct (post_alloc (Store.CEncoding o' cps) h2) as (l & h3 & Halloc & Hl & ->).
  exists l, (<[l := Store.CEncoding o' cps]> h2). split; [done |].
  assert (Hsub3 : h2 ⊆ <[l := Store.CEncoding o' cps]> h2) by by apply store_fresh_subseteq.
  assert (Hsub13 : h1 ⊆ <[l := Store.CEncoding o' cps]> h2) by by transitivity h2.
  split; [by transitivity h1 |]. split.
  - unfold Store.abs_encoding. rewrite lookup_insert_eq.
    rewrite (abs_object_mono h1 _ o' d Hsub13 Ho').
    by rewrite (lookup_weaken _ _ _ _ Hcps Hsub3).
  - intros x Hx. unfold Store.footprint in Hx. rewrite lookup_insert_eq in Hx.
    apply elem_of_cons in Hx as [->|Hx].
    { apply (store_lookup_weaken_None h h1 l Hsub1).
      by apply (store_lookup_weaken_None h1 h2 l Hsub2). }
    apply elem_of_cons in Hx as [->|Hx].
    { by apply (store_lookup_weaken_None h h1 cps Hsub1). }
    rewrite (object_locs_mono h1 _ o' d Hsub13 Ho') in Hx. by apply Hlocs.
Qed.

End store_resolve.

(** *** [encode] and [autoEncode] on the store *)

Lemma find_position_ok (h : Store.heap) (l : Store.loc) (e : Encoding) (x : option Z) :
  Store.abs_encoding h l = Some e →
  Store.find_position l x h = Ok (findIndex (codepoints e) x, h).
Proof.
  unfold Store.abs_encoding, Store.find_position. intros He.
  destruct (h !! l) as [[|o cps| | | | |]|] eqn:Hl; try done.
  destruct (Store.abs_object h o) as [d|]; [|done].
  destruct (h !! cps) as [[| | | |a| |]|] eqn:Hcps; try done.
  injection He as <-.
  rewrite (store_bind_ok _ _ _ _ _ (read_encoding_ok h l cps o Hl)).
  by rewrite (store_bind_ok _ _ _ _ _ (read_numbers_ok h cps a Hcps)).
Qed.

Lemma encode_loop_ok (h : Store.heap) (l : Store.loc) (e : Encoding) (input : jsstring)
    (cs : list nat) (output : list Z) :
  Store.abs_encoding h l = Some e →
  Store.encode_loop l input cs output h
  = Ok (foldl (fun output c =>
                 let codepoint := codePointAt input c in
                 let position := findIndex (codepoints e) codepoint in
                 if decide (position ≠ -1) then <[c := to_uint8 position]> output
                 else <[c := 0x3f]> output) output cs, h).
Proof.
  intros He. revert output. induction cs as [|c cs IH]; intros output; [done |].
  cbn [Store.encode_loop foldl].
  rewrite (store_bind_ok _ _ _ _ _ (find_position_ok h l e _ He)).
  cbn zeta. case_decide; apply IH.
Qed.

Section store_encode.
Variable ldefs lals : Store.loc.
Variable defs : gmap string Codepage.
Variable als : gmap string string.
Variable depth : nat.

(** The position of a code point in the table of a codepage: the heap
    side resolves the codepage and reads the array it got. *)
Lemma position_agrees {A} (p : string) (x : option Z) (h : Store.heap)
    (k : Z → Store.M A) (kv : Z → result A) :
  Store.models ldefs lals h defs als →
  (∀ pos h', h ⊆ h' → Store.agrees (k pos) h' (kv pos) (Store.same h)) →
  Store.agrees
    (Store.bind (Store.getEncoding ldefs lals depth p)
       (fun definition => Store.bind (Store.find_position definition x) k))
    h
    (rbind (getEncoding defs als depth p)
       (fun definition => kv (findIndex (codepoints definition) x)))
    (Store.same h).
Proof.
  intros Hmodels Hk.
  apply (agrees_bind _ _ _ _ _ _ _ (getEncoding_agrees ldefs lals defs als depth p h Hmodels)).
  intros l h1 e (Hsub & Habs & _).
  store_run (find_position_ok h1 l e x Habs).
  by apply Hk.
Qed.

Lemma same_trans {A} (h h1 : Store.heap) (m : Store.M A) (p : result A) :
  h ⊆ h1 → Store.agrees m h1 p (Store.same h1) → Store.agrees m h1 p (Store.same h).
Proof.
  intros Hsub Hm. apply (agrees_weaken _ _ _ _ _ Hm).
  intros a h' b [-> Hsub']. split; [done | by transitivity h1].
Qed.

Lemma encode_agrees (input : jsstring) (p : string) (h : Store.heap) :
  Store.models ldefs lals h defs als →
  Store.agrees (Store.encode ldefs lals depth input p) h (encode defs als depth input p)
    (Store.same h).
Proof.
  intros Hmodels. unfold Store.encode, encode. cbn zeta.
  apply (agrees_bind _ _ _ _ _ _ _ (getEncoding_agrees ldefs lals defs als depth p h Hmodels)).
  intros l h1 e (Hsub & Habs & _).
  exists (foldl (fun output c =>
                   let codepoint := codePointAt input c in
                   let position := findIndex (codepoints e) codepoint in
                   if decide (position ≠ -1) then <[c := to_uint8 position]> output
                   else <[c := 0x3f]> output)
            (replicate (length input) 0) (seq 0 (length input))), h1.
  split; [by apply encode_loop_ok | done].
Qed.

Lemma scan_candidates_agrees (candidates : list string) (codePoint : option Z)
    (before : option string * Z) (h : Store.heap) :
  Store.models ldefs lals h defs als →
  Store.agrees (Store.scan_candidates ldefs lals depth candidates codePoint before) h
    (scan_candidates defs als depth candidates codePoint before) (Store.same h).
Proof.
  revert h. induction candidates as [|cand rest IH]; intros h Hmodels.
  - by apply agrees_ret.
  - cbn [Store.scan_candidates scan_candidates].
    pose proof (position_agrees cand codePoint h
             (fun position =>
                if decide (position ≠ -1) then Store.ret (Some cand, position)
                else Store.scan_candidates ldefs lals depth rest codePoint before)
             (fun position =>
                if decide (position ≠ -1) then Ok (Some cand, position)
                else scan_candidates defs als depth rest codePoint before)
             Hmodels) as Hpos.
    apply Hpos. clear Hpos.
    intros pos h' Hsub. cbn beta.
    case_decide.
    + by apply agrees_ret.
    + apply (same_trans h h'); [done |]. apply IH. by apply (models_mono _ _ h).
Qed.

Lemma stick_agrees (cf : CurrentFragment) (codePoint : option Z) (h : Store.heap) :
  Store.models ldefs lals h defs als →
  Store.agrees (Store.stick ldefs lals depth cf codePoint) h
    (stick defs als depth cf codePoint) (Store.same h).
Proof.
  intros Hmodels. unfold Store.stick, stick.
  destruct (cur_codepage cf) as [current|]; [|by apply agrees_ret].
  destruct (truthy (Some current)); [|by apply agrees_ret].
  pose proof (position_agrees current codePoint h
           (fun position =>
              if decide (position ≠ -1) then Store.ret (Some current, position)
              else Store.ret (None, 0))
           (fun position =>
              if decide (position ≠ -1) then Ok (Some current, position)
              else Ok (None, 0))
           Hmodels) as Hpos.
  apply Hpos. clear Hpos.
  intros pos h' Hsub. cbn beta.
  case_decide; by apply agrees_ret.
Qed.

Lemma choose_agrees (input : jsstring) (candidates : list string) (cf : CurrentFragment)
    (c : nat) (h : Store.heap) :
  Store.models ldefs lals h defs als →
  Store.agrees (Store.choose ldefs lals depth input candidates cf c) h
    (choose defs als depth input candidates cf c) (Store.same h).
Proof.
  intros Hmodels. unfold Store.choose, choose. cbn zeta.
  apply (agrees_bind _ _ _ _ _ _ _ (stick_agrees cf (codePointAt input c) h Hmodels)).
  intros sticky h1 ? [<- Hsub1].
  apply (agrees_bind _ _ _ _ _ (Store.same h)).
  { destruct (truthy (fst sticky)); [by apply agrees_ret |].
    apply (same_trans h h1); [done |].
    apply scan_candidates_agrees. by apply (models_mono _ _ h). }
  intros scanned h2 ? [<- Hsub2]. by apply agrees_ret.
Qed.

Lemma autoEncode_step_agrees (input : jsstring) (candidates : list string) (st : State)
    (c : nat) (h : Store.heap) :
  Store.models ldefs lals h defs als →
  Store.agrees (Store.autoEncode_step ldefs lals depth input candidates st c) h
    (autoEncode_step defs als depth input candidates st c) (Store.same h).
Proof.
  intros Hmodels. unfold Store.autoEncode_step, autoEncode_step.
  apply (agrees_bind _ _ _ _ _ _ _
           (choose_agrees input candidates (currentFragment st) c h Hmodels)).
  intros chosen h1 ? [<- Hsub1]. by apply agrees_ret.
Qed.

Lemma autoEncode_loop_agrees (input : jsstring) (candidates : list string) (cs : list nat)
    (st : State) (h : Store.heap) :
  Store.models ldefs lals h defs als →
  Store.agrees (Store.autoEncode_loop ldefs lals depth input candidates cs st) h
    (autoEncode_loop defs als depth input candidates cs st) (Store.same h).
Proof.
  revert st h. induction cs as [|c cs IH]; intros st h Hmodels.
  - by apply agrees_ret.
  - cbn [Store.autoEncode_loop autoEncode_loop].
    apply (agrees_bind _ _ _ _ _ _ _
             (autoEncode_step_agrees input candidates st c h Hmodels)).
    intros st1 h1 ? [<- Hsub1].
    apply (same_trans h h1); [done |]. apply IH. by apply (models_mono _ _ h).
Qed.

Lemma autoEncode_agrees (input : jsstring) (candidates : list string) (h : Store.heap) :
  Store.models ldefs lals h defs als →
  Store.agrees (Store.autoEncode ldefs lals depth input candidates) h
    (autoEncode defs als depth input candidates) (Store.same h).
Proof.
  intros Hmodels. unfold Store.autoEncode, autoEncode.
  apply (agrees_bind _ _ _ _ _ _ _
           (autoEncode_loop_agrees input candidates (seq 0 (length input)) initial h Hmodels)).
  intros st h1 ? [<- Hsub1]. by apply agrees_ret.
Qed.

End store_encode.

Lemma observe_agrees (m : Store.M Store.loc) (h : Store.heap) (p : result Encoding) :
  Store.agrees m h p (Store.returned h) → Store.observe (m h) = p.
Proof.
  destruct p as [e|x]; simpl.
  - intros (l & h' & -> & _ & Habs & _). simpl. by rewrite Habs.
  - by intros ->.
Qed.

Lemma value_of_agrees {A} (m : Store.M A) (h : Store.heap) (p : result A) :
  Store.agrees m h p (Store.same h) → Store.value_of (m h) = p.
Proof.
  destruct p as [a|x]; simpl.
  - by intros (a' & h' & -> & -> & _).
  - by intros ->.
Qed.

(** C10. The object [getEncoding] returns is a fresh copy. Every cell
    reachable from it (the object, its [languages] and [value] arrays, the
    rows of [value], the codepoints array) was allocated by the call, which
    left every older cell as it was. So however those cells are changed
    afterwards (and whatever is allocated besides), [getEncoding], [encode]
    and [autoEncode] return, for every codepage, every input and every
    candidate list, what they return without the change: what the registry
    determines. *)
Theorem getEncoding_returns_fresh_copy (ldefs lals : Store.loc)
    (defs : gmap string Codepage) (als : gmap string string)
    (depth : nat) (p : string) (h h1 : Store.heap) (l : Store.loc) :
  Store.models ldefs lals h defs als →
  Store.getEncoding ldefs lals depth p h = Ok (l, h1) →
  h ⊆ h1
  ∧ (∀ x, x ∈ Store.footprint h1 l → h !! x = None)
  ∧ ∀ h2 : Store.heap,
      (∀ x c, x ∉ Store.footprint h1 l → h1 !! x = Some c → h2 !! x = Some c) →
      ∀ (depth' : nat) (q : string) (input : jsstring) (candidates : list string),
        Store.observe (Store.getEncoding ldefs lals depth' q h2)
        = Store.observe (Store.getEncoding ldefs lals depth' q h1)
        ∧ Store.value_of (Store.encode ldefs lals depth' input q h2)
          = Store.value_of (Store.encode ldefs lals depth' input q h1)
        ∧ Store.value_of (Store.autoEncode ldefs lals depth' input candidates h2)
          = Store.value_of (Store.autoEncode ldefs lals depth' input candidates h1)
        ∧ Store.observe (Store.getEncoding ldefs lals depth' q h2)
          = getEncoding defs als depth' q.
Proof.
  intros Hmodels Hrun.
  pose proof (getEncoding_agrees ldefs lals defs als depth p h Hmodels) as Hag.
  destruct (getEncoding defs als depth p) as [e|x]; simpl in Hag; [|congruence].
  destruct Hag as (l' & h1' & Hrun' & Hsub & Habs & Hfresh).
  assert (l' = l ∧ h1' = h1) as [-> ->] by (split; congruence).
  split; [done |]. split; [done |].
  intros h2 Hframe depth' q input candidates.
  assert (Hsub2 : h ⊆ h2).
  { apply map_subseteq_spec. intros x c Hx.
    apply Hframe; [|by apply (lookup_weaken _ _ _ _ Hx)].
    intros Hin. apply Hfresh in Hin. congruence. }
  pose proof (models_mono ldefs lals h h1 defs als Hsub Hmodels) as Hm1.
  pose proof (models_mono ldefs lals h h2 defs als Hsub2 Hmodels) as Hm2.
  rewrite !(observe_agrees _ _ _ (getEncoding_agrees ldefs lals defs als depth' q _ Hm1)).
  rewrite !(observe_agrees _ _ _ (getEncoding_agrees ldefs lals defs als depth' q _ Hm2)).
  rewrite (value_of_agrees _ _ _ (encode_agrees ldefs lals defs als depth' input q _ Hm1)).
  rewrite (value_of_agrees _ _ _ (encode_agrees ldefs lals defs als depth' input q _ Hm2)).
  rewrite (value_of_agrees _ _ _
             (autoEncode_agrees ldefs lals defs als depth' input candidates _ Hm1)).
  rewrite (value_of_agrees _ _ _
             (autoEncode_agrees ldefs lals defs als depth' input candidates _ Hm2)).
  done.
Qed.

Lemma getEncoding_returns_fresh_copy_witness :
  sample_heap ⊆ snd sample_returned
  ∧ (∀ x, x ∈ Store.footprint (snd sample_returned) (fst sample_returned)
          → sample_heap !! x = None)
  ∧ ∀ h2 : Store.heap,
      (∀ x c, x ∉ Store.footprint (snd sample_returned) (fst sample_returned)
              → snd sample_returned !! x = Some c → h2 !! x = Some c) →
      ∀ (depth' : nat) (q : string) (input : jsstring) (candidates : list string),
        Store.observe (Store.getEncoding 1 2 depth' q h2)
        = Store.observe (Store.getEncoding 1 2 depth' q (snd sample_returned))
        ∧ Store.value_of (Store.encode 1 2 depth' input q h2)
          = Store.value_of (Store.encode 1 2 depth' input q (snd sample_returned))
        ∧ Store.value_of (Store.autoEncode 1 2 depth' input candidates h2)
          = Store.value_of (Store.autoEncode 1 2 depth' input candidates (snd sample_returned))
        ∧ Store.observe (Store.getEncoding 1 2 depth' q h2)
          = getEncoding sample_definitions sample_aliases depth' q.
Proof.
  apply (getEncoding_returns_fresh_copy 1 2 sample_definitions sample_aliases 3 "el"
           sample_heap (snd sample_returned) (fst sample_returned)).
  - split; [reflexivity |].
    eexists. split; [reflexivity |].
    intros p.
    destruct (decide (p = "ascii"%string)) as [->|Hascii].
    { eexists _, _. repeat split; vm_compute; reflexivity. }
    destruct (decide (p = "latin"%string)) as [->|Hlatin].
    { eexists _, _. repeat split; vm_compute; reflexivity. }
    destruct (decide (p = "greek"%string)) as [->|Hgreek].
    { eexists _, _. repeat split; vm_compute; reflexivity. }
    unfold sample_definitions. cbn [list_to_map foldr uncurry].
    rewrite !lookup_insert_ne by done. by rewrite !lookup_empty.
  - vm_compute. reflexivity.
Defined.

(** The copy at work: overwriting the returned codepoints array leaves the
    next [getEncoding] as it was. *)
Example mutated_copy_is_not_seen :
  Store.observe
    (Store.getEncoding 1 2 3 "el"
       (<[23%positive := Store.CNumbers []]> (snd sample_returned)))
  = Ok greek_encoding.
Proof. vm_compute. reflexivity. Qed.

(** ** The other lookups *)

Section lookup_facts.
Variable definitions : gmap string Codepage.
Variable aliases : gmap string string.
Variable strings : list (string * string).

Lemma supports_true (p : string) :
  supports definitions aliases p = true
  ↔ is_Some (definitions !! default p (aliases !! p)).
Proof.
  unfold supports.
  replace (match aliases !! p with Some a => a | None => p end)
    with (default p (aliases !! p)) by by destruct (aliases !! p).
  destruct (definitions !! default p (aliases !! p)) as [d|]; split; intros H;
    solve [done | by eexists | by destruct H].
Qed.

(** X1. [supports] tells which definition [getEncoding] answers with: the one
    stored under the alias target when it says [true], the ascii one when it
    says [false]. *)
Theorem supports_decides_fallback (depth : nat) (p : string) (e : Encoding) :
  getEncoding definitions aliases depth p = Ok e →
  if supports definitions aliases p
  then definitions !! default p (aliases !! p) = Some (definition e)
  else definitions !! default p (aliases !! p) = None
       ∧ definitions !! "ascii"%string = Some (definition e).
Proof.
  intros He. apply getEncoding_definition in He. unfold canonical in He.
  pose proof (supports_true p) as Hs.
  set (t := default p (aliases !! p)) in *.
  destruct (definitions !! t) as [d|] eqn:Hd.
  - rewrite (proj2 Hs) by by eexists. congruence.
  - destruct (supports definitions aliases p); [|done].
    destruct (proj1 Hs eq_refl) as [? ?]. done.
Qed.


(** X3. [getTestStrings] has no fallback: for a name that is not supported it
    returns nothing, while [getEncoding] answers the same name with the
    ascii definition. *)
Theorem getTestStrings_no_fallback (depth : nat) (p : string) (e : Encoding) :
  supports definitions aliases p = false →
  getEncoding definitions aliases depth p = Ok e →
  definitions !! "ascii"%string = Some (definition e)
  ∧ getTestStrings definitions aliases strings p = [].
Proof.
  intros Hs He. split.
  - apply getEncoding_definition in He. unfold canonical in He.
    unfold supports in Hs.
    replace (match aliases !! p with Some a => a | None => p end)
      with (default p (aliases !! p)) in Hs by by destruct (aliases !! p).
    by destruct (definitions !! default p (aliases !! p)).
  - unfold supports in Hs. unfold getTestStrings.
    by destruct (definitions !! match aliases !! p with Some a => a | None => p end).
Qed.

(** X4. What [getTestStrings] returns for a supported codepage: the entries of
    [strings] whose language the definition lists, all of them, in the order
    of [strings]. *)
Theorem getTestStrings_entries (p : string) (d : Codepage) (ls : list string) :
  definitions !! default p (aliases !! p) = Some d →
  languages d = Some ls →
  map (fun t => (language t, string' t)) (getTestStrings definitions aliases strings p)
    `sublist_of` strings
  ∧ ∀ l s, mkTestString l s ∈ getTestStrings definitions aliases strings p
           ↔ (l, s) ∈ strings ∧ l ∈ ls.
Proof.
  intros Hd Hls. unfold getTestStrings.
  replace (match aliases !! p with Some a => a | None => p end)
    with (default p (aliases !! p)) by by destruct (aliases !! p).
  rewrite Hd, Hls. split.
  - assert (Hid : ∀ l : list (string * string),
              map (fun t => (language t, string' t))
                  (map (fun entry => mkTestString (fst entry) (snd entry)) l) = l).
    { induction l as [|[l s] rest IH]; [done |]. simpl. by rewrite IH. }
    rewrite Hid. apply sublist_filter.
  - intros l s. rewrite list_elem_of_fmap. split.
    + intros ([l' s'] & [= -> ->] & Hin). by apply list_elem_of_filter in Hin as [? ?].
    + intros [Hin Hl]. exists (l, s). split; [done |]. by apply list_elem_of_filter.
Qed.

(** X5. An alias stands for its target: when [a] is an alias of [t] and [t] is
    not itself an alias, every lookup and [encode] answer for [a] as for [t]. *)
Theorem alias_transparent (a t : string) :
  aliases !! a = Some t → aliases !! t = None →
  supports definitions aliases a = supports definitions aliases t
  ∧ getTestStrings definitions aliases strings a
    = getTestStrings definitions aliases strings t
  ∧ ∀ depth,
      getEncoding definitions aliases depth a = getEncoding definitions aliases depth t
      ∧ ∀ input, encode definitions aliases depth input a
                 = encode definitions aliases depth input t.
Proof.
  intros Ha Ht.
  split; [unfold supports; by rewrite Ha, Ht |].
  split; [unfold getTestStrings; by rewrite Ha, Ht |].
  intros depth.
  assert (Hget : getEncoding definitions aliases depth a
                 = getEncoding definitions aliases depth t).
  { destruct depth as [|depth]; [done |].
    rewrite !getEncoding_unfold. unfold canonical. by rewrite Ha, Ht. }
  split; [done |]. intros input. unfold encode. by rewrite Hget.
Qed.

End lookup_facts.


(** ** More on [encode] *)


Lemma no_surrogate_pair_codePointAt (s : jsstring) (c : nat) :
  no_surrogate_pair s = true → codePointAt s c = s !! c.
Proof.
  revert c. induction s as [|first rest IH]; intros c Hns; [done |].
  cbn [no_surrogate_pair] in Hns.
  destruct c as [|c].
  - unfold codePointAt. simpl. destruct rest as [|second rest']; simpl.
    + by destruct (is_lead first).
    + apply andb_prop in Hns as [Hp _]. apply negb_true_iff in Hp.
      destruct (is_lead first); [|done]. simpl in Hp. by rewrite Hp.
  - rewrite codePointAt_cons. simpl. apply IH.
    destruct rest as [|second rest']; [done |]. by apply andb_prop in Hns as [_ ?].
Qed.

Lemma codePointAt_app_r (s1 s2 : jsstring) (c : nat) :
  codePointAt (s1 ++ s2) (length s1 + c) = codePointAt s2 c.
Proof.
  unfold codePointAt.
  rewrite lookup_app_r by lia.
  replace (length s1 + c - length s1)%nat with c by lia.
  replace (S (length s1 + c)) with (length s1 + S c)%nat by lia.
  rewrite (lookup_app_r s1 s2 (length s1 + S c)) by lia.
  by replace (length s1 + S c - length s1)%nat with (S c) by lia.
Qed.

Lemma codePointAt_app_l (s1 s2 : jsstring) (c : nat) :
  seam_ok s1 s2 → (c < length s1)%nat →
  codePointAt (s1 ++ s2) c = codePointAt s1 c.
Proof.
  intros Hseam Hc. unfold codePointAt.
  rewrite lookup_app_l by done.
  destruct (s1 !! c) as [first|] eqn:Hfirst; [|done].
  destruct (is_lead first) eqn:Hlead; [|done].
  destruct (decide (S c < length s1)%nat) as [Hin|Hlast].
  - by rewrite lookup_app_l by done.
  - rewrite lookup_app_r by lia. rewrite (lookup_ge_None_2 s1 (S c)) by lia.
    replace (S c - length s1)%nat with 0%nat by lia.
    destruct (s2 !! 0%nat) as [w|] eqn:Hw; [|done].
    assert (Hu : last s1 = Some first).
    { rewrite last_lookup. replace (pred (length s1)) with c by lia. done. }
    assert (Hh : head s2 = Some w) by by destruct s2.
    specialize (Hseam first w Hu Hh). rewrite Hlead in Hseam. simpl in Hseam.
    by rewrite Hseam.
Qed.

Section encode_more.
Variable definitions : gmap string Codepage.
Variable aliases : gmap string string.


(** X7. [encode] works code unit by code unit: the encoding of [s1 ++ s2] is
    the encoding of [s1] followed by that of [s2], unless [s1] ends in a lead
    surrogate that pairs with a trail surrogate at the head of [s2]. *)
Theorem encode_app (depth : nat) (s1 s2 : jsstring) (p : string) (e : Encoding) :
  getEncoding definitions aliases depth p = Ok e →
  seam_ok s1 s2 →
  ∃ o1 o2,
    encode definitions aliases depth s1 p = Ok o1
    ∧ encode definitions aliases depth s2 p = Ok o2
    ∧ encode definitions aliases depth (s1 ++ s2) p = Ok (o1 ++ o2).
Proof.
  intros He Hseam.
  destruct (encode_ok definitions aliases depth s1 p e He) as (o1 & Ho1 & Hl1 & Hg1).
  destruct (encode_ok definitions aliases depth s2 p e He) as (o2 & Ho2 & Hl2 & Hg2).
  destruct (encode_ok definitions aliases depth (s1 ++ s2) p e He) as (o & Ho & Hl & Hg).
  exists o1, o2. split; [done |]. split; [done |]. rewrite Ho. f_equal.
  apply list_eq_same_length with (length o); [by rewrite length_app, Hl, length_app, Hl1, Hl2 | done |].
  intros c x y Hc Hx Hy.
  rewrite Hg in Hx by lia.
  destruct (decide (c < length s1)%nat) as [Hc1|Hc2].
  - rewrite lookup_app_l in Hy by lia. rewrite Hg1 in Hy by done.
    rewrite codePointAt_app_l in Hx by done. congruence.
  - rewrite lookup_app_r in Hy by lia. rewrite Hl1 in Hy.
    rewrite Hg2 in Hy by (rewrite Hl, length_app in Hc; lia).
    replace c with (length s1 + (c - length s1))%nat in Hx at 1 by lia.
    rewrite codePointAt_app_r in Hx. congruence.
Qed.

(** X8. [encode] loses nothing on text its table covers: two strings without
    surrogate pairs, all of whose code units the table (of at most 256
    entries) holds, are equal when their encodings are. *)
Theorem encode_injective_on_covered (depth : nat) (s1 s2 : jsstring) (p : string)
    (e : Encoding) (o : list Z) :
  getEncoding definitions aliases depth p = Ok e →
  (length (codepoints e) ≤ 256)%nat →
  no_surrogate_pair s1 = true → no_surrogate_pair s2 = true →
  Forall (fun u => Some u ∈ codepoints e) s1 →
  Forall (fun u => Some u ∈ codepoints e) s2 →
  encode definitions aliases depth s1 p = Ok o →
  encode definitions aliases depth s2 p = Ok o →
  s1 = s2.
Proof.
  intros He Hlen Hn1 Hn2 Hc1 Hc2 Ho1 Ho2.
  destruct (encode_ok definitions aliases depth s1 p e He) as (o1 & Ho1' & Hl1 & Hg1).
  destruct (encode_ok definitions aliases depth s2 p e He) as (o2 & Ho2' & Hl2 & Hg2).
  assert (o1 = o) as -> by congruence. assert (o2 = o) as -> by congruence.
  assert (Hpos : ∀ u, Some u ∈ codepoints e →
            0 ≤ findIndex (codepoints e) (Some u) < 256
            ∧ codepoints e !! Z.to_nat (findIndex (codepoints e) (Some u)) = Some (Some u)).
  { intros u Hu.
    assert (Hne : findIndex (codepoints e) (Some u) ≠ -1).
    { intros Habs. by apply findIndex_absent in Habs. }
    destruct (findIndex_first _ _ _ eq_refl Hne) as (Hr & Hl & _). split; [lia | done]. }
  apply list_eq_same_length with (length o); [lia | lia |].
  intros c u1 u2 Hc Hu1 Hu2.
  pose proof (Hg1 c ltac:(apply lookup_lt_Some in Hu1; lia)) as Hb1.
  pose proof (Hg2 c ltac:(apply lookup_lt_Some in Hu2; lia)) as Hb2.
  rewrite no_surrogate_pair_codePointAt, Hu1 in Hb1 by done.
  rewrite no_surrogate_pair_codePointAt, Hu2 in Hb2 by done.
  rewrite Hb1 in Hb2. injection Hb2 as Hb.
  destruct (Hpos u1) as [Hr1 Ht1]; [by apply (Forall_lookup_1 _ _ _ _ Hc1 Hu1) |].
  destruct (Hpos u2) as [Hr2 Ht2]; [by apply (Forall_lookup_1 _ _ _ _ Hc2 Hu2) |].
  unfold encoded_byte, to_uint8 in Hb.
  rewrite !decide_True in Hb by lia. rewrite !Z.mod_small in Hb by lia.
  rewrite Hb in Ht1. congruence.
Qed.

(** X9. Over a table that is the identity on bytes 0..127, [encode] returns
    ASCII text as it is. *)
Theorem encode_ascii_identity (depth : nat) (input : jsstring) (p : string) (e : Encoding) :
  getEncoding definitions aliases depth p = Ok e →
  take 128 (codepoints e) = map (fun b => Some (Z.of_nat b)) (seq 0 128) →
  Forall (fun u => 0 ≤ u < 128) input →
  encode definitions aliases depth input p = Ok input.
Proof.
  intros He Htake Hascii.
  assert (Hid : ∀ b : nat, (b < 128)%nat → codepoints e !! b = Some (Some (Z.of_nat b))).
  { intros b Hb. rewrite <- (lookup_take_lt (codepoints e) 128 b Hb), Htake.
    change (map (fun b => Some (Z.of_nat b)) (seq 0 128))
      with ((fun b => Some (Z.of_nat b)) <$> seq 0 128).
    by rewrite list_lookup_fmap, lookup_seq_lt. }
  destruct (encode_ok definitions aliases depth input p e He) as (o & Ho & Hl & Hg).
  rewrite Ho. f_equal.
  apply list_eq_same_length with (length o); [lia | done |].
  intros c b u Hc Hb Hu.
  rewrite Hg in Hb by lia.
  pose proof (Forall_lookup_1 _ _ _ _ Hascii Hu) as Hrange. simpl in Hrange.
  assert (Hcp : codePointAt input c = Some u).
  { unfold codePointAt. rewrite Hu.
    replace (is_lead u) with false; [done |].
    unfold is_lead. symmetry. apply andb_false_iff. left. apply Z.leb_gt. lia. }
  rewrite Hcp in Hb.
  assert (Hat : codepoints e !! Z.to_nat u = Some (Some u)).
  { rewrite Hid by lia. do 2 f_equal. lia. }
  assert (Hne : findIndex (codepoints e) (Some u) ≠ -1).
  { intros Habs. apply findIndex_absent in Habs. apply Habs.
    by apply list_elem_of_lookup_2 in Hat. }
  destruct (findIndex_first _ _ _ eq_refl Hne) as (Hr & Hfound & Hleast).
  assert (Hpos : findIndex (codepoints e) (Some u) = u).
  { destruct (Z.lt_trichotomy (findIndex (codepoints e) (Some u)) u) as [Hlt|[Heq|Hgt]].
    - rewrite Hid in Hfound by lia. injection Hfound as Hf. lia.
    - done.
    - exfalso. apply (Hleast (Z.to_nat u)); [lia | done]. }
  unfold encoded_byte, to_uint8 in Hb. rewrite decide_True in Hb by done.
  rewrite Hpos, Z.mod_small in Hb by lia. congruence.
Qed.

(** X10. Without [evaluateExtends], [getCodepoints] needs neither the parent nor
    any stack: for a name in [definitions] it returns at every depth, and an
    index reads what the definition's own [value] supplies there, or
    [undefined]. *)
Theorem getCodepoints_own (depth : nat) (p : string) (d : Codepage) :
  definitions !! p = Some d →
  ∃ t, getCodepoints definitions aliases depth p false = Ok t
       ∧ ∀ k, js_get t k = override_at d k.
Proof.
  intros Hd. rewrite getCodepoints_unfold, Hd.
  assert (Hinit : initial_table (getEncoding definitions aliases depth) d false
                  = Ok (replicate 256 None)) by reflexivity.
  rewrite Hinit. cbn [rbind].
  eexists. split; [reflexivity |]. intros k.
  rewrite write_value_by_shape.
  destruct (override_at d k); [done |].
  unfold js_get. destruct (decide (k < 256)%nat).
  - by rewrite lookup_replicate_2.
  - by rewrite lookup_ge_None_2 by (rewrite length_replicate; lia).
Qed.

(** X11. A set of names closed under [extends] never resolves: [getEncoding]
    ends in [RangeError] at every depth. *)
Theorem getEncoding_cycle (looping : string → Prop) (depth : nat) (p : string) :
  (∀ c, looping c → ∃ d q, definitions !! c = Some d ∧ extends d = Some q
                           ∧ looping (canonical definitions aliases q)) →
  looping (canonical definitions aliases p) →
  getEncoding definitions aliases depth p = Err RangeError.
Proof.
  intros Hclosed. revert p. induction depth as [|depth IH]; intros p Hp; [done |].
  rewrite getEncoding_unfold, getCodepoints_unfold.
  destruct (Hclosed _ Hp) as (d & q & Hd & Hq & Hloop). rewrite Hd.
  rewrite (initial_table_child _ _ q Hq). by rewrite (IH q Hloop).
Qed.

End encode_more.


(** ** The fragments of [autoEncode] *)

Lemma adjacent_differ_snoc (fs : list Fragment) (f : Fragment) :
  adjacent_differ fs →
  (∀ g, last fs = Some g → codepage g ≠ codepage f) →
  adjacent_differ (fs ++ [f]).
Proof.
  induction fs as [|g fs IH]; intros Hadj Hlast; [done |].
  destruct fs as [|g' fs'].
  - simpl. split; [by apply Hlast | done].
  - cbn [adjacent_differ app] in *. destruct Hadj as [Hne Hadj].
    split; [done |]. apply IH; [done |]. intros g0 Hg0. by apply Hlast.
Qed.

Lemma slices_snoc (tbl : string → Codepoints) (input : jsstring) (fs : list Fragment)
    (f : Fragment) (start : nat) (prev : option string) :
  slices tbl input start prev fs →
  (∀ q, match last fs with Some g => Some (codepage g) | None => prev end = Some q →
        findIndex (tbl q) (codePointAt input (start + total_bytes fs)) = -1) →
  bytes f = map (fun c => encoded_byte (tbl (codepage f)) (codePointAt input c))
                (seq (start + total_bytes fs) (length (bytes f))) →
  slices tbl input start prev (fs ++ [f]).
Proof.
  revert start prev. induction fs as [|g fs IH]; intros start prev Hs Hb Hf.
  - simpl in *. unfold total_bytes in *. simpl in *.
    rewrite Nat.add_0_r in *. done.
  - cbn [slices app] in *. destruct Hs as (Hg1 & Hg2 & Hrest).
    split; [done |]. split; [done |].
    assert (Htot : (start + total_bytes (g :: fs)
                    = start + length (bytes g) + total_bytes fs)%nat).
    { unfold total_bytes. simpl. lia. }
    apply IH; [done | |].
    + intros q Hq. rewrite <- Htot. apply Hb.
      rewrite last_cons. by destruct (last fs).
    + by rewrite <- Htot.
Qed.

Lemma table_of_Ok (definitions : gmap string Codepage) (aliases : gmap string string)
    (depth : nat) (p : string) (e : Encoding) :
  getEncoding definitions aliases depth p = Ok e →
  table_of definitions aliases depth p = codepoints e.
Proof. intros He. unfold table_of. by rewrite He. Qed.

Section fragments_facts.
Variable definitions : gmap string Codepage.
Variable aliases : gmap string string.
Variable depth : nat.
Variable input : jsstring.

Lemma stick_outcome (cf : CurrentFragment) (codePoint : option Z) (r : option string * Z) :
  stick definitions aliases depth cf codePoint = Ok r →
  (r = (None, 0)
   ∧ ∀ q, cur_codepage cf = Some q → q ≠ ""%string →
          ∃ e, getEncoding definitions aliases depth q = Ok e
               ∧ findIndex (codepoints e) codePoint = -1)
  ∨ ∃ current e,
      cur_codepage cf = Some current ∧ current ≠ ""%string
      ∧ getEncoding definitions aliases depth current = Ok e
      ∧ findIndex (codepoints e) codePoint ≠ -1
      ∧ r = (Some current, findIndex (codepoints e) codePoint).
Proof.
  unfold stick. destruct (cur_codepage cf) as [current|]; [|intros [= <-]; by left].
  destruct (truthy (Some current)) eqn:Ht.
  - destruct (getEncoding _ _ _ current) as [e|] eqn:He; [|done]. cbn [rbind].
    case_decide as Hp.
    + intros [= <-]. right. exists current, e. by rewrite <- truthy_Some.
    + intros [= <-]. left. split; [done |]. intros q [= <-] _. exists e.
      split; [done | lia].
  - intros [= <-]. left. split; [done |]. intros q [= <-] Hq.
    apply truthy_Some in Hq. congruence.
Qed.

Lemma scan_candidates_outcome (candidates : list string) (codePoint : option Z)
    (before r : option string * Z) :
  scan_candidates definitions aliases depth candidates codePoint before = Ok r →
  (r = before
   ∧ ∀ h, head candidates = Some h →
          ∃ e, getEncoding definitions aliases depth h = Ok e
               ∧ findIndex (codepoints e) codePoint = -1)
  ∨ ∃ cand e,
      cand ∈ candidates
      ∧ getEncoding definitions aliases depth cand = Ok e
      ∧ findIndex (codepoints e) codePoint ≠ -1
      ∧ r = (Some cand, findIndex (codepoints e) codePoint)
      ∧ ∀ h, head candidates = Some h → h ≠ cand →
             ∃ eh, getEncoding definitions aliases depth h = Ok eh
                   ∧ findIndex (codepoints eh) codePoint = -1.
Proof.
  induction candidates as [|cand rest IH]; cbn [scan_candidates].
  - intros [= <-]. left. split; [done |]. by intros h [=].
  - destruct (getEncoding _ _ _ cand) as [e|] eqn:He; [|done]. cbn [rbind].
    case_decide as Hp.
    + intros [= <-]. right. exists cand, e. split; [by left |].
      split; [done |]. split; [done |]. split; [done |].
      intros h [= <-] Hne. done.
    + intros Hr. destruct (IH Hr) as [[-> _]|(c & e' & Hin & He' & Hp' & -> & _)].
      * left. split; [done |]. intros h [= <-]. exists e. split; [done | lia].
      * right. exists c, e'. split; [by right |].
        split; [done |]. split; [done |]. split; [done |].
        intros h [= <-] _. exists e. split; [done | lia].
Qed.

(** The codepage and the byte one turn settles on. *)
Lemma choose_outcome (candidates : list string) (cf : CurrentFragment) (c : nat)
    (a : option string) (ch : Z) :
  truthy (head candidates) = true →
  (∀ q, cur_codepage cf = Some q → q ≠ ""%string) →
  choose definitions aliases depth input candidates cf c = Ok (a, ch) →
  ∃ s e,
    a = Some s ∧ s ≠ ""%string
    ∧ getEncoding definitions aliases depth s = Ok e
    ∧ to_uint8 ch = encoded_byte (codepoints e) (codePointAt input c)
    ∧ (cur_codepage cf = Some s
       ∨ (s ∈ candidates
          ∧ ∀ q, cur_codepage cf = Some q →
                 findIndex (table_of definitions aliases depth q) (codePointAt input c) = -1)).
Proof.
  intros Hhead Hcur. unfold choose.
  destruct (stick _ _ _ cf _) as [sticky|] eqn:Hs; [|done]. cbn [rbind].
  apply stick_outcome in Hs as [[-> Hlacks]|(current & e & Hc & Hne & He & Hp & ->)].
  - cbn [fst truthy].
    destruct (scan_candidates _ _ _ _ _ _) as [r|] eqn:Hscan; [|done]. cbn [rbind].
    assert (Hlack_cur : ∀ q, cur_codepage cf = Some q →
              findIndex (table_of definitions aliases depth q) (codePointAt input c) = -1).
    { intros q Hq. destruct (Hlacks q Hq (Hcur q Hq)) as (e & He & Hp).
      by rewrite (table_of_Ok _ _ _ _ _ He). }
    apply scan_candidates_outcome in Hscan
      as [[-> Hheadlacks]|(cand & e & Hin & He & Hp & -> & Hheadlacks)].
    + cbn [fst truthy]. intros [= <- <-].
      destruct (cur_codepage cf) as [q|] eqn:Hq.
      * pose proof (Hcur q eq_refl) as Hqne.
        rewrite (proj2 (truthy_Some q) Hqne).
        destruct (Hlacks q eq_refl Hqne) as (e & He & Hp).
        exists q, e. split; [done |]. split; [done |]. split; [done |].
        split; [|by left].
        unfold encoded_byte. rewrite decide_False by lia. reflexivity.
      * cbn [truthy].
        apply truthy_is_Some in Hhead as (h & Hh & Hhne).
        destruct (Hheadlacks h Hh) as (e & He & Hp).
        exists h, e. split; [done |]. split; [done |]. split; [done |].
        split.
        -- unfold encoded_byte. rewrite decide_False by lia. reflexivity.
        -- right. split; [by apply head_Some_elem_of | done].
    + cbn [fst]. destruct (truthy (Some cand)) eqn:Ht.
      * intros [= <- <-]. exists cand, e. split; [done |].
        split; [by apply truthy_Some |]. split; [done |].
        split; [unfold encoded_byte; by rewrite decide_True by done |].
        right. done.
      * (* a candidate named by the empty string: the fallback *)
        assert (cand = ""%string) as ->.
        { destruct (decide (cand = ""%string)) as [|Hne]; [done |].
          apply truthy_Some in Hne. congruence. }
        intros [= <- <-].
        destruct (cur_codepage cf) as [q|] eqn:Hq.
        -- pose proof (Hcur q eq_refl) as Hqne.
           rewrite (proj2 (truthy_Some q) Hqne).
           destruct (Hlacks q eq_refl Hqne) as (e' & He' & Hp').
           exists q, e'. split; [done |]. split; [done |]. split; [done |].
           split; [|by left].
           unfold encoded_byte. rewrite decide_False by lia. reflexivity.
        -- cbn [truthy].
           apply truthy_is_Some in Hhead as (h & Hh & Hhne).
           destruct (Hheadlacks h Hh Hhne) as (eh & Heh & Hph).
           exists h, eh. split; [done |]. split; [done |]. split; [done |].
           split.
           ++ unfold encoded_byte. rewrite decide_False by lia. reflexivity.
           ++ right. split; [by apply head_Some_elem_of | done].
  - cbn [fst]. rewrite (proj2 (truthy_Some current) Hne). cbn [rbind fst].
    rewrite (proj2 (truthy_Some current) Hne).
    intros [= <- <-]. exists current, e. split; [done |]. split; [done |].
    split; [done |]. split; [unfold encoded_byte; by rewrite decide_True by done |].
    by left.
Qed.

End fragments_facts.


Lemma to_uint8_is_byte (n : Z) : is_byte (to_uint8 n).
Proof. unfold is_byte, to_uint8. apply Z.mod_pos_bound. lia. Qed.

Lemma encode_as_map (definitions : gmap string Codepage) (aliases : gmap string string)
    (depth : nat) (input : jsstring) (p : string) (e : Encoding) :
  getEncoding definitions aliases depth p = Ok e →
  encode definitions aliases depth input p
  = Ok (map (fun c => encoded_byte (codepoints e) (codePointAt input c))
            (seq 0 (length input))).
Proof.
  intros He. destruct (encode_ok definitions aliases depth input p e He)
    as (o & Ho & Hl & Hg).
  rewrite Ho. f_equal.
  apply list_eq_same_length with (length input);
    [by rewrite length_map, length_seq | done |].
  intros c x y Hc Hx Hy. rewrite Hg in Hx by done.
  rewrite list_lookup_fmap, lookup_seq_lt in Hy by done. simpl in Hy. congruence.
Qed.

Section run_facts.
Variable definitions : gmap string Codepage.
Variable aliases : gmap string string.
Variable depth : nat.
Variable input : jsstring.
Variable candidates : list string.
Hypothesis head_named : truthy (head candidates) = true.

(** Closing the current fragment keeps what [run_ok] says of the
    fragments. *)
Lemma close_run_ok (n : nat) (st : State) (p : string) (e : Encoding) :
  run_ok definitions aliases depth input candidates n st →
  cur_codepage (currentFragment st) = Some p →
  p ≠ ""%string → p ∈ candidates →
  getEncoding definitions aliases depth p = Ok e →
  chars (currentFragment st) ≠ [] →
  map to_uint8 (chars (currentFragment st))
  = map (fun c => encoded_byte (codepoints e) (codePointAt input c))
        (seq (total_bytes (fragments st)) (length (chars (currentFragment st)))) →
  (∀ g, last (fragments st) = Some g →
        codepage g ≠ p
        ∧ findIndex (table_of definitions aliases depth (codepage g))
            (codePointAt input (total_bytes (fragments st))) = -1) →
  flush (fragments st) (currentFragment st)
  = fragments st ++ [mkFragment p (map to_uint8 (chars (currentFragment st)))]
  ∧ Forall (fragment_ok candidates)
      (fragments st ++ [mkFragment p (map to_uint8 (chars (currentFragment st)))])
  ∧ adjacent_differ
      (fragments st ++ [mkFragment p (map to_uint8 (chars (currentFragment st)))])
  ∧ slices (table_of definitions aliases depth) input 0 None
      (fragments st ++ [mkFragment p (map to_uint8 (chars (currentFragment st)))]).
Proof.
  intros Hrun Hcur Hne Hin He Hchars Hmap Hlast.
  split.
  { unfold flush. rewrite Hcur. by rewrite (proj2 (truthy_Some p) Hne). }
  split.
  { apply Forall_app. split; [apply Hrun |]. apply Forall_singleton.
    split; [done |]. split; [done |]. split.
    - simpl. destruct (chars (currentFragment st)); done.
    - simpl. apply Forall_fmap, Forall_true. intros x. apply to_uint8_is_byte. }
  split.
  { apply adjacent_differ_snoc; [apply Hrun |]. intros g Hg. simpl. by apply Hlast. }
  apply slices_snoc; [apply Hrun | |].
  - intros q Hq. destruct (last (fragments st)) as [g|] eqn:Hg; [|done].
    injection Hq as <-. by apply Hlast.
  - simpl. rewrite length_map. by rewrite (table_of_Ok _ _ _ _ _ He).
Qed.

Lemma step_run_ok (n : nat) (st st' : State) :
  run_ok definitions aliases depth input candidates n st →
  autoEncode_step definitions aliases depth input candidates st n = Ok st' →
  run_ok definitions aliases depth input candidates (S n) st'.
Proof.
  intros Hrun. unfold autoEncode_step.
  destruct (choose _ _ _ _ _ _ _) as [[a ch]|] eqn:Hch; [|done].
  cbn [rbind fst snd]. intros [= <-].
  assert (Hcurne : ∀ q, cur_codepage (currentFragment st) = Some q → q ≠ ""%string).
  { intros q Hq. destruct n as [|n].
    - rewrite (run_start _ _ _ _ _ _ _ Hrun eq_refl) in Hq. done.
    - destruct (run_current _ _ _ _ _ _ _ Hrun ltac:(lia)) as (p & e & Hp & Hne & _).
      congruence. }
  destruct (choose_outcome definitions aliases depth input candidates _ _ _ _
              head_named Hcurne Hch) as (s & e & -> & Hsne & He & Hbyte & Horigin).
  destruct n as [|n].
  - (* the first character *)
    rewrite (run_start _ _ _ _ _ _ _ Hrun eq_refl) in *.
    assert (Hplace : place initial (Some s) ch = mkState [] (mkCurrent (Some s) [ch]))
      by reflexivity.
    rewrite Hplace. split; simpl; try done.
    intros _. exists s, e. split; [done |]. split; [done |]. split.
    { destruct Horigin as [Habs|[Hin _]]; [done | done]. }
    split; [done |]. split; [done |]. split.
    { simpl. by rewrite Hbyte. }
    split; [done | done].
  - destruct (run_current _ _ _ _ _ _ _ Hrun ltac:(lia))
      as (p & ep & Hp & Hpne & Hpin & Hep & Hchars & Hmap & Htotal & Hlast).
    destruct (decide (p = s)) as [->|Hps].
    + (* the codepage is kept *)
      assert (ep = e) as -> by congruence.
      rewrite <- Hp. rewrite place_same. rewrite Hp.
      split; cbn [fragments currentFragment cur_codepage chars]; try apply Hrun; try done.
      intros _. exists s, e. split; [done |]. split; [done |]. split; [done |].
      split; [done |]. split; [by destruct (chars (currentFragment st)) |].
      split.
      { rewrite map_app, length_app. simpl length.
        rewrite Nat.add_1_r, seq_S, map_app. rewrite Hmap. simpl.
        by rewrite Htotal, Hbyte. }
      split; [rewrite length_app; simpl; lia | done].
    + (* the codepage changes *)
      destruct (close_run_ok (S n) st p ep Hrun Hp Hpne Hpin Hep Hchars Hmap Hlast)
        as (Hflush & Hall & Hadj & Hslices).
      assert (Hplace : place st (Some s) ch
                = mkState (flush (fragments st) (currentFragment st))
                    (mkCurrent (Some s) [ch])).
      { unfold place. rewrite decide_True by congruence. reflexivity. }
      rewrite Hplace, Hflush.
      assert (Htb : total_bytes (fragments st
                      ++ [mkFragment p (map to_uint8 (chars (currentFragment st)))])
                    = S n).
      { rewrite total_bytes_app. unfold total_bytes at 2. simpl.
        rewrite length_map. lia. }
      split; cbn [fragments currentFragment cur_codepage chars]; try done.
      intros _. exists s, e. split; [done |]. split; [done |]. split.
      { destruct Horigin as [Habs|[Hin _]]; [congruence | done]. }
      split; [done |]. split; [done |]. split.
      { simpl. by rewrite Htb, Hbyte. }
      split; [rewrite Htb; simpl; lia |].
      intros g Hg. rewrite last_snoc in Hg. injection Hg as <-. simpl.
      split; [done |]. rewrite Htb.
      destruct Horigin as [Habs|[_ Hlacks]]; [congruence |]. by apply Hlacks.
Qed.

Lemma loop_run_ok (n : nat) (st : State) :
  autoEncode_loop definitions aliases depth input candidates (seq 0 n) initial = Ok st →
  run_ok definitions aliases depth input candidates n st.
Proof.
  revert st. induction n as [|n IH]; intros st.
  - intros [= <-]. split; simpl; try done. lia.
  - rewrite seq_S, autoEncode_loop_app.
    destruct (autoEncode_loop _ _ _ _ _ (seq 0 n) initial) as [st1|]; [|done].
    cbn [rbind autoEncode_loop Nat.add].
    destruct (autoEncode_step _ _ _ _ _ st1 n) as [st2|] eqn:Hstep; [|done].
    cbn [rbind]. intros [= <-]. apply (step_run_ok n st1); [by apply IH | done].
Qed.

(** Everything a run returns, for candidates that resolve. *)
Lemma autoEncode_result :
  Forall (fun p => returns (getEncoding definitions aliases depth p)) candidates →
  ∃ frags,
    autoEncode definitions aliases depth input candidates = Ok frags
    ∧ Forall (fragment_ok candidates) frags
    ∧ adjacent_differ frags
    ∧ slices (table_of definitions aliases depth) input 0 None frags
    ∧ total_bytes frags = length input.
Proof.
  intros Hcands. unfold autoEncode.
  destruct (loop_kept definitions aliases depth input candidates (seq 0 (length input))
              initial head_named Hcands) as (st & Hloop & _ & _).
  { split; [by right | done]. }
  rewrite Hloop. cbn [rbind]. eexists. split; [reflexivity |].
  pose proof (loop_run_ok (length input) st Hloop) as Hrun.
  destruct (length input) as [|n] eqn:Hn.
  - rewrite (run_start _ _ _ _ _ _ _ Hrun eq_refl). by cbv.
  - destruct (run_current _ _ _ _ _ _ _ Hrun ltac:(lia))
      as (p & ep & Hp & Hpne & Hpin & Hep & Hchars & Hmap & Htotal & Hlast).
    destruct (close_run_ok (S n) st p ep Hrun Hp Hpne Hpin Hep Hchars Hmap Hlast)
      as (Hflush & Hall & Hadj & Hslices).
    rewrite Hflush. split; [done |]. split; [done |]. split; [done |].
    rewrite total_bytes_app. unfold total_bytes at 2. simpl.
    rewrite length_map. lia.
Qed.

(** X12. Every fragment [autoEncode] returns is on one of the candidates, under
    a non-empty name, and holds at least one byte, each in 0..255. *)
Theorem autoEncode_fragments_from_candidates :
  Forall (fun p => returns (getEncoding definitions aliases depth p)) candidates →
  ∃ frags,
    autoEncode definitions aliases depth input candidates = Ok frags
    ∧ Forall (fragment_ok candidates) frags.
Proof.
  intros Hc. destruct (autoEncode_result Hc) as (frags & Hf & Hall & _).
  by exists frags.
Qed.

(** X13. Fragments are merged as far as they go: no two neighbours are on the
    same codepage. *)
Theorem autoEncode_adjacent_differ :
  Forall (fun p => returns (getEncoding definitions aliases depth p)) candidates →
  ∃ frags,
    autoEncode definitions aliases depth input candidates = Ok frags
    ∧ adjacent_differ frags.
Proof.
  intros Hc. destruct (autoEncode_result Hc) as (frags & Hf & _ & Hadj & _).
  by exists frags.
Qed.

(** X14. The fragments cut the input into consecutive slices that cover it. Each
    holds what [encode] stores, index by index, under its own codepage; and
    a fragment ends only where the next code point is not in its table. *)
Theorem autoEncode_slices :
  Forall (fun p => returns (getEncoding definitions aliases depth p)) candidates →
  ∃ frags,
    autoEncode definitions aliases depth input candidates = Ok frags
    ∧ slices (table_of definitions aliases depth) input 0 None frags
    ∧ total_bytes frags = length input.
Proof.
  intros Hc. destruct (autoEncode_result Hc) as (frags & Hf & _ & _ & Hs & Ht).
  by exists frags.
Qed.

End run_facts.

Section single_codepage.
Variable definitions : gmap string Codepage.
Variable aliases : gmap string string.
Variable depth : nat.

(** X15. With one candidate, [autoEncode] is [encode]: nothing for the empty
    string, else one fragment holding what [encode] returns. *)
Theorem autoEncode_single_candidate (input : jsstring) (p : string) (e : Encoding) :
  p ≠ ""%string →
  getEncoding definitions aliases depth p = Ok e →
  ∃ output,
    encode definitions aliases depth input p = Ok output
    ∧ autoEncode definitions aliases depth input [p]
      = Ok (if decide (input = []) then [] else [mkFragment p output]).
Proof.
  intros Hne He.
  rewrite (encode_as_map definitions aliases depth input p e He).
  eexists. split; [reflexivity |].
  destruct (autoEncode_result definitions aliases depth input [p])
    as (frags & Hf & Hall & Hadj & Hs & Ht).
  { by apply truthy_Some. }
  { apply Forall_singleton. by eexists. }
  rewrite Hf. f_equal.
  assert (Hcp : ∀ f, f ∈ frags → codepage f = p).
  { intros f Hin. rewrite Forall_forall in Hall.
    destruct (Hall f Hin) as (Hc & _). by apply list_elem_of_singleton in Hc. }
  destruct frags as [|f [|g rest]].
  - unfold total_bytes in Ht. simpl in Ht.
    rewrite decide_True; [done |]. by destruct input.
  - rewrite decide_False.
    2:{ intros ->.
        destruct (proj1 (Forall_forall _ _) Hall f ltac:(by left)) as (_ & _ & Hb & _).
        unfold total_bytes in Ht. simpl in Ht. destruct (bytes f); simpl in *; done. }
    f_equal. destruct Hs as (_ & Hb & _).
    unfold total_bytes in Ht. simpl in Ht. rewrite Nat.add_0_r in Ht.
    rewrite Ht, (Hcp f ltac:(by left)), (table_of_Ok _ _ _ _ _ He) in Hb.
    destruct f as [cp bs]. simpl in *. f_equal; [by apply (Hcp (mkFragment cp bs)); left | done].
  - exfalso. destruct Hadj as [Hd _]. apply Hd.
    rewrite (Hcp f), (Hcp g); [done | by right; left | by left].
Qed.

(** X16. When the first candidate's table holds every code point the input
    reads, the other candidates are never consulted: the result is one
    fragment on the first candidate, holding what [encode] returns. *)
Theorem autoEncode_first_covers (input : jsstring) (p : string) (rest : list string)
    (e : Encoding) :
  p ≠ ""%string →
  getEncoding definitions aliases depth p = Ok e →
  input ≠ [] →
  (∀ c, (c < length input)%nat → findIndex (codepoints e) (codePointAt input c) ≠ -1) →
  ∃ output,
    encode definitions aliases depth input p = Ok output
    ∧ autoEncode definitions aliases depth input (p :: rest)
      = Ok [mkFragment p output].
Proof.
  intros Hne He Hinput Hcov.
  rewrite (encode_as_map definitions aliases depth input p e He).
  eexists. split; [reflexivity |].
  assert (Hrun : ∀ n, (n < length input)%nat →
    autoEncode_loop definitions aliases depth input (p :: rest) (seq 0 (S n)) initial
    = Ok (mkState []
            (mkCurrent (Some p)
               (map (fun c => findIndex (codepoints e) (codePointAt input c))
                    (seq 0 (S n)))))).
  { induction n as [|n IH]; intros Hn.
    - cbn [seq autoEncode_loop]. unfold autoEncode_step, choose, stick.
      cbn [initial currentFragment cur_codepage rbind fst truthy scan_candidates].
      rewrite He. cbn [rbind]. rewrite decide_True by (apply Hcov; lia).
      cbn [rbind fst snd]. rewrite (proj2 (truthy_Some p) Hne). reflexivity.
    - rewrite seq_S, autoEncode_loop_app, IH by lia.
      cbn [rbind autoEncode_loop Nat.add].
      rewrite (step_sticky definitions aliases depth input (p :: rest) _ (S n) p e);
        [| by intros [= ->] | done | done | apply Hcov; lia].
      cbn [rbind fragments currentFragment chars].
      rewrite decide_False by done.
      by rewrite map_app. }
  unfold autoEncode.
  destruct (length input) as [|n] eqn:Hlen; [by destruct input |].
  rewrite (Hrun n ltac:(lia)). cbn [rbind fragments currentFragment].
  unfold flush. cbn [cur_codepage chars]. rewrite (proj2 (truthy_Some p) Hne).
  cbn [app]. do 3 f_equal. rewrite <- list_fmap_compose.
  apply list_fmap_ext. intros i c Hc. cbn.
  apply lookup_seq in Hc as [-> Hi].
  unfold encoded_byte. by rewrite decide_True by (apply Hcov; lia).
Qed.

End single_codepage.

(** ** The generator's arrays *)

Lemma get_set_at (a : Generator.table) (i j : nat) (v : Generator.jsval) :
  Generator.get_at (Generator.set_at a i v) j
  = if decide (i = j) then v else Generator.get_at a j.
Proof.
  unfold Generator.set_at, Generator.get_at.
  destruct (Nat.ltb_spec i (length a)) as [Hin|Hout].
  - case_decide as E.
    + subst. by rewrite list_lookup_insert_eq.
    + by rewrite list_lookup_insert_ne.
  - case_decide as E.
    + subst. rewrite lookup_app_r by lia.
      rewrite lookup_app_r by (rewrite length_replicate; lia).
      rewrite length_replicate. by rewrite Nat.sub_diag.
    + destruct (decide (j < length a)%nat) as [Hlt|Hge].
      * by rewrite lookup_app_l.
      * rewrite lookup_app_r by lia.
        rewrite (lookup_ge_None_2 a j) by lia. simpl.
        destruct (decide (j - length a < i - length a)%nat) as [Hgap|Hpast].
        -- rewrite lookup_app_l by (rewrite length_replicate; lia).
           by rewrite lookup_replicate_2.
        -- rewrite lookup_app_r by (rewrite length_replicate; lia).
           rewrite length_replicate.
           rewrite lookup_ge_None_2; [done | simpl; lia].
Qed.

Lemma length_set_at (a : Generator.table) (i : nat) (v : Generator.jsval) :
  (i < length a)%nat → length (Generator.set_at a i v) = length a.
Proof.
  intros Hi. unfold Generator.set_at.
  destruct (Nat.ltb_spec i (length a)); [by rewrite length_insert | lia].
Qed.

Lemma get_at_replicate (n i : nat) :
  Generator.get_at (replicate n Generator.JUndefined) i = Generator.JUndefined.
Proof.
  unfold Generator.get_at.
  destruct (decide (i < n)%nat).
  - by rewrite lookup_replicate_2.
  - by rewrite lookup_ge_None_2 by (rewrite length_replicate; lia).
Qed.

Lemma table_ext (a b : Generator.table) :
  length a = length b →
  (∀ i, (i < length a)%nat → Generator.get_at a i = Generator.get_at b i) →
  a = b.
Proof.
  intros Hlen Hget. apply (list_eq_same_length _ _ (length a)); [done | done |].
  intros i x y Hi Hx Hy. specialize (Hget i Hi).
  unfold Generator.get_at in Hget. rewrite Hx, Hy in Hget. done.
Qed.

(** A loop that writes some of the first [n] elements in place. *)
Lemma foldl_set_at (f : nat → option Generator.jsval)
    (g : Generator.table → nat → Generator.table) (n : nat) (a0 : Generator.table) :
  (∀ a i, g a i = match f i with Some v => Generator.set_at a i v | None => a end) →
  (n ≤ length a0)%nat →
  length (foldl g a0 (seq 0 n)) = length a0
  ∧ ∀ j, Generator.get_at (foldl g a0 (seq 0 n)) j
         = if decide (j < n)%nat then default (Generator.get_at a0 j) (f j)
           else Generator.get_at a0 j.
Proof.
  intros Hg. induction n as [|n IH]; intros Hn.
  - split; [done |]. intros j. by rewrite decide_False by lia.
  - destruct IH as [IHlen IHget]; [lia |].
    rewrite seq_S, foldl_app. cbn [foldl Nat.add]. rewrite Hg.
    destruct (f n) as [v|] eqn:Hf.
    + split; [rewrite length_set_at; lia |].
      intros j. rewrite get_set_at, IHget.
      destruct (decide (n = j)) as [<-|Hne].
      * by rewrite decide_True, Hf by lia.
      * destruct (decide (j < n)%nat).
        -- by rewrite decide_True by lia.
        -- by rewrite decide_False by lia.
    + split; [done |]. intros j. rewrite IHget.
      destruct (decide (j < n)%nat).
      * by rewrite decide_True by lia.
      * destruct (decide (j = n)) as [->|].
        -- by rewrite decide_True, Hf by lia.
        -- by rewrite decide_False by lia.
Qed.

Section generator_facts.
Variable encodings : gmap string Generator.Registered.
Variable files : gmap string (list (Z * Z)).

(** What the mapping file says about byte [i]. *)
Lemma gen_getCodepoints_spec (p : string) :
  length (Generator.getCodepoints files p) = 256%nat
  ∧ ∀ i, Generator.get_at (Generator.getCodepoints files p) i
         = if decide (i < 256)%nat then
             match Generator.file_entry files p i with
             | Some v => Generator.JNumber v
             | None => Generator.JUndefined
             end
           else Generator.JUndefined.
Proof.
  unfold Generator.getCodepoints, Generator.file_entry.
  destruct (files !! p) as [rows|]; cbn [mbind option_bind].
  - destruct (foldl_set_at
                (fun i => Generator.JNumber <$> Generator.map_of rows !! Z.of_nat i)
                (fun cps i => match Generator.map_of rows !! Z.of_nat i with
                              | Some v => Generator.set_at cps i (Generator.JNumber v)
                              | None => cps
                              end)
                256 (replicate 256 Generator.JUndefined)) as [Hlen Hget].
    + intros a i. by destruct (Generator.map_of rows !! Z.of_nat i).
    + by rewrite length_replicate.
    + split; [by rewrite Hlen, length_replicate |].
      intros i. rewrite Hget, get_at_replicate.
      case_decide; [|done].
      by destruct (Generator.map_of rows !! Z.of_nat i).
  - split; [by rewrite length_replicate |].
    intros i. rewrite get_at_replicate. by case_decide.
Qed.

Lemma gen_getCodepoints_not_null (p : string) (i : nat) :
  Generator.get_at (Generator.getCodepoints files p) i ≠ Generator.JNull.
Proof.
  rewrite (proj2 (gen_getCodepoints_spec p)).
  case_decide; [|done]. by destruct (Generator.file_entry files p i).
Qed.

(** The loop over the parent's table leaves nothing of it. *)
Lemma overlay_own (base : Generator.table) (p : string) :
  length base = 256%nat →
  Generator.overlay base (Generator.getCodepoints files p) = Generator.getCodepoints files p.
Proof.
  intros Hbase. unfold Generator.overlay.
  set (cps := Generator.getCodepoints files p).
  destruct (foldl_set_at
              (fun i => Some (Generator.get_at cps i))
              (fun base i => if decide (Generator.get_at cps i ≠ Generator.JNull)
                             then Generator.set_at base i (Generator.get_at cps i)
                             else base)
              256 base) as [Hlen Hget].
  - intros a i. rewrite decide_True; [done | apply gen_getCodepoints_not_null].
  - lia.
  - apply table_ext.
    + rewrite Hlen, Hbase. symmetry. apply gen_getCodepoints_spec.
    + intros i Hi. rewrite Hlen, Hbase in Hi. rewrite Hget. by rewrite decide_True.
Qed.

Lemma gen_getEncoding_own (depth : nat) (p : string) (t : Generator.table) :
  Generator.getEncoding encodings files depth p = Ok (Some t) →
  t = Generator.getCodepoints files p.
Proof.
  revert p t. induction depth as [|depth IH]; intros p t; [done |].
  cbn [Generator.getEncoding].
  destruct (encodings !! p) as [enc|]; [|done].
  destruct (truthy (Generator.e_extends enc)); [|by intros [= <-]].
  destruct (Generator.getEncoding encodings files depth _) as [[base|]|x] eqn:Hbase;
    cbn [rbind].
  - intros [= <-]. apply IH in Hbase. subst base.
    apply overlay_own, gen_getCodepoints_spec.
  - by case_decide.
  - done.
Qed.

End generator_facts.

(** ** The diff rows *)

Lemma snoc_of_last {A} (l : list A) (n : nat) (x : A) :
  length l = S n → l !! n = Some x → l = take n l ++ [x].
Proof.
  intros Hlen Hx. rewrite <- (take_S_r l n x Hx).
  by rewrite take_ge by lia.
Qed.

Lemma diff_entry_set_diff (d : list (option Generator.table)) (n i : nat)
    (v : Generator.jsval) :
  (n / 16 < length d)%nat →
  Generator.diff_entry (Generator.set_diff d (n / 16) (n mod 16) v) i
  = if decide (i = n) then v else Generator.diff_entry d i.
Proof.
  intros Hrow. unfold Generator.diff_entry, Generator.set_diff.
  destruct (decide (i / 16 = n / 16)%nat) as [Hr|Hr].
  - rewrite Hr, list_lookup_insert_eq by done. rewrite get_set_at.
    destruct (decide (n mod 16 = i mod 16)%nat) as [Hc|Hc].
    + rewrite decide_True; [done |].
      rewrite (Nat.div_mod_eq i 16), (Nat.div_mod_eq n 16). lia.
    + rewrite decide_False by (intros ->; lia).
      destruct (d !! (n / 16)%nat) as [[r|]|]; [done | |]; apply get_at_replicate.
  - rewrite list_lookup_insert_ne by done.
    rewrite decide_False; [done |]. by intros ->.
Qed.

Lemma scan_step_diffs (result base : Generator.table) (s : Generator.Scan) (i : nat) :
  Generator.diffs (Generator.scan_step result base s i)
  = if Generator.differs result base i
    then Generator.set_diff (Generator.diffs s) (i / 16) (i mod 16)
                            (Generator.get_at result i)
    else Generator.diffs s.
Proof.
  unfold Generator.scan_step.
  replace (Nat.shiftr i 4) with (i / 16)%nat by (by rewrite Nat.shiftr_div_pow2).
  destruct (Generator.differs result base i);
    by destruct (Generator.defined _ && Generator.loose_ne _ _).
Qed.

Lemma set_diff_shape (d : list (option Generator.table)) (n : nat) (v : Generator.jsval) :
  (n < 256)%nat → diffs_shape d →
  diffs_shape (Generator.set_diff d (n / 16) (n mod 16) v).
Proof.
  intros Hn (Hlen & Hlast & Hrows).
  assert (n / 16 < 16)%nat as Hr by (apply Nat.Div0.div_lt_upper_bound; lia).
  assert (n mod 16 < 16)%nat as Hc by (apply Nat.mod_upper_bound; lia).
  unfold Generator.set_diff.
  set (r0 := match d !! (n / 16)%nat with
             | Some (Some r) => r
             | _ => replicate 17 Generator.JUndefined
             end).
  assert (length r0 = 17%nat ∧ r0 !! 16%nat = Some Generator.JUndefined) as [Hr0 Hr0'].
  { unfold r0. destruct (d !! (n / 16)%nat) as [[r|]|] eqn:Hd; [by apply (Hrows _ _ Hd) | |];
      by rewrite length_replicate. }
  split; [by rewrite length_insert |].
  split; [rewrite list_lookup_insert_ne by lia; done |].
  intros r row. destruct (decide (r = n / 16)%nat) as [->|Hne].
  - rewrite list_lookup_insert_eq by lia. intros [= <-].
    split; [rewrite length_set_at; lia |].
    unfold Generator.set_at. rewrite (proj2 (Nat.ltb_lt _ _)) by lia.
    rewrite list_lookup_insert_ne by lia. done.
  - rewrite list_lookup_insert_ne by done. apply Hrows.
Qed.

Lemma scan_S (result base : Generator.table) (n : nat) :
  Generator.scan (S n) result base
  = Generator.scan_step result base (Generator.scan n result base) n.
Proof. unfold Generator.scan. by rewrite seq_S, foldl_app. Qed.

Lemma scan_spec (result base : Generator.table) (n : nat) :
  (n ≤ 256)%nat →
  diffs_shape (Generator.diffs (Generator.scan n result base))
  ∧ ∀ i, Generator.diff_entry (Generator.diffs (Generator.scan n result base)) i
         = if decide (i < n)%nat then
             if Generator.differs result base i then Generator.get_at result i
             else Generator.JUndefined
           else Generator.JUndefined.
Proof.
  induction n as [|n IH]; intros Hn.
  - unfold Generator.scan. cbn [seq foldl Generator.diffs]. split.
    + split; [done |]. split; [done |].
      intros r row Hrow. apply lookup_replicate in Hrow. by destruct Hrow.
    + intros i. rewrite decide_False by lia.
      unfold Generator.diff_entry.
      destruct (replicate 17 (@None Generator.table) !! (i / 16)%nat) as [[r|]|] eqn:Hrow; [|done..].
      apply lookup_replicate in Hrow. by destruct Hrow.
  - destruct IH as [IHshape IHget]; [lia |].
    rewrite scan_S, scan_step_diffs.
    destruct (Generator.differs result base n) eqn:Hd.
    + split; [apply set_diff_shape; [lia | done] |].
      intros i. rewrite diff_entry_set_diff.
      2:{ destruct IHshape as [-> _]. apply Nat.Div0.div_lt_upper_bound. lia. }
      destruct (decide (i = n)) as [->|Hne].
      * by rewrite decide_True, Hd by lia.
      * rewrite IHget. destruct (decide (i < n)%nat).
        -- by rewrite decide_True by lia.
        -- by rewrite decide_False by lia.
    + split; [done |].
      intros i. rewrite IHget.
      destruct (decide (i < n)%nat).
      * by rewrite decide_True by lia.
      * destruct (decide (i = n)) as [->|].
        -- by rewrite decide_True, Hd by lia.
        -- by rewrite decide_False by lia.
Qed.

(** The three ways out of the block. *)
Lemma payload_from_cases (result : Generator.table) (s : Generator.Scan) :
  (Generator.diffs_shorter result s = true →
   Generator.payload_from result s = Generator.VDiffs (Generator.diffs s))
  ∧ (Generator.diffs_shorter result s = false → (128 ≤ Generator.minimum s)%nat →
     Generator.payload_from result s = Generator.VDense (Generator.dense_from result 128))
  ∧ (Generator.diffs_shorter result s = false → (Generator.minimum s < 128)%nat →
     Generator.payload_from result s = Generator.VDense result).
Proof.
  unfold Generator.payload_from, Generator.dense_start.
  split; [by intros -> |]. split; intros -> Hmin.
  - by rewrite (proj2 (Nat.leb_le _ _) Hmin).
  - by rewrite (proj2 (Nat.leb_gt _ _) Hmin).
Qed.

(** ** The printed array, read back *)

Lemma elide_snoc {A} (is_hole : A → bool) (l : list A) (x : A) :
  Generator.elide is_hole (l ++ [x]) = if is_hole x then l else l ++ [x].
Proof.
  unfold Generator.elide. rewrite last_snoc.
  destruct (is_hole x); [apply removelast_last | done].
Qed.

Lemma written_row_lookup (row : Generator.table) (c : nat) :
  length row = 17%nat → row !! 16%nat = Some Generator.JUndefined → (c < 16)%nat →
  mjoin (Generator.written_row row !! c) = Generator.as_number (Generator.get_at row c).
Proof.
  intros Hlen Hlast Hc. unfold Generator.written_row.
  rewrite (snoc_of_last row 16 _ Hlen Hlast) at 1.
  rewrite map_app. cbn [map Generator.as_number]. rewrite elide_snoc.
  change (map Generator.as_number (take 16 row)) with (Generator.as_number <$> take 16 row).
  rewrite list_lookup_fmap, lookup_take_lt by done.
  unfold Generator.get_at.
  destruct (lookup_lt_is_Some_2 row c ltac:(lia)) as [x ->]. done.
Qed.

Lemma written_diffs (d : list (option Generator.table)) :
  diffs_shape d →
  length (Generator.written (Generator.VDiffs d)) = 16%nat
  ∧ ∀ k, (k < 256)%nat →
         sparse_entry (Generator.written (Generator.VDiffs d)) k
         = Generator.as_number (Generator.diff_entry d k).
Proof.
  intros (Hlen & Hlast & Hrows).
  assert (Generator.written (Generator.VDiffs d)
          = map (fun r => match r with
                          | Some r => Row (Generator.written_row r)
                          | None => Hole
                          end) (take 16 d)) as ->.
  { unfold Generator.written.
    rewrite (snoc_of_last d 16 _ Hlen Hlast) at 1.
    rewrite map_app. cbn [map]. by rewrite elide_snoc. }
  split; [rewrite length_map, length_take; lia |].
  intros k Hk. unfold sparse_entry, Generator.diff_entry.
  rewrite decide_True by done.
  assert (k / 16 < 16)%nat as Hr by (apply Nat.Div0.div_lt_upper_bound; lia).
  assert (k mod 16 < 16)%nat as Hc by (apply Nat.mod_upper_bound; lia).
  match goal with |- context [map ?f (take 16 d)] =>
    change (map f (take 16 d)) with (f <$> take 16 d) end.
  rewrite list_lookup_fmap, lookup_take_lt by done.
  destruct (d !! (k / 16)%nat) as [[row|]|] eqn:Hd; cbn [fmap option_fmap option_map]; [|done..].
  destruct (Hrows _ _ Hd) as [Hrl Hr16].
  by apply written_row_lookup.
Qed.

Lemma written_dense (a : Generator.table) :
  (length a - 1 ≤ length (Generator.written (Generator.VDense a)) ≤ length a)%nat
  ∧ ∀ k, dense_entry 0 (Generator.written (Generator.VDense a)) k
         = Generator.as_number (Generator.get_at a k).
Proof.
  unfold Generator.written.
  set (f := fun x => match Generator.as_number x with Some n => Num n | None => Hole end).
  assert (∀ (l : list Slot) k,
            dense_entry 0 l k
            = match l !! k with Some (Num n) => Some n | _ => None end) as Hraw.
  { intros l k. unfold dense_entry. rewrite decide_True by lia.
    by replace (Z.to_nat (Z.of_nat k - 0)) with k by lia. }
  assert (∀ l k, dense_entry 0 (map f l) k = Generator.as_number (Generator.get_at l k)) as Hmap.
  { intros l k. rewrite Hraw. unfold Generator.get_at.
    change (map f l) with (f <$> l). rewrite list_lookup_fmap.
    destruct (l !! k) as [x|]; [|done]. simpl. unfold f.
    by destruct (Generator.as_number x). }
  destruct (last (map f a)) as [x|] eqn:Hl.
  - apply last_Some in Hl as [l' Hl']. rewrite Hl', elide_snoc.
    assert (length a = S (length l')) as Hlen.
    { rewrite <- (length_map f a), Hl', length_app. simpl. lia. }
    destruct (Generator.is_hole x) eqn:Hx.
    + split; [lia |]. intros k. rewrite <- Hmap, Hl', !Hraw.
      destruct (decide (k < length l')%nat).
      * by rewrite lookup_app_l by lia.
      * rewrite (lookup_ge_None_2 l' k) by lia.
        destruct (decide (k = length l')) as [->|].
        -- rewrite list_lookup_middle by done. by destruct x.
        -- rewrite lookup_ge_None_2; [done | rewrite length_app; simpl; lia].
    + split; [rewrite length_app; simpl; lia |].
      intros k. by rewrite <- Hl', Hmap.
  - unfold Generator.elide. rewrite Hl. split; [rewrite length_map; lia |].
    intros k. apply Hmap.
Qed.

Lemma dense_from_spec (result : Generator.table) (off : nat) :
  length (Generator.dense_from result off) = (length result - off)%nat
  ∧ ∀ j, Generator.get_at (Generator.dense_from result off) j
         = if decide (j < length result - off)%nat then
             if Generator.is_number (Generator.get_at result (off + j))
             then Generator.get_at result (off + j)
             else Generator.JUndefined
           else Generator.JUndefined.
Proof.
  unfold Generator.dense_from.
  set (m := (length result - off)%nat).
  replace (seq off m) with ((fun j => off + j)%nat <$> seq 0 m)
    by (rewrite fmap_add_seq; f_equal; lia).
  rewrite foldl_fmap.
  destruct (foldl_set_at
              (fun j => if Generator.is_number (Generator.get_at result (off + j))
                        then Some (Generator.get_at result (off + j)) else None)
              (fun value j =>
                 if Generator.is_number (Generator.get_at result (off + j))
                 then Generator.set_at value (off + j - off)
                                       (Generator.get_at result (off + j))
                 else value)
              m (replicate m Generator.JUndefined)) as [Hlen Hget].
  - intros a i. replace (off + i - off)%nat with i by lia.
    by destruct (Generator.is_number _).
  - by rewrite length_replicate.
  - split; [by rewrite Hlen, length_replicate |].
    intros j. rewrite Hget, get_at_replicate.
    case_decide; [|done]. by destruct (Generator.is_number _).
Qed.

(** ** From the mapping files to the runtime table *)

Section generator_results.
Variable encodings : gmap string Generator.Registered.
Variable files : gmap string (list (Z * Z)).

Lemma gen_entry (p : string) (i : nat) :
  (i < 256)%nat →
  Generator.as_number (Generator.get_at (Generator.getCodepoints files p) i)
  = Generator.file_entry files p i.
Proof.
  intros Hi. rewrite (proj2 (gen_getCodepoints_spec files p)), decide_True by done.
  by destruct (Generator.file_entry files p i).
Qed.

Lemma gen_getEncoding_unfold (depth : nat) (p : string) :
  Generator.getEncoding encodings files (S depth) p
  = match encodings !! p with
    | None => Ok None
    | Some encoding =>
        if truthy (Generator.e_extends encoding) then
          let* base := Generator.getEncoding encodings files depth
                         (default ""%string (Generator.e_extends encoding)) in
          match base with
          | Some base => Ok (Some (Generator.overlay base (Generator.getCodepoints files p)))
          | None =>
              if decide (Forall (fun i => Generator.get_at (Generator.getCodepoints files p) i
                                          = Generator.JNull) (seq 0 256))
              then Ok None
              else Err TypeError
          end
        else Ok (Some (Generator.getCodepoints files p))
    end.
Proof. reflexivity. Qed.

Lemma gen_getEncoding_mono (depth depth' : nat) (p : string) (r : option Generator.table) :
  (depth ≤ depth')%nat →
  Generator.getEncoding encodings files depth p = Ok r →
  Generator.getEncoding encodings files depth' p = Ok r.
Proof.
  revert depth' p r. induction depth as [|depth IH]; intros depth' p r Hle; [done |].
  destruct depth' as [|depth']; [lia |].
  cbn [Generator.getEncoding].
  destruct (encodings !! p) as [enc|]; [|done].
  destruct (truthy (Generator.e_extends enc)); [|done].
  destruct (Generator.getEncoding encodings files depth _) as [base|x] eqn:Hbase; [|done].
  by rewrite (IH depth' _ base ltac:(lia) Hbase).
Qed.

Lemma gen_getEncoding_child (depth : nat) (p parent : string)
    (enc : Generator.Registered) (result : Generator.table) :
  encodings !! p = Some enc →
  Generator.e_extends enc = Some parent → parent ≠ ""%string →
  Generator.getEncoding encodings files depth p = Ok (Some result) →
  result = Generator.getCodepoints files p
  ∧ Generator.getEncoding encodings files depth parent
    = Ok (Some (Generator.getCodepoints files parent)).
Proof.
  intros Henc Hext Hparent Hres.
  split; [by apply (gen_getEncoding_own encodings files depth) |].
  destruct depth as [|depth]; [done |].
  rewrite gen_getEncoding_unfold, Henc, Hext in Hres.
  rewrite (proj2 (truthy_Some parent) Hparent) in Hres.
  change (default ""%string (Some parent)) with parent in Hres.
  destruct (Generator.getEncoding encodings files depth parent) as [[base|]|x] eqn:Hbase.
  - apply (gen_getEncoding_mono depth (S depth)); [lia |].
    by rewrite (gen_getEncoding_own encodings files _ _ _ Hbase) in Hbase.
  - exfalso. revert Hres. unfold rbind. by case_decide.
  - done.
Qed.

(** What [getDefinition] returns for a codepage that extends another. *)
Lemma getDefinition_child (depth : nat) (p parent : string)
    (enc : Generator.Registered) (result : Generator.table) :
  encodings !! p = Some enc →
  Generator.e_extends enc = Some parent → parent ≠ ""%string →
  Generator.getEncoding encodings files depth p = Ok (Some result) →
  Generator.getDefinition encodings files depth p
  = Ok (Some (Generator.mkEntry enc 0
                (Some (Generator.payload_from
                         (Generator.getCodepoints files p)
                         (Generator.scan 256 (Generator.getCodepoints files p)
                                         (Generator.getCodepoints files parent)))))).
Proof.
  intros Henc Hext Hparent Hres.
  destruct (gen_getEncoding_child depth p parent enc result) as [-> Hbase]; [done..|].
  unfold Generator.getDefinition. rewrite Henc, Hres, Hext. cbn [rbind default from_option id].
  rewrite (proj2 (truthy_Some parent) Hparent), Hbase. done.
Qed.

(** The runtime table of a printed entry whose payload is [v]. *)
Lemma emitted_child (p parent : string) (enc : Generator.Registered) (v : Generator.payload) :
  Generator.e_extends enc = Some parent → parent ≠ ""%string → p ≠ "ascii"%string →
  Generator.emitted p (Generator.mkEntry enc 0 (Some v))
  = Some (mkCodepage (Generator.e_name enc) (Generator.e_languages enc)
                     (Some parent) None (Some (Generator.written v))).
Proof.
  intros Hext Hparent Hp. unfold Generator.emitted.
  rewrite decide_False by done. cbn [Generator.d_value Generator.d_encoding Generator.d_offset].
  by rewrite Hext, (proj2 (truthy_Some parent) Hparent).
Qed.

Lemma differs_files (p parent : string) (i : nat) :
  (i < 256)%nat →
  Generator.differs (Generator.getCodepoints files p) (Generator.getCodepoints files parent) i
  = match Generator.file_entry files p i with
    | Some n => if decide (Generator.file_entry files parent i = Some n) then false else true
    | None => false
    end.
Proof.
  intros Hi. unfold Generator.differs.
  rewrite !(proj2 (gen_getCodepoints_spec files _)), !decide_True by done.
  destruct (Generator.file_entry files p i) as [n|]; [|done].
  destruct (Generator.file_entry files parent i) as [m|]; cbn.
  - destruct (Z.eqb_spec n m) as [->|Hne].
    + by rewrite decide_True.
    + rewrite decide_False; [done | congruence].
  - by rewrite decide_False.
Qed.

(** X17. The generator's [getEncoding] takes nothing from the parent: for a
    codepage that extends another whose table resolves, it returns the
    codepage's own file table, holes included. *)
Theorem generator_getEncoding_drops_parent (depth : nat) (p parent : string)
    (enc : Generator.Registered) (base : Generator.table) :
  encodings !! p = Some enc →
  Generator.e_extends enc = Some parent → parent ≠ ""%string →
  Generator.getEncoding encodings files depth parent = Ok (Some base) →
  Generator.getEncoding encodings files (S depth) p
  = Ok (Some (Generator.getCodepoints files p)).
Proof.
  intros Henc Hext Hparent Hbase.
  rewrite gen_getEncoding_unfold, Henc, Hext.
  rewrite (proj2 (truthy_Some parent) Hparent).
  change (default ""%string (Some parent)) with parent. rewrite Hbase. unfold rbind.
  rewrite overlay_own; [done |].
  rewrite (gen_getEncoding_own encodings files _ _ _ Hbase).
  apply gen_getCodepoints_spec.
Qed.

(** X18. A codepage that extends nothing survives the round trip: the
    runtime table built from its printed entry holds, at every byte, the
    code point its mapping file gives, and the sentinel where the file
    gives none. *)
Theorem generated_root_round_trip (depth : nat) (p : string) (enc : Generator.Registered) :
  encodings !! p = Some enc →
  truthy (Generator.e_extends enc) = false →
  p ≠ "ascii"%string →
  ∃ gd cp,
    Generator.getDefinition encodings files (S depth) p = Ok (Some gd)
    ∧ Generator.emitted p gd = Some cp
    ∧ ∀ (definitions : gmap string Codepage) (aliases : gmap string string),
        aliases !! p = None → definitions !! p = Some cp →
        ∃ e, getEncoding definitions aliases 1 p = Ok e
             ∧ ∀ i, (i < 256)%nat →
                    js_get (codepoints e) i
                    = Some (default sentinel (Generator.file_entry files p i)).
Proof.
  intros Henc Hext Hp.
  eexists _, _. split; [|split].
  - unfold Generator.getDefinition. rewrite Henc.
    cbn [Generator.getEncoding]. rewrite Henc, Hext. reflexivity.
  - unfold Generator.emitted. rewrite decide_False by done.
    cbn [Generator.d_value Generator.d_encoding Generator.d_offset fmap option_fmap option_map].
    rewrite Hext. reflexivity.
  - intros definitions aliases Hal Hdef.
    rewrite getEncoding_unfold.
    assert (canonical definitions aliases p = p) as ->.
    { unfold canonical. rewrite Hal. cbn [default from_option id]. by rewrite Hdef. }
    rewrite Hdef, getCodepoints_unfold, Hdef.
    rewrite initial_table_root by done. cbn [rbind].
    eexists. split; [reflexivity |].
    intros i Hi. cbn [codepoints]. rewrite write_value_by_shape.
    unfold override_at. cbn [value offset default from_option id].
    destruct (written_dense (Generator.getCodepoints files p)) as [Hlen Hget].
    rewrite (proj1 (gen_getCodepoints_spec files p)) in Hlen.
    rewrite decide_False by lia.
    rewrite Hget, gen_entry by done.
    destruct (Generator.file_entry files p i) as [n|]; [done |].
    unfold js_get. by rewrite lookup_replicate_2.
Qed.

(** X19. When the diff rows are the shorter text, the runtime table of the
    printed entry holds the code point of the codepage's file wherever the
    parent's file does not give the same one, and is the table it was
    written over everywhere else. *)
Theorem generated_diffs_round_trip (depth : nat) (p parent : string)
    (enc : Generator.Registered) (result : Generator.table) :
  encodings !! p = Some enc →
  Generator.e_extends enc = Some parent → parent ≠ ""%string →
  p ≠ "ascii"%string →
  Generator.getEncoding encodings files depth p = Ok (Some result) →
  Generator.diffs_shorter (Generator.getCodepoints files p)
                          (Generator.scan 256 (Generator.getCodepoints files p)
                                          (Generator.getCodepoints files parent)) = true →
  ∃ gd cp,
    Generator.getDefinition encodings files depth p = Ok (Some gd)
    ∧ Generator.emitted p gd = Some cp
    ∧ ∀ (rt : Codepoints) i, (i < 256)%nat →
        js_get (write_value cp rt) i
        = match Generator.file_entry files p i with
          | Some n =>
              if decide (Generator.file_entry files parent i = Some n) then js_get rt i
              else Some n
          | None => js_get rt i
          end.
Proof.
  intros Henc Hext Hparent Hp Hres Hshort.
  eexists _, _. split; [by apply (getDefinition_child depth p parent enc result) |].
  split; [by apply emitted_child |].
  intros rt i Hi. rewrite write_value_by_shape.
  unfold override_at. cbn [value offset default from_option id].
  rewrite (proj1 (payload_from_cases _ _) Hshort).
  destruct (scan_spec (Generator.getCodepoints files p) (Generator.getCodepoints files parent)
              256 ltac:(lia)) as [Hshape Hget].
  destruct (written_diffs _ Hshape) as [Hlen Hentry].
  rewrite decide_True by done. rewrite Hentry, Hget by done.
  rewrite decide_True, differs_files by done.
  destruct (Generator.file_entry files p i) as [n|] eqn:Hf; [|done].
  case_decide; [done |].
  by rewrite gen_entry, Hf.
Qed.

(** X20. When no byte below 128 differs from the parent and the diff rows
    are not the shorter text, the payload starts at byte 128 but the entry
    is printed without an offset: the runtime writes the file's code point
    for byte [128 + k] at index [k], and leaves the upper half as it was. *)
Theorem generated_dense_upper_half_misplaced (depth : nat) (p parent : string)
    (enc : Generator.Registered) (result : Generator.table) :
  encodings !! p = Some enc →
  Generator.e_extends enc = Some parent → parent ≠ ""%string →
  p ≠ "ascii"%string →
  Generator.getEncoding encodings files depth p = Ok (Some result) →
  Generator.diffs_shorter (Generator.getCodepoints files p)
                          (Generator.scan 256 (Generator.getCodepoints files p)
                                          (Generator.getCodepoints files parent)) = false →
  (128 ≤ Generator.minimum (Generator.scan 256 (Generator.getCodepoints files p)
                                          (Generator.getCodepoints files parent)))%nat →
  ∃ gd cp,
    Generator.getDefinition encodings files depth p = Ok (Some gd)
    ∧ Generator.d_offset gd = 0
    ∧ Generator.emitted p gd = Some cp
    ∧ offset cp = None
    ∧ ∀ (rt : Codepoints) k, (k < 256)%nat →
        js_get (write_value cp rt) k
        = if decide (k < 128)%nat then
            match Generator.file_entry files p (128 + k) with
            | Some n => Some n
            | None => js_get rt k
            end
          else js_get rt k.
Proof.
  intros Henc Hext Hparent Hp Hres Hlong Hmin.
  eexists _, _. split; [by apply (getDefinition_child depth p parent enc result) |].
  split; [done |]. split; [by apply emitted_child |]. split; [done |].
  intros rt k Hk. rewrite write_value_by_shape.
  unfold override_at. cbn [value offset default from_option id].
  rewrite (proj1 (proj2 (payload_from_cases _ _)) Hlong Hmin).
  destruct (written_dense (Generator.dense_from (Generator.getCodepoints files p) 128))
    as [Hlen Hget].
  destruct (dense_from_spec (Generator.getCodepoints files p) 128) as [Hdl Hdg].
  rewrite (proj1 (gen_getCodepoints_spec files p)) in Hdl, Hdg.
  rewrite Hdl in Hlen. rewrite decide_False by lia.
  rewrite Hget, Hdg.
  replace (256 - 128)%nat with 128%nat by lia.
  case_decide; [|done].
  pose proof (gen_entry p (128 + k) ltac:(lia)) as He.
  destruct (Generator.get_at (Generator.getCodepoints files p) (128 + k)) as [| |n];
    cbn in He |- *; by rewrite <- He.
Qed.

(** X21. When some byte below 128 differs from the parent and the diff rows
    are not the shorter text, the whole table is printed: the runtime table
    holds the file's code point at every byte the file covers, and is the
    table it was written over elsewhere. *)
Theorem generated_dense_round_trip (depth : nat) (p parent : string)
    (enc : Generator.Registered) (result : Generator.table) :
  encodings !! p = Some enc →
  Generator.e_extends enc = Some parent → parent ≠ ""%string →
  p ≠ "ascii"%string →
  Generator.getEncoding encodings files depth p = Ok (Some result) →
  Generator.diffs_shorter (Generator.getCodepoints files p)
                          (Generator.scan 256 (Generator.getCodepoints files p)
                                          (Generator.getCodepoints files parent)) = false →
  (Generator.minimum (Generator.scan 256 (Generator.getCodepoints files p)
                                          (Generator.getCodepoints files parent)) < 128)%nat →
  ∃ gd cp,
    Generator.getDefinition encodings files depth p = Ok (Some gd)
    ∧ Generator.emitted p gd = Some cp
    ∧ ∀ (rt : Codepoints) i, (i < 256)%nat →
        js_get (write_value cp rt) i
        = match Generator.file_entry files p i with
          | Some n => Some n
          | None => js_get rt i
          end.
Proof.
  intros Henc Hext Hparent Hp Hres Hlong Hmin.
  eexists _, _. split; [by apply (getDefinition_child depth p parent enc result) |].
  split; [by apply emitted_child |].
  intros rt i Hi. rewrite write_value_by_shape.
  unfold override_at. cbn [value offset default from_option id].
  rewrite (proj2 (proj2 (payload_from_cases _ _)) Hlong Hmin).
  destruct (written_dense (Generator.getCodepoints files p)) as [Hlen Hget].
  rewrite (proj1 (gen_getCodepoints_spec files p)) in Hlen.
  rewrite decide_False by lia.
  by rewrite Hget, gen_entry.
Qed.

(** [getDefinition] has one value for [offset]. *)
Lemma getDefinition_offset (depth : nat) (p : string) (gd : Generator.Entry) :
  Generator.getDefinition encodings files depth p = Ok (Some gd) →
  Generator.d_offset gd = 0.
Proof.
  unfold Generator.getDefinition.
  destruct (encodings !! p) as [enc|]; [|done].
  destruct (Generator.getEncoding encodings files depth p) as [result|x]; [|done].
  unfold rbind at 1.
  destruct (truthy (Generator.e_extends enc)); [|by intros [= <-]].
  destruct (Generator.getEncoding encodings files depth _) as [base|x]; [|done].
  unfold rbind at 1.
  destruct result as [result|]; [|done].
  destruct base as [base|]; [by intros [= <-] |].
  destruct (existsb _ _); [done | by intros [= <-]].
Qed.

(** X22. The entry printed for ["ascii"] does not depend on its mapping
    file: whatever [getDefinition] returned, the runtime reads the
    identity on bytes 0..127 from it and nothing above. *)
Theorem generated_ascii_ignores_file (depth : nat) (gd : Generator.Entry) :
  Generator.getDefinition encodings files depth "ascii" = Ok (Some gd) →
  ∃ cp,
    Generator.emitted "ascii" gd = Some cp
    ∧ ∀ (rt : Codepoints) i,
        js_get (write_value cp rt) i
        = if decide (i < 128)%nat then Some (Z.of_nat i) else js_get rt i.
Proof.
  intros Hgd. apply getDefinition_offset in Hgd.
  unfold Generator.emitted. rewrite decide_True by done. rewrite Hgd.
  eexists. split; [reflexivity |].
  intros rt i. rewrite write_value_by_shape.
  unfold override_at. cbn [value offset default from_option id].
  unfold Generator.ascii_payload.
  set (a := map (fun i => Generator.JNumber (Z.of_nat i)) (seq 0 128)
            ++ replicate 128 Generator.JUndefined).
  destruct (written_dense a) as [Hlen Hget].
  assert (length a = 256%nat) as Ha
    by (unfold a; rewrite length_app, length_map, length_seq, length_replicate; lia).
  rewrite decide_False by lia.
  rewrite Hget. unfold a, Generator.get_at.
  change (map (fun i => Generator.JNumber (Z.of_nat i)) (seq 0 128))
    with ((fun i => Generator.JNumber (Z.of_nat i)) <$> seq 0 128).
  destruct (decide (i < 128)%nat) as [Hi|Hi].
  - rewrite lookup_app_l by (rewrite length_fmap, length_seq; lia).
    by rewrite list_lookup_fmap, lookup_seq_lt.
  - rewrite lookup_app_r by (rewrite length_fmap, length_seq; lia).
    rewrite length_fmap, length_seq.
    destruct (decide (i - 128 < 128)%nat).
    + by rewrite lookup_replicate_2.
    + by rewrite lookup_ge_None_2 by (rewrite length_replicate; lia).
Qed.

End generator_results.

(** ** The printed aliases *)

Lemma generateAliases_pairs (entries : list (string * Generator.Registered)) (a c : string) :
  (a, c) ∈ Generator.generateAliases entries
  ↔ ∃ enc names, (c, enc) ∈ entries ∧ Generator.e_aliases enc = Some names ∧ a ∈ names.
Proof.
  unfold Generator.generateAliases.
  assert (Hinner : ∀ (names : list string) (acc : list (string * string)) (k : string),
            (a, c) ∈ foldl (fun aliases alias => aliases ++ [(alias, k)]) acc names
            ↔ (a, c) ∈ acc ∨ (k = c ∧ a ∈ names)).
  { induction names as [|n names IH]; intros acc k; cbn [foldl].
    - split; [by left | intros [H | [_ H]]; [done | by apply elem_of_nil in H]].
    - rewrite IH, elem_of_app, list_elem_of_singleton, elem_of_cons. split.
      + intros [[H | [= -> ->]] | [-> H]]; [by left | right; split; [done | by left] |].
        right. split; [done | by right].
      + intros [H | [-> [-> | H]]]; [by left; left | by left; right |].
        right. by split. }
  assert (Houter : ∀ (es : list (string * Generator.Registered)) (acc : list (string * string)),
            (a, c) ∈ foldl (fun aliases entry =>
                              match Generator.e_aliases (snd entry) with
                              | Some names =>
                                  foldl (fun aliases alias => aliases ++ [(alias, fst entry)])
                                        aliases names
                              | None => aliases
                              end) acc es
            ↔ (a, c) ∈ acc
              ∨ ∃ enc names, (c, enc) ∈ es ∧ Generator.e_aliases enc = Some names ∧ a ∈ names).
  { induction es as [|[k enc] es IH]; intros acc; cbn [foldl fst snd].
    - split; [by left | intros [H | (enc & names & H & _)]; [done | by apply elem_of_nil in H]].
    - rewrite IH. destruct (Generator.e_aliases enc) as [names|] eqn:Hal.
      + rewrite Hinner. split.
        * intros [[H | [-> H]] | (enc' & names' & Hin & Hal' & Ha)]; [by left | |].
          -- right. exists enc, names. split; [by left | done].
          -- right. exists enc', names'. split; [by right | done].
        * intros [H | (enc' & names' & Hin & Hal' & Ha)]; [by left; left |].
          apply elem_of_cons in Hin as [[= <- <-] | Hin].
          -- left. right. split; [done |]. congruence.
          -- right. by exists enc', names'.
      + split.
        * intros [H | (enc' & names' & Hin & Hal' & Ha)]; [by left |].
          right. exists enc', names'. split; [by right | done].
        * intros [H | (enc' & names' & Hin & Hal' & Ha)]; [by left |].
          apply elem_of_cons in Hin as [[= <- <-] | Hin]; [congruence |].
          right. by exists enc', names'. }
  rewrite Houter. split; [intros [H | H]; [by apply elem_of_nil in H | done] | by right].
Qed.

Lemma loaded_lookup (pairs : list (string * string)) (a c : string) :
  (Generator.loaded pairs !! a = Some c → (a, c) ∈ pairs)
  ∧ ((a, c) ∈ pairs → (∀ c', (a, c') ∈ pairs → c' = c) →
     Generator.loaded pairs !! a = Some c).
Proof.
  unfold Generator.loaded.
  assert (H : ∀ (ps : list (string * string)) (m : gmap string string),
            (foldl (fun m pair => <[fst pair := snd pair]> m) m ps !! a = Some c →
             (a, c) ∈ ps ∨ m !! a = Some c)
            ∧ ((∀ c', (a, c') ∈ ps → c' = c) → ((a, c) ∈ ps ∨ m !! a = Some c) →
               foldl (fun m pair => <[fst pair := snd pair]> m) m ps !! a = Some c)).
  { induction ps as [|[k v] ps IH]; intros m; cbn [foldl fst snd].
    - split; [by right | intros _ [Hin | Hm]; [by apply elem_of_nil in Hin | done]].
    - destruct (IH (<[k := v]> m)) as [IH1 IH2]. split.
      + intros Hl. destruct (IH1 Hl) as [Hin | Hm]; [by left; right |].
        destruct (decide (k = a)) as [-> | Hne].
        * rewrite lookup_insert_eq in Hm. injection Hm as ->. left. by left.
        * rewrite lookup_insert_ne in Hm by done. by right.
      + intros Huniq Hor. apply IH2; [intros c' Hc'; apply Huniq; by right |].
        destruct (decide (k = a)) as [-> | Hne].
        * right. rewrite lookup_insert_eq. f_equal. apply Huniq. by left.
        * destruct Hor as [Hin | Hm].
          -- apply elem_of_cons in Hin as [[= -> ->] | Hin]; [done | by left].
          -- right. by rewrite lookup_insert_ne. }
  split.
  - intros Hl. destruct (proj1 (H pairs ∅) Hl) as [? | Hm]; [done |].
    by rewrite lookup_empty in Hm.
  - intros Hin Huniq. apply (proj2 (H pairs ∅)); [done | by left].
Qed.

Section aliases_results.
Variable entries : list (string * Generator.Registered).
Variable definitions : gmap string Codepage.

(** X23. Every printed alias stands for a codepage that lists it; where the
    runtime holds a definition for every registered codepage, [supports]
    accepts every printed alias. *)
Theorem generated_aliases_supported (a c : string) :
  (∀ k enc, (k, enc) ∈ entries → is_Some (definitions !! k)) →
  Generator.loaded (Generator.generateAliases entries) !! a = Some c →
  (∃ enc names, (c, enc) ∈ entries ∧ Generator.e_aliases enc = Some names ∧ a ∈ names)
  ∧ supports definitions (Generator.loaded (Generator.generateAliases entries)) a = true.
Proof.
  intros Hdefs Hl.
  pose proof (proj1 (loaded_lookup _ a c) Hl) as Hin.
  apply generateAliases_pairs in Hin as (enc & names & Hin & Hal & Ha).
  split; [by exists enc, names |].
  unfold supports. rewrite Hl.
  by destruct (Hdefs c enc Hin) as [d ->].
Qed.

(** X24. An alias that one codepage only lists stands for that codepage. *)
Theorem generated_alias_of_one (a c : string) (enc : Generator.Registered)
    (names : list string) :
  (c, enc) ∈ entries → Generator.e_aliases enc = Some names → a ∈ names →
  (∀ k enc' names', (k, enc') ∈ entries → Generator.e_aliases enc' = Some names' →
                    a ∈ names' → k = c) →
  Generator.loaded (Generator.generateAliases entries) !! a = Some c.
Proof.
  intros Hin Hal Ha Huniq. apply loaded_lookup.
  - apply generateAliases_pairs. by exists enc, names.
  - intros c' Hc'. apply generateAliases_pairs in Hc' as (enc' & names' & Hin' & Hal' & Ha').
    by apply (Huniq c' enc' names').
Qed.

End aliases_results.

Lemma generator_getEncoding_drops_parent_witness :
  Generator.getEncoding sample_encodings sample_files 2 "upper"
  = Ok (Some (Generator.getCodepoints sample_files "upper")).
Proof.
  apply (generator_getEncoding_drops_parent sample_encodings sample_files 1
           "upper" "ascii" upper_registered
           (Generator.getCodepoints sample_files "ascii"));
    [vm_compute; reflexivity | reflexivity | discriminate | vm_compute; reflexivity].
Defined.

Lemma generated_root_round_trip_witness :
  ∃ gd cp,
    Generator.getDefinition sample_encodings sample_files 1 "greekish" = Ok (Some gd)
    ∧ Generator.emitted "greekish" gd = Some cp
    ∧ ∀ (definitions : gmap string Codepage) (aliases : gmap string string),
        aliases !! "greekish"%string = None → definitions !! "greekish"%string = Some cp →
        ∃ e, getEncoding definitions aliases 1 "greekish" = Ok e
             ∧ ∀ i, (i < 256)%nat →
                    js_get (codepoints e) i
                    = Some (default sentinel (Generator.file_entry sample_files "greekish" i)).
Proof.
  apply (generated_root_round_trip sample_encodings sample_files 0
           "greekish" greekish_registered);
    [vm_compute; reflexivity | reflexivity | discriminate].
Defined.

Lemma generated_diffs_round_trip_witness :
  ∃ gd cp,
    Generator.getDefinition sample_encodings sample_files 2 "few" = Ok (Some gd)
    ∧ Generator.emitted "few" gd = Some cp
    ∧ ∀ (rt : Codepoints) i, (i < 256)%nat →
        js_get (write_value cp rt) i
        = match Generator.file_entry sample_files "few" i with
          | Some n =>
              if decide (Generator.file_entry sample_files "ascii" i = Some n) then js_get rt i
              else Some n
          | None => js_get rt i
          end.
Proof.
  apply (generated_diffs_round_trip sample_encodings sample_files 2
           "few" "ascii" few_registered (Generator.getCodepoints sample_files "few"));
    [vm_compute; reflexivity | reflexivity | discriminate | discriminate
    | vm_compute; reflexivity | vm_compute; reflexivity].
Defined.

Lemma generated_dense_upper_half_misplaced_witness :
  ∃ gd cp,
    Generator.getDefinition sample_encodings sample_files 2 "upper" = Ok (Some gd)
    ∧ Generator.d_offset gd = 0
    ∧ Generator.emitted "upper" gd = Some cp
    ∧ offset cp = None
    ∧ ∀ (rt : Codepoints) k, (k < 256)%nat →
        js_get (write_value cp rt) k
        = if decide (k < 128)%nat then
            match Generator.file_entry sample_files "upper" (128 + k) with
            | Some n => Some n
            | None => js_get rt k
            end
          else js_get rt k.
Proof.
  apply (generated_dense_upper_half_misplaced sample_encodings sample_files 2
           "upper" "ascii" upper_registered (Generator.getCodepoints sample_files "upper"));
    [vm_compute; reflexivity | reflexivity | discriminate | discriminate
    | vm_compute; reflexivity | vm_compute; reflexivity | vm_compute; lia].
Defined.

Lemma generated_dense_round_trip_witness :
  ∃ gd cp,
    Generator.getDefinition sample_encodings sample_files 2 "shifted" = Ok (Some gd)
    ∧ Generator.emitted "shifted" gd = Some cp
    ∧ ∀ (rt : Codepoints) i, (i < 256)%nat →
        js_get (write_value cp rt) i
        = match Generator.file_entry sample_files "shifted" i with
          | Some n => Some n
          | None => js_get rt i
          end.
Proof.
  apply (generated_dense_round_trip sample_encodings sample_files 2
           "shifted" "ascii" shifted_registered (Generator.getCodepoints sample_files "shifted"));
    [vm_compute; reflexivity | reflexivity | discriminate | discriminate
    | vm_compute; reflexivity | vm_compute; reflexivity | vm_compute; lia].
Defined.

Lemma generated_ascii_ignores_file_witness :
  ∃ cp,
    Generator.emitted "ascii"
      (Generator.mkEntry ascii_registered 0
         (Some (Generator.VDense (Generator.getCodepoints sample_files "ascii")))) = Some cp
    ∧ ∀ (rt : Codepoints) i,
        js_get (write_value cp rt) i
        = if decide (i < 128)%nat then Some (Z.of_nat i) else js_get rt i.
Proof.
  apply (generated_ascii_ignores_file sample_encodings sample_files 1).
  vm_compute. reflexivity.
Defined.

Lemma generated_aliases_supported_witness :
  (∃ enc names, ("ascii"%string, enc) ∈ sample_entries
                ∧ Generator.e_aliases enc = Some names ∧ "us-ascii"%string ∈ names)
  ∧ supports (<["greekish"%string := greek_definition]>
                (<["upper"%string := latin_definition]> sample_definitions))
             (Generator.loaded (Generator.generateAliases sample_entries))
             "us-ascii" = true.
Proof.
  apply (generated_aliases_supported sample_entries
           (<["greekish"%string := greek_definition]>
              (<["upper"%string := latin_definition]> sample_definitions))
           "us-ascii" "ascii").
  - intros k enc Hin.
    repeat (apply elem_of_cons in Hin as [[= -> ->] | Hin]; [by eexists |]).
    by apply elem_of_nil in Hin.
  - vm_compute. reflexivity.
Defined.

Lemma generated_alias_of_one_witness :
  Generator.loaded (Generator.generateAliases sample_entries) !! "us-ascii"%string
  = Some "ascii"%string.
Proof.
  apply (generated_alias_of_one sample_entries "us-ascii" "ascii" ascii_registered
           ["us-ascii"%string]).
  - by left.
  - reflexivity.
  - by left.
  - intros k enc names Hin Hal Ha.
    repeat (apply elem_of_cons in Hin as [[= -> ->] | Hin];
            [first [discriminate Hal | reflexivity] |]).
    by apply elem_of_nil in Hin.
Defined.

(** ** The extra properties on the samples *)

Lemma supports_decides_fallback_witness :
  if supports sample_definitions sample_aliases "nope"
  then sample_definitions !! default "nope"%string (sample_aliases !! "nope"%string)
       = Some (definition ascii_encoding)
  else sample_definitions !! default "nope"%string (sample_aliases !! "nope"%string) = None
       ∧ sample_definitions !! "ascii"%string = Some (definition ascii_encoding).
Proof.
  apply (supports_decides_fallback sample_definitions sample_aliases 3 "nope" ascii_encoding).
  vm_compute. reflexivity.
Defined.

Lemma getTestStrings_no_fallback_witness :
  sample_definitions !! "ascii"%string = Some (definition ascii_encoding)
  ∧ getTestStrings sample_definitions sample_aliases sample_strings "nope" = [].
Proof.
  apply (getTestStrings_no_fallback sample_definitions sample_aliases sample_strings 3
           "nope" ascii_encoding).
  - reflexivity.
  - vm_compute. reflexivity.
Defined.

Lemma getTestStrings_entries_witness :
  map (fun t => (language t, string' t))
      (getTestStrings sample_definitions sample_aliases sample_strings "el")
    `sublist_of` sample_strings
  ∧ ∀ l s, mkTestString l s ∈ getTestStrings sample_definitions sample_aliases sample_strings "el"
           ↔ (l, s) ∈ sample_strings ∧ l ∈ ["el"%string].
Proof.
  apply (getTestStrings_entries sample_definitions sample_aliases sample_strings
           "el" greek_definition ["el"%string]).
  - reflexivity.
  - reflexivity.
Defined.

Lemma alias_transparent_witness :
  supports sample_definitions sample_aliases "el"
  = supports sample_definitions sample_aliases "greek"
  ∧ getTestStrings sample_definitions sample_aliases sample_strings "el"
    = getTestStrings sample_definitions sample_aliases sample_strings "greek"
  ∧ ∀ depth,
      getEncoding sample_definitions sample_aliases depth "el"
      = getEncoding sample_definitions sample_aliases depth "greek"
      ∧ ∀ input, encode sample_definitions sample_aliases depth input "el"
                 = encode sample_definitions sample_aliases depth input "greek".
Proof.
  apply (alias_transparent sample_definitions sample_aliases sample_strings "el" "greek").
  - reflexivity.
  - reflexivity.
Defined.


Lemma encode_app_witness :
  ∃ o1 o2,
    encode sample_definitions sample_aliases 3 [0x41; 0xD83D] "greek" = Ok o1
    ∧ encode sample_definitions sample_aliases 3 [0x3B1] "greek" = Ok o2
    ∧ encode sample_definitions sample_aliases 3 ([0x41; 0xD83D] ++ [0x3B1]) "greek"
      = Ok (o1 ++ o2).
Proof.
  apply (encode_app sample_definitions sample_aliases 3 [0x41; 0xD83D] [0x3B1] "greek"
           greek_encoding).
  - vm_compute. reflexivity.
  - intros u w [= <-] [= <-]. reflexivity.
Defined.

Lemma encode_injective_on_covered_witness :
  [0x41; 0xE9] = [0x41; 0xE9].
Proof.
  apply (encode_injective_on_covered sample_definitions sample_aliases 2
           [0x41; 0xE9] [0x41; 0xE9] "latin" latin_encoding [65; 130]).
  - vm_compute. reflexivity.
  - vm_compute. lia.
  - reflexivity.
  - reflexivity.
  - apply (bool_decide_unpack _). vm_compute. exact I.
  - apply (bool_decide_unpack _). vm_compute. exact I.
  - vm_compute. reflexivity.
  - vm_compute. reflexivity.
Defined.

Lemma encode_ascii_identity_witness :
  encode sample_definitions sample_aliases 1 [0x48; 0x69] "us-ascii" = Ok [0x48; 0x69].
Proof.
  apply (encode_ascii_identity sample_definitions sample_aliases 1 [0x48; 0x69] "us-ascii"
           ascii_encoding).
  - vm_compute. reflexivity.
  - vm_compute. reflexivity.
  - repeat constructor; lia.
Defined.

Lemma getCodepoints_own_witness :
  ∃ t, getCodepoints sample_definitions sample_aliases 0 "greek" false = Ok t
       ∧ ∀ k, js_get t k = override_at greek_definition k.
Proof.
  apply (getCodepoints_own sample_definitions sample_aliases 0 "greek" greek_definition).
  reflexivity.
Defined.

Lemma getEncoding_cycle_witness :
  getEncoding looping_definitions ∅ 40 "ping" = Err RangeError.
Proof.
  apply (getEncoding_cycle looping_definitions ∅
           (fun c => c = "ping"%string ∨ c = "pong"%string) 40 "ping").
  - intros c [-> | ->]; eexists _, _.
    + split; [reflexivity |]. split; [reflexivity |]. right. reflexivity.
    + split; [reflexivity |]. split; [reflexivity |]. left. reflexivity.
  - left. reflexivity.
Defined.

Lemma autoEncode_fragments_from_candidates_witness :
  ∃ frags,
    autoEncode sample_definitions sample_aliases 3 [0x41; 0x3B1; 0xE9] ["latin"; "greek"]%string
    = Ok frags
    ∧ Forall (fragment_ok ["latin"; "greek"]%string) frags.
Proof.
  apply (autoEncode_fragments_from_candidates sample_definitions sample_aliases 3
           [0x41; 0x3B1; 0xE9] ["latin"; "greek"]%string).
  - reflexivity.
  - repeat constructor; eexists; vm_compute; reflexivity.
Defined.

Lemma autoEncode_adjacent_differ_witness :
  ∃ frags,
    autoEncode sample_definitions sample_aliases 3 [0x41; 0x3B1; 0xE9] ["latin"; "greek"]%string
    = Ok frags
    ∧ adjacent_differ frags.
Proof.
  apply (autoEncode_adjacent_differ sample_definitions sample_aliases 3
           [0x41; 0x3B1; 0xE9] ["latin"; "greek"]%string).
  - reflexivity.
  - repeat constructor; eexists; vm_compute; reflexivity.
Defined.

Lemma autoEncode_slices_witness :
  ∃ frags,
    autoEncode sample_definitions sample_aliases 3 [0x41; 0x3B1; 0xE9] ["latin"; "greek"]%string
    = Ok frags
    ∧ slices (table_of sample_definitions sample_aliases 3) [0x41; 0x3B1; 0xE9] 0 None frags
    ∧ total_bytes frags = length [0x41; 0x3B1; 0xE9].
Proof.
  apply (autoEncode_slices sample_definitions sample_aliases 3
           [0x41; 0x3B1; 0xE9] ["latin"; "greek"]%string).
  - reflexivity.
  - repeat constructor; eexists; vm_compute; reflexivity.
Defined.

Lemma autoEncode_single_candidate_witness :
  ∃ output,
    encode sample_definitions sample_aliases 3 [0x41; 0x3B1] "greek" = Ok output
    ∧ autoEncode sample_definitions sample_aliases 3 [0x41; 0x3B1] ["greek"]%string
      = Ok (if decide ([0x41; 0x3B1] = []) then [] else [mkFragment "greek" output]).
Proof.
  apply (autoEncode_single_candidate sample_definitions sample_aliases 3 [0x41; 0x3B1]
           "greek" greek_encoding).
  - discriminate.
  - vm_compute. reflexivity.
Defined.

Lemma autoEncode_first_covers_witness :
  ∃ output,
    encode sample_definitions sample_aliases 2 [0x41; 0xE9] "latin" = Ok output
    ∧ autoEncode sample_definitions sample_aliases 2 [0x41; 0xE9] ["latin"; "nowhere"]%string
      = Ok [mkFragment "latin" output].
Proof.
  apply (autoEncode_first_covers sample_definitions sample_aliases 2 [0x41; 0xE9]
           "latin" ["nowhere"%string] latin_encoding).
  - discriminate.
  - vm_compute. reflexivity.
  - discriminate.
  - intros [|[|c]] Hc; [vm_compute; discriminate.. | simpl in Hc; lia].
Defined.
